(** * CipherChat: the client-side encryption core

    A shallow embedding of [client/src/utils/crypto.js] and
    [client/src/utils/backup.js] together with the two callers that decide
    how their errors and bundles are used ([login] of the auth context,
    [sendMessage] of the chat window).  A second part embeds what
    surrounds them in the client: the other helpers of the two files
    and the components that call them (the auth page, the keys modal,
    the chat window, the side bar and the backup modal).

    The browser is the platform.  What the source itself writes (base64
    plumbing, envelope fields, the order of checks, try/catch, constants)
    is translated function by function.  What the browser provides is
    either written out from its standard (UTF-8 [TextEncoder] and
    [TextDecoder], [btoa] and [atob], HMAC and PBKDF2 over the hash) or
    kept as an interface with the laws the standards guarantee (SHA-256,
    AES-GCM, RSA-OAEP, [JSON]).

    Two things of the engine are part of the model.  A call takes no
    more arguments than the engine allows ([max_arguments]), so
    [String.fromCharCode(...bytes)] throws a [RangeError] on a buffer
    longer than that.  And the two encryptions [sendMessage] starts
    under [Promise.all] are in flight together: each is cut at its
    [await]s, and a schedule says whose operation runs next. *)

From Stdlib Require Import String Ascii.
From Stdlib Require Import Strings.Byte.
From Stdlib Require Import List NArith ZArith Bool Lia.
From Stdlib Require Import DecimalString.
Import ListNotations.

Set Implicit Arguments.
Set Warnings "-register-all".
Local Open Scope N_scope.

(* ================================================================== *)
(** * Bytes and JavaScript strings *)
(* ================================================================== *)

(** A [Uint8Array] / [ArrayBuffer]. *)
Definition bytes := list byte.

(** Storing a number in a [Uint8Array] keeps it modulo 256. *)
Definition byte_of_N (n : N) : byte :=
  match Byte.of_N (n mod 256) with
  | Some b => b
  | None => x00
  end.

Definition byte_xor (a b : byte) : byte :=
  byte_of_N (N.lxor (Byte.to_N a) (Byte.to_N b)).

(** A JavaScript string is a sequence of UTF-16 code units. *)
Definition jsstring := list N.

(** An ASCII literal as a JavaScript string. *)
Definition str (s : string) : jsstring :=
  map N_of_ascii (list_ascii_of_string s).

Fixpoint jsstring_eqb (a b : jsstring) : bool :=
  match a, b with
  | [], [] => true
  | x :: a', y :: b' => (x =? y) && jsstring_eqb a' b'
  | _, _ => false
  end.

(** [arr.join(sep)] on an array of strings. *)
Fixpoint join (sep : jsstring) (parts : list jsstring) : jsstring :=
  match parts with
  | [] => []
  | [p] => p
  | p :: rest => p ++ sep ++ join sep rest
  end.

(* ================================================================== *)
(** * TextEncoder and TextDecoder (UTF-8, WHATWG Encoding) *)
(* ================================================================== *)

Module Utf8.

Definition is_lead (u : N) : bool := (0xD800 <=? u) && (u <=? 0xDBFF).
Definition is_trail (u : N) : bool := (0xDC00 <=? u) && (u <=? 0xDFFF).

(** Conversion of a string to scalar values: a surrogate pair is one code
    point, a lone surrogate becomes U+FFFD. *)
Fixpoint to_scalars (s : jsstring) : list N :=
  match s with
  | [] => []
  | u :: rest =>
      if is_lead u then
        match rest with
        | v :: rest' =>
            if is_trail v
            then (0x10000 + (u - 0xD800) * 0x400 + (v - 0xDC00))
                 :: to_scalars rest'
            else 0xFFFD :: to_scalars rest
        | [] => [0xFFFD]
        end
      else if is_trail u then 0xFFFD :: to_scalars rest
      else u :: to_scalars rest
  end.

Definition encode_scalar (c : N) : list N :=
  if c <? 0x80 then [c]
  else if c <? 0x800 then [0xC0 + c / 64; 0x80 + c mod 64]
  else if c <? 0x10000 then
    [0xE0 + c / 4096; 0x80 + (c / 64) mod 64; 0x80 + c mod 64]
  else
    [0xF0 + c / 262144; 0x80 + (c / 4096) mod 64;
     0x80 + (c / 64) mod 64; 0x80 + c mod 64].

(** [new TextEncoder().encode(s)] *)
Definition encode (s : jsstring) : bytes :=
  map byte_of_N (flat_map encode_scalar (to_scalars s)).

(** The decoder's state: code point so far, continuation bytes still
    needed, and the bounds the next continuation byte must respect. *)
Record dstate := DState { cp : N; needed : N; lower : N; upper : N }.

Definition dinit : dstate := DState 0 0 0x80 0xBF.

(** A byte met while no sequence is open: either code points to emit, or
    the state of a freshly opened sequence. *)
Definition start (b : N) : list N * dstate :=
  if b <=? 0x7F then ([b], dinit)
  else if (0xC2 <=? b) && (b <=? 0xDF) then ([], DState (b mod 32) 1 0x80 0xBF)
  else if (0xE0 <=? b) && (b <=? 0xEF) then
    ([], DState (b mod 16) 2 (if b =? 0xE0 then 0xA0 else 0x80)
                             (if b =? 0xED then 0x9F else 0xBF))
  else if (0xF0 <=? b) && (b <=? 0xF4) then
    ([], DState (b mod 8) 3 (if b =? 0xF0 then 0x90 else 0x80)
                            (if b =? 0xF4 then 0x8F else 0xBF))
  else ([0xFFFD], dinit).

Fixpoint run (st : dstate) (bs : list N) : list N :=
  match bs with
  | [] => if needed st =? 0 then [] else [0xFFFD]
  | b :: rest =>
      if needed st =? 0 then
        let (out, st') := start b in out ++ run st' rest
      else if (lower st <=? b) && (b <=? upper st) then
        let c := cp st * 64 + b mod 64 in
        if needed st =? 1 then c :: run dinit rest
        else run (DState c (needed st - 1) 0x80 0xBF) rest
      else
        (* the byte is put back and read again with no sequence open *)
        0xFFFD :: (let (out, st') := start b in out ++ run st' rest)
  end.

(** A decoder built without [ignoreBOM] drops a leading U+FEFF. *)
Definition strip_bom (cps : list N) : list N :=
  match cps with
  | c :: rest => if c =? 0xFEFF then rest else cps
  | [] => []
  end.

Definition to_units (c : N) : list N :=
  if c <? 0x10000 then [c]
  else [0xD800 + (c - 0x10000) / 0x400; 0xDC00 + (c - 0x10000) mod 0x400].

(** [new TextDecoder().decode(buf)] *)
Definition decode (bs : bytes) : jsstring :=
  flat_map to_units (strip_bom (run dinit (map Byte.to_N bs))).

(** Well-formed UTF-16: code units below 2^16, every surrogate paired. *)
Fixpoint well_formed (s : jsstring) : bool :=
  match s with
  | [] => true
  | u :: rest =>
      if is_lead u then
        match rest with
        | v :: rest' => is_trail v && well_formed rest'
        | [] => false
        end
      else negb (is_trail u) && (u <? 0x10000) && well_formed rest
  end.

Definition starts_with_bom (s : jsstring) : bool :=
  match s with
  | u :: _ => u =? 0xFEFF
  | [] => false
  end.

(** A Unicode scalar value: a code point that is not a surrogate. *)
Definition scalar (c : N) : Prop := c < 0x110000 /\ ~ (0xD800 <= c <= 0xDFFF).

(** The strings that survive [decode (encode s)]. *)
Definition clean_text (s : jsstring) : bool :=
  well_formed s && negb (starts_with_bom s).

End Utf8.

(* ================================================================== *)
(** * btoa and atob (HTML forgiving-base64) *)
(* ================================================================== *)

Module Base64.

Definition alphabet (i : N) : N :=
  if i <? 26 then 65 + i
  else if i <? 52 then 97 + (i - 26)
  else if i <? 62 then 48 + (i - 52)
  else if i =? 62 then 43
  else 47.

Definition value (c : N) : option N :=
  if (65 <=? c) && (c <=? 90) then Some (c - 65)
  else if (97 <=? c) && (c <=? 122) then Some (c - 97 + 26)
  else if (48 <=? c) && (c <=? 57) then Some (c - 48 + 52)
  else if c =? 43 then Some 62
  else if c =? 47 then Some 63
  else None.

Definition pad : N := 61.

Fixpoint encode_units (s : list N) : list N :=
  match s with
  | [] => []
  | [a] => [alphabet (a / 4); alphabet ((a mod 4) * 16); pad; pad]
  | [a; b] =>
      [alphabet (a / 4); alphabet ((a mod 4) * 16 + b / 16);
       alphabet ((b mod 16) * 4); pad]
  | a :: b :: c :: rest =>
      alphabet (a / 4) :: alphabet ((a mod 4) * 16 + b / 16)
      :: alphabet ((b mod 16) * 4 + c / 64) :: alphabet (c mod 64)
      :: encode_units rest
  end.

(** The same without the trailing [=]. *)
Fixpoint encode_core (s : list N) : list N :=
  match s with
  | [] => []
  | [a] => [alphabet (a / 4); alphabet ((a mod 4) * 16)]
  | [a; b] =>
      [alphabet (a / 4); alphabet ((a mod 4) * 16 + b / 16);
       alphabet ((b mod 16) * 4)]
  | a :: b :: c :: rest =>
      alphabet (a / 4) :: alphabet ((a mod 4) * 16 + b / 16)
      :: alphabet ((b mod 16) * 4 + c / 64) :: alphabet (c mod 64)
      :: encode_core rest
  end.

Definition is_ascii_whitespace (c : N) : bool :=
  (c =? 9) || (c =? 10) || (c =? 12) || (c =? 13) || (c =? 32).

(** Removes one or two trailing [=]. *)
Fixpoint strip_padding (d : list N) : list N :=
  match d with
  | [] => []
  | c :: rest =>
      match rest with
      | [] => if c =? pad then [] else [c]
      | [c'] =>
          if (c =? pad) && (c' =? pad) then [] else c :: strip_padding rest
      | _ => c :: strip_padding rest
      end
  end.

Fixpoint values (d : list N) : option (list N) :=
  match d with
  | [] => Some []
  | c :: rest =>
      match value c, values rest with
      | Some v, Some vs => Some (v :: vs)
      | _, _ => None
      end
  end.

(** Four sextets give three bytes; a final group of three gives two and
    of two gives one, the bits left over being dropped unread. *)
Fixpoint decode_values (vs : list N) : list N :=
  match vs with
  | a :: b :: c :: d :: rest =>
      (a * 4 + b / 16) :: ((b mod 16) * 16 + c / 4) :: ((c mod 4) * 64 + d)
      :: decode_values rest
  | [a; b; c] => [a * 4 + b / 16; (b mod 16) * 16 + c / 4]
  | [a; b] => [a * 4 + b / 16]
  | _ => []
  end.

(** A binary string: every code unit is a byte. *)
Definition small (l : list N) : Prop := Forall (fun b => b < 256) l.

(** A binary string made of whole groups of three bytes. *)
Inductive triples : list N -> Prop :=
| triples_nil : triples []
| triples_cons a b c rest :
    a < 256 -> b < 256 -> c < 256 -> triples rest ->
    triples (a :: b :: c :: rest).

Definition decode_units (s : jsstring) : option (list N) :=
  let d := filter (fun c => negb (is_ascii_whitespace c)) s in
  let d := if N.of_nat (length d) mod 4 =? 0 then strip_padding d else d in
  if N.of_nat (length d) mod 4 =? 1 then None
  else option_map decode_values (values d).

End Base64.

(* ================================================================== *)
(** * Values, errors and effects *)
(* ================================================================== *)

(** A value built from JSON data.  An object is its properties in
    enumeration order. *)
Inductive json (num : Type) : Type :=
| JNull
| JBool (b : bool)
| JNum (n : num)
| JStr (s : jsstring)
| JArr (items : list (json num))
| JObj (fields : list (jsstring * json num)).

Arguments JNull {num}.
Arguments JBool {num} b.
Arguments JNum {num} n.
Arguments JStr {num} s.
Arguments JArr {num} items.
Arguments JObj {num} fields.

(** What a [throw] or a rejected promise carries.  [Error] is
    [new Error(message)]; [RangeError] is what a call with too many
    arguments throws; [OperationError], [DataError] and
    [InvalidCharacterError] are the DOMExceptions of Web Crypto and
    [atob]; [AxiosError] is a failed HTTP call with the [message] of the
    server's reply, when there is one. *)
Inductive js_error : Type :=
| Error (message : string)
| TypeError
| RangeError
| SyntaxError
| InvalidCharacterError
| OperationError
| DataError
| AxiosError (server_message : option string).

Inductive outcome (A : Type) : Type :=
| Ok (a : A)
| Throw (e : js_error).

Arguments Ok {A} a.
Arguments Throw {A} e.

Inductive algorithm : Type := PBKDF2 | AES_GCM | RSA_OAEP.

(** Calls into [window.crypto], in the order they happen. *)
Inductive event : Type :=
| EvRandom (n : nat)
| EvImportKey (alg : algorithm)
| EvExportKey
| EvGenerateKey (alg : algorithm)
| EvDeriveKey (iterations : N)
| EvEncrypt (alg : algorithm)
| EvDecrypt (alg : algorithm)
| EvDigest.

(** The part of the browser the functions read and write: the entropy
    source (an unbounded tape and how far it was read), the clock, and the
    record of calls made so far. *)
Record world : Type := World {
  tape : nat -> byte;
  cursor : nat;
  now : jsstring;
  log : list event
}.

(** An [async] function: it runs in a world, returns or throws, and
    leaves a world.  What happened before a throw stays. *)
Definition M (A : Type) : Type := world -> outcome A * world.

Definition ret {A} (a : A) : M A := fun w => (Ok a, w).

Definition throw {A} (e : js_error) : M A := fun w => (Throw e, w).

Definition bind {A B} (m : M A) (k : A -> M B) : M B :=
  fun w =>
    match m w with
    | (Ok a, w') => k a w'
    | (Throw e, w') => (Throw e, w')
    end.

(** [try { m } catch (e) { h e }] *)
Definition try_catch {A} (m : M A) (h : js_error -> M A) : M A :=
  fun w =>
    match m w with
    | (Ok a, w') => (Ok a, w')
    | (Throw e, w') => h e w'
    end.

Definition lift {A} (o : outcome A) : M A := fun w => (o, w).

(** The world after one more call, and after [n] more bytes of the tape. *)
Definition logged (e : event) (w : world) : world :=
  World (tape w) (cursor w) (now w) (log w ++ [e]).

Definition advanced (n : nat) (w : world) : world :=
  World (tape w) (cursor w + n) (now w) (log w).

Definition emit (e : event) : M unit := fun w => (Ok tt, logged e w).

Declare Scope js_scope.
Delimit Scope js_scope with js.
Notation "x <- m ;; k" := (bind m (fun x => k))
  (at level 61, m at next level, right associativity) : js_scope.
Notation "m ;;; k" := (bind m (fun _ => k))
  (at level 61, right associativity) : js_scope.
Local Open Scope js_scope.

(** An [async] function cut at its [await]s.  [Await m k] is the code
    up to the next [await] together with the operation awaited, [m],
    and what follows once that has settled, [k]; [Last m] is the code
    after the last [await].  With no [catch] around it, an operation
    that rejects rejects the call. *)
Inductive steps (A : Type) : Type :=
| Last (m : M A)
| Await (X : Type) (m : M X) (k : X -> steps A).

Arguments Last {A} m.
Arguments Await {A X} m k.

(** A call awaited by itself. *)
Fixpoint run_steps {A} (s : steps A) : M A :=
  match s with
  | Last m => m
  | Await m k => x <- m ;; run_steps (k x)
  end.

(** A call whose outcome no longer counts runs to its end all the same:
    the world it leaves. *)
Definition run_on {A} (s : steps A) (w : world) : world :=
  snd (run_steps s w).

(** [await Promise.all([a, b])] for two calls in flight.  Nothing in the
    program orders the operations the two calls wait for: the schedule
    says, turn by turn, which call goes on next ([true]: the first),
    and when it runs out the first goes before the second.  The promise
    resolves with both results once both calls have returned, and
    rejects with the first rejection there is; nothing is cancelled, so
    the other call runs to its end even then. *)
Fixpoint both {A B} (a : steps A) : list bool -> steps B -> M (A * B) :=
  fix both_a (sched : list bool) (b : steps B) {struct b} : M (A * B) :=
    let first := match sched with false :: _ => false | _ => true end in
    if first then
      match a with
      | Last m =>
          fun w =>
            match m w with
            | (Ok x, w') => (y <- run_steps b ;; ret (x, y)) w'
            | (Throw e, w') => (Throw e, run_on b w')
            end
      | Await m k =>
          fun w =>
            match m w with
            | (Ok x, w') => both (k x) (tl sched) b w'
            | (Throw e, w') => (Throw e, run_on b w')
            end
      end
    else
      match b with
      | Last m =>
          fun w =>
            match m w with
            | (Ok y, w') => (x <- run_steps a ;; ret (x, y)) w'
            | (Throw e, w') => (Throw e, run_on a w')
            end
      | Await m k =>
          fun w =>
            match m w with
            | (Ok y, w') => both_a (tl sched) (k y) w'
            | (Throw e, w') => (Throw e, run_on a w')
            end
      end.

(** The [n] bytes of the tape from position [c] on. *)
Definition read_tape (t : nat -> byte) (c n : nat) : bytes :=
  map (fun i => t (c + i)%nat) (seq 0 n).

Definition draw (n : nat) : M bytes :=
  fun w => (Ok (read_tape (tape w) (cursor w) n), advanced n w).

(** [window.crypto.getRandomValues(new Uint8Array(n))] *)
Definition getRandomValues (n : nat) : M bytes :=
  emit (EvRandom n) ;;; draw n.

(** [new Date().toISOString()] *)
Definition Date_toISOString : M jsstring := fun w => (Ok (now w), w).

(** [btoa]: a code unit above 255 is refused. *)
Definition btoa (s : jsstring) : outcome jsstring :=
  if forallb (fun u => u <=? 255) s then Ok (Base64.encode_units s)
  else Throw InvalidCharacterError.

Definition atob (s : jsstring) : outcome jsstring :=
  match Base64.decode_units s with
  | Some bin => Ok bin
  | None => Throw InvalidCharacterError
  end.

(** The binary string of a buffer: one code unit for each byte. *)
Definition byte_string (buffer : bytes) : jsstring := map Byte.to_N buffer.

(** The base64 text of a buffer, and the buffer a base64 text stands
    for, when it stands for one. *)
Definition b64 (buffer : bytes) : jsstring :=
  Base64.encode_units (byte_string buffer).

Definition unb64 (s : jsstring) : option bytes :=
  option_map (map byte_of_N) (Base64.decode_units s).

(* ================================================================== *)
(** * The platform: JSON and Web Crypto primitives *)
(* ================================================================== *)

(** The primitives taken from the browser as they are.  [max_arguments]
    is the number of arguments the engine takes in one call: a call with
    more throws a [RangeError].  [rsa_oaep_encrypt] receives the OAEP
    seed it would draw itself; [rsa_generate] reads the tape from a
    position and returns where it stopped. *)
Class Platform : Type := {
  max_arguments : N;
  number : Type;
  number_to_string : number -> jsstring;
  number_round_trips : number -> bool;
  JSON_parse : jsstring -> option (json number);
  JSON_stringify : N -> json number -> jsstring;
  sha256 : bytes -> bytes;
  aes_gcm_seal : bytes -> bytes -> bytes -> bytes;
  aes_gcm_open : bytes -> bytes -> bytes -> option bytes;
  rsa_public : Type;
  rsa_private : Type;
  rsa_pair : rsa_public -> rsa_private -> Prop;
  rsa_generate : (nat -> byte) -> nat -> (rsa_public * rsa_private) * nat;
  spki_export : rsa_public -> bytes;
  pkcs8_export : rsa_private -> bytes;
  spki_import : bytes -> option rsa_public;
  pkcs8_import : bytes -> option rsa_private;
  rsa_oaep_encrypt : rsa_public -> bytes -> bytes -> option bytes;
  rsa_oaep_decrypt : rsa_private -> bytes -> option bytes
}.

(** ** HMAC (RFC 2104) and PBKDF2 (RFC 8018) over the platform's hash *)

Section KeyStretching.
Context {P : Platform}.

Definition hmac_block_size : nat := 64.

(** The key as HMAC uses it: hashed when longer than a block, then
    filled with zero bytes up to the block size. *)
Definition hmac_key (k : bytes) : bytes :=
  let k' := if Nat.ltb hmac_block_size (length k) then sha256 k else k in
  k' ++ repeat x00 (hmac_block_size - length k').

Definition hmac (k m : bytes) : bytes :=
  let k0 := hmac_key k in
  sha256 (map (byte_xor x5c) k0 ++ sha256 (map (byte_xor x36) k0 ++ m)).

Definition xor_bytes (a b : bytes) : bytes :=
  map (fun p => byte_xor (fst p) (snd p)) (combine a b).

Definition int32be (i : N) : bytes :=
  map byte_of_N [i / 16777216; i / 65536; i / 256; i].

(** [F(P, S, c, i) = U_1 xor ... xor U_c] *)
Definition pbkdf2_F (pw salt : bytes) (c i : N) : bytes :=
  let u1 := hmac pw (salt ++ int32be i) in
  fst (N.iter (c - 1)
         (fun tu => let u := hmac pw (snd tu) in (xor_bytes (fst tu) u, u))
         (u1, u1)).

Definition pbkdf2 (pw salt : bytes) (c : N) (dkLen : nat) : bytes :=
  firstn dkLen
    (flat_map (fun i => pbkdf2_F pw salt c (N.of_nat i))
              (seq 1 ((dkLen + 31) / 32)%nat)).

End KeyStretching.

(** ** [window.crypto.subtle] *)

Section Subtle.
Context {P : Platform}.

(** [importKey('raw', data, 'PBKDF2', false, ['deriveKey'])] *)
Definition subtle_importKey_PBKDF2 (data : bytes) : M bytes :=
  emit (EvImportKey PBKDF2) ;;; ret data.

(** [deriveKey({name:'PBKDF2', salt, iterations, hash:'SHA-256'}, km,
    {name:'AES-GCM', length:256}, ...)] *)
Definition subtle_deriveKey (salt : bytes) (iterations : N) (km : bytes)
  : M bytes :=
  emit (EvDeriveKey iterations) ;;;
  if iterations =? 0 then throw OperationError
  else ret (pbkdf2 km salt iterations 32).

(** [encrypt({name:'AES-GCM', iv}, key, data)] *)
Definition subtle_encrypt_AES_GCM (iv key data : bytes) : M bytes :=
  emit (EvEncrypt AES_GCM) ;;; ret (aes_gcm_seal key iv data).

(** [decrypt({name:'AES-GCM', iv}, key, data)] *)
Definition subtle_decrypt_AES_GCM (iv key data : bytes) : M bytes :=
  emit (EvDecrypt AES_GCM) ;;;
  match aes_gcm_open key iv data with
  | Some plain => ret plain
  | None => throw OperationError
  end.

(** [generateKey({name:'AES-GCM', length:256}, true, ...)] followed by
    [exportKey('raw', key)]: the key is its 32 raw bytes. *)
Definition subtle_generateKey_AES256 : M bytes :=
  emit (EvGenerateKey AES_GCM) ;;; draw 32.

Definition subtle_exportKey_raw (key : bytes) : M bytes :=
  emit EvExportKey ;;; ret key.

(** [importKey('raw', raw, {name:'AES-GCM'}, ...)] *)
Definition subtle_importKey_AES (raw : bytes) : M bytes :=
  emit (EvImportKey AES_GCM) ;;;
  if (Nat.eqb (length raw) 16 || Nat.eqb (length raw) 24
      || Nat.eqb (length raw) 32)%bool
  then ret raw else throw DataError.

Definition subtle_importKey_spki (data : bytes) : M rsa_public :=
  emit (EvImportKey RSA_OAEP) ;;;
  match spki_import data with
  | Some k => ret k
  | None => throw DataError
  end.

Definition subtle_importKey_pkcs8 (data : bytes) : M rsa_private :=
  emit (EvImportKey RSA_OAEP) ;;;
  match pkcs8_import data with
  | Some k => ret k
  | None => throw DataError
  end.

(** [encrypt({name:'RSA-OAEP'}, key, data)]; the seed has the length of
    the hash. *)
Definition subtle_encrypt_RSA_OAEP (key : rsa_public) (data : bytes)
  : M bytes :=
  emit (EvEncrypt RSA_OAEP) ;;;
  seed <- draw 32 ;;
  match rsa_oaep_encrypt key seed data with
  | Some c => ret c
  | None => throw OperationError
  end.

Definition subtle_decrypt_RSA_OAEP (key : rsa_private) (data : bytes)
  : M bytes :=
  emit (EvDecrypt RSA_OAEP) ;;;
  match rsa_oaep_decrypt key data with
  | Some m => ret m
  | None => throw OperationError
  end.

Definition subtle_digest_SHA256 (data : bytes) : M bytes :=
  emit EvDigest ;;; ret (sha256 data).

(** [generateKey({name:'RSA-OAEP', modulusLength:2048, ...})] *)
Definition subtle_generateKey_RSA : M (rsa_public * rsa_private) :=
  emit (EvGenerateKey RSA_OAEP) ;;;
  fun w =>
    let (kp, c) := rsa_generate (tape w) (cursor w) in
    (Ok kp, World (tape w) c (now w) (log w)).

End Subtle.

(* ================================================================== *)
(** * crypto.js *)
(* ================================================================== *)

(** [{ publicKey, privateKey }], both base64. *)
Record KeyPair : Type := { publicKey : jsstring; privateKey : jsstring }.

(** [{ ct, salt, iv }], all base64: the private key as the server keeps
    it. *)
Record PrivateKeyEnvelope : Type :=
  { env_ct : jsstring; env_salt : jsstring; env_iv : jsstring }.

(** [{ ciphertext, encKey, iv }], all base64. *)
Record MessageBundle : Type :=
  { ciphertext : jsstring; encKey : jsstring; iv : jsstring }.

Section CryptoJs.
Context {P : Platform}.

(** [String.fromCharCode(...new Uint8Array(buffer))]: the spread makes
    each byte of the buffer one argument of the call, and the call
    throws when they are more than the engine takes. *)
Definition fromCharCodes (buffer : bytes) : outcome jsstring :=
  if N.of_nat (length buffer) <=? max_arguments then Ok (byte_string buffer)
  else Throw RangeError.

Definition arrayToBase64 (buffer : bytes) : M jsstring :=
  binary <- lift (fromCharCodes buffer) ;;
  lift (btoa binary).

Definition base64ToArray (b64 : jsstring) : M bytes :=
  bin <- lift (atob b64) ;;
  ret (map byte_of_N bin).

Definition generateKeyPair : M KeyPair :=
  keyPair <- subtle_generateKey_RSA ;;
  pubRaw <- (emit EvExportKey ;;; ret (spki_export (fst keyPair))) ;;
  privRaw <- (emit EvExportKey ;;; ret (pkcs8_export (snd keyPair))) ;;
  pub <- arrayToBase64 pubRaw ;;
  priv <- arrayToBase64 privRaw ;;
  ret {| publicKey := pub; privateKey := priv |}.

Definition deriveKey (passphrase : jsstring) (salt : bytes) : M bytes :=
  keyMaterial <- subtle_importKey_PBKDF2 (Utf8.encode passphrase) ;;
  subtle_deriveKey salt 100000 keyMaterial.

Definition encryptPrivateKey (privateKeyB64 passphrase : jsstring)
  : M PrivateKeyEnvelope :=
  salt <- getRandomValues 16 ;;
  iv <- getRandomValues 12 ;;
  key <- deriveKey passphrase salt ;;
  let enc := Utf8.encode privateKeyB64 in
  ct <- subtle_encrypt_AES_GCM iv key enc ;;
  ct64 <- arrayToBase64 ct ;;
  salt64 <- arrayToBase64 salt ;;
  iv64 <- arrayToBase64 iv ;;
  ret {| env_ct := ct64; env_salt := salt64; env_iv := iv64 |}.

Definition decryptPrivateKey (pkg : PrivateKeyEnvelope)
  (passphrase : jsstring) : M jsstring :=
  salt <- base64ToArray (env_salt pkg) ;;
  iv <- base64ToArray (env_iv pkg) ;;
  ct <- base64ToArray (env_ct pkg) ;;
  key <- deriveKey passphrase salt ;;
  plain <- subtle_decrypt_AES_GCM iv key ct ;;
  ret (Utf8.decode plain).

Definition importPublicKey (b64 : jsstring) : M rsa_public :=
  raw <- base64ToArray b64 ;;
  subtle_importKey_spki raw.

Definition importPrivateKey (b64 : jsstring) : M rsa_private :=
  raw <- base64ToArray b64 ;;
  subtle_importKey_pkcs8 raw.

Definition encryptMessage (plaintext recipientPubKeyB64 : jsstring)
  : M MessageBundle :=
  recipientPubKey <- importPublicKey recipientPubKeyB64 ;;
  (* 1. random AES-256 session key *)
  aesKey <- subtle_generateKey_AES256 ;;
  aesRaw <- subtle_exportKey_raw aesKey ;;
  (* 2. plaintext under AES-GCM *)
  iv <- getRandomValues 12 ;;
  let msgBytes := Utf8.encode plaintext in
  ciphertext <- subtle_encrypt_AES_GCM iv aesKey msgBytes ;;
  (* 3. session key under the recipient's RSA public key *)
  encKey <- subtle_encrypt_RSA_OAEP recipientPubKey aesRaw ;;
  ciphertext64 <- arrayToBase64 ciphertext ;;
  encKey64 <- arrayToBase64 encKey ;;
  iv64 <- arrayToBase64 iv ;;
  ret {| ciphertext := ciphertext64; encKey := encKey64; iv := iv64 |}.

(** [encryptMessage] cut at its five [await]s, for a caller that does
    not await it alone.  The nonce is drawn in the stretch that ends
    with the AES-GCM encryption; the three base64 texts are made after
    the last [await]. *)
Definition encryptMessage_steps (plaintext recipientPubKeyB64 : jsstring)
  : steps MessageBundle :=
  Await (importPublicKey recipientPubKeyB64) (fun recipientPubKey =>
  Await subtle_generateKey_AES256 (fun aesKey =>
  Await (subtle_exportKey_raw aesKey) (fun aesRaw =>
  Await (iv <- getRandomValues 12 ;;
         let msgBytes := Utf8.encode plaintext in
         ciphertext <- subtle_encrypt_AES_GCM iv aesKey msgBytes ;;
         ret (iv, ciphertext)) (fun sealed =>
  Await (subtle_encrypt_RSA_OAEP recipientPubKey aesRaw) (fun encKey =>
  Last (ciphertext64 <- arrayToBase64 (snd sealed) ;;
        encKey64 <- arrayToBase64 encKey ;;
        iv64 <- arrayToBase64 (fst sealed) ;;
        ret {| ciphertext := ciphertext64; encKey := encKey64;
               iv := iv64 |})))))).

Definition decryptMessage (pkg : MessageBundle) (privateKeyB64 : jsstring)
  : M jsstring :=
  privateKey <- importPrivateKey privateKeyB64 ;;
  (* 1. session key *)
  encAesKeyBytes <- base64ToArray (encKey pkg) ;;
  aesRaw <- subtle_decrypt_RSA_OAEP privateKey encAesKeyBytes ;;
  (* 2. import it *)
  aesKey <- subtle_importKey_AES aesRaw ;;
  (* 3. ciphertext *)
  iv <- base64ToArray (iv pkg) ;;
  ciphertext <- base64ToArray (ciphertext pkg) ;;
  plaintext <- subtle_decrypt_AES_GCM iv aesKey ciphertext ;;
  ret (Utf8.decode plaintext).

(** ** Key fingerprint *)

Definition hex_digit (d : N) : N :=
  if d <? 10 then 48 + d else 97 + (d - 10).

(** [b.toString(16)] for a byte. *)
Definition toString16 (b : N) : jsstring :=
  if b <? 16 then [hex_digit b] else [hex_digit (b / 16); hex_digit (b mod 16)].

(** [s.padStart(2, '0')] *)
Definition padStart2 (s : jsstring) : jsstring :=
  repeat 48 (2 - length s) ++ s.

(** [toUpperCase] on the ASCII range, which is all the hex digits reach. *)
Definition toUpperCase (s : jsstring) : jsstring :=
  map (fun c => if (97 <=? c) && (c <=? 122) then c - 32 else c) s.

Definition is_line_terminator (c : N) : bool :=
  (c =? 10) || (c =? 13) || (c =? 0x2028) || (c =? 0x2029).

(** [s.match(/.{4}/g)]: the successive non-overlapping runs of four
    characters that are not line terminators; no run at all is [null]. *)
Fixpoint match_dot4 (s : jsstring) : list jsstring :=
  match s with
  | [] => []
  | a :: t =>
      match t with
      | b :: c :: d :: rest =>
          if forallb (fun x => negb (is_line_terminator x)) [a; b; c; d]
          then [a; b; c; d] :: match_dot4 rest
          else match_dot4 t
      | _ => []
      end
  end.

Definition fingerprint_format (hash : bytes) : outcome jsstring :=
  let hex :=
    toUpperCase
      (join [] (map (fun b => padStart2 (toString16 (Byte.to_N b))) hash)) in
  match match_dot4 hex with
  | [] => Throw TypeError
  | groups => Ok (join (str " ") groups)
  end.

Definition getKeyFingerprint (pubKeyB64 : jsstring) : M jsstring :=
  raw <- base64ToArray pubKeyB64 ;;
  hash <- subtle_digest_SHA256 raw ;;
  lift (fingerprint_format hash).

End CryptoJs.

(* ================================================================== *)
(** * backup.js *)
(* ================================================================== *)

Section BackupJs.
Context {P : Platform}.

Definition BACKUP_MAGIC : jsstring := str "CIPHERCHAT_BACKUP_V1".

Definition msg_invalid_json : string :=
  "Invalid backup file — could not parse JSON".
Definition msg_not_a_backup : string :=
  "Invalid backup file — not a CipherChat backup".
Definition msg_wrong_password : string :=
  "Wrong backup password — could not decrypt".

Fixpoint lookup (k : jsstring) (fields : list (jsstring * json number))
  : option (json number) :=
  match fields with
  | [] => None
  | (k', v) :: rest => if jsstring_eqb k k' then Some v else lookup k rest
  end.

(** The property [k] of a value that is not [null], for the names this
    code reads (none of them lives on a prototype); [None] is
    [undefined]. *)
Definition field (v : json number) (k : jsstring) : option (json number) :=
  match v with
  | JObj fields => lookup k fields
  | _ => None
  end.

(** [v.k]: reading a property of [undefined] or [null] throws. *)
Definition get_prop (v : option (json number)) (k : jsstring)
  : M (option (json number)) :=
  match v with
  | None => throw TypeError
  | Some JNull => throw TypeError
  | Some v' => ret (field v' k)
  end.

(** The conversion to a string that [atob] applies to its argument. *)
Fixpoint to_string (v : json number) : jsstring :=
  match v with
  | JNull => str "null"
  | JBool b => if b then str "true" else str "false"
  | JNum n => number_to_string n
  | JStr s => s
  | JArr items =>
      join (str ",")
           (map (fun x => match x with JNull => [] | _ => to_string x end)
                items)
  | JObj _ => str "[object Object]"
  end.

Definition ToString (v : option (json number)) : jsstring :=
  match v with
  | None => str "undefined"
  | Some v => to_string v
  end.

(** [a !== b] against a string constant. *)
Definition strict_neq_string (v : option (json number)) (s : jsstring)
  : bool :=
  match v with
  | Some (JStr s') => negb (jsstring_eqb s' s)
  | _ => true
  end.

(** An object literal as [JSON.stringify] sees it: a property whose value
    is [undefined] is left out. *)
Fixpoint defined_props (props : list (jsstring * option (json number)))
  : list (jsstring * json number) :=
  match props with
  | [] => []
  | (k, Some v) :: rest => (k, v) :: defined_props rest
  | (_, None) :: rest => defined_props rest
  end.

Definition object_literal (props : list (jsstring * option (json number)))
  : json number :=
  JObj (defined_props props).

Definition JSON_parse_or_throw (s : jsstring) : M (json number) :=
  match JSON_parse s with
  | Some v => ret v
  | None => throw SyntaxError
  end.

Definition deriveBackupKey (password : jsstring) (salt : bytes) : M bytes :=
  keyMaterial <- subtle_importKey_PBKDF2 (Utf8.encode password) ;;
  subtle_deriveKey salt 150000 keyMaterial.

Definition encryptBackup (backupData : json number)
  (backupPassword : jsstring) : M jsstring :=
  salt <- getRandomValues 16 ;;
  iv <- getRandomValues 12 ;;
  key <- deriveBackupKey backupPassword salt ;;
  let jsonStr := JSON_stringify 0 backupData in
  let encoded := Utf8.encode jsonStr in
  ciphertext <- subtle_encrypt_AES_GCM iv key encoded ;;
  createdAt <- Date_toISOString ;;
  salt64 <- arrayToBase64 salt ;;
  iv64 <- arrayToBase64 iv ;;
  ciphertext64 <- arrayToBase64 ciphertext ;;
  stats <- get_prop (Some backupData) (str "stats") ;;
  owner <- get_prop (Some backupData) (str "owner") ;;
  username <- get_prop owner (str "username") ;;
  let pkg := object_literal
    [(str "magic", Some (JStr BACKUP_MAGIC));
     (str "version", Some (JStr (str "1.0")));
     (str "createdAt", Some (JStr createdAt));
     (str "salt", Some (JStr salt64));
     (str "iv", Some (JStr iv64));
     (str "ciphertext", Some (JStr ciphertext64));
     (str "stats", stats);
     (str "owner", username)] in
  ret (JSON_stringify 2 pkg).

Definition decryptBackup (backupFileContent backupPassword : jsstring)
  : M (json number) :=
  pkg <- try_catch (JSON_parse_or_throw backupFileContent)
           (fun _ => throw (Error msg_invalid_json)) ;;
  magic <- get_prop (Some pkg) (str "magic") ;;
  if strict_neq_string magic BACKUP_MAGIC
  then throw (Error msg_not_a_backup)
  else
    try_catch
      (salt64 <- get_prop (Some pkg) (str "salt") ;;
       salt <- base64ToArray (ToString salt64) ;;
       iv64 <- get_prop (Some pkg) (str "iv") ;;
       iv <- base64ToArray (ToString iv64) ;;
       ciphertext64 <- get_prop (Some pkg) (str "ciphertext") ;;
       ciphertext <- base64ToArray (ToString ciphertext64) ;;
       key <- deriveBackupKey backupPassword salt ;;
       decrypted <- subtle_decrypt_AES_GCM iv key ciphertext ;;
       let jsonStr := Utf8.decode decrypted in
       JSON_parse_or_throw jsonStr)
      (fun _ => throw (Error msg_wrong_password)).

End BackupJs.

(* ================================================================== *)
(** * The callers: [login] and [sendMessage] *)
(* ================================================================== *)

Section Callers.
Context {P : Platform}.

(** What [POST /auth/login] answers with. *)
Record login_response : Type := {
  resp_token : jsstring;
  resp_user : json number;
  encryptedPrivateKey : PrivateKeyEnvelope
}.

(** [{ success, message }] together with the private key the session
    holds afterwards ([setPrivateKey]). *)
Record login_result : Type := {
  success : bool;
  message : option string;
  session_key : option jsstring
}.

(** [err.response?.data?.message || 'Login failed'] *)
Definition login_failure_message (err : js_error) : string :=
  match err with
  | AxiosError (Some m) => if String.eqb m "" then "Login failed"%string else m
  | _ => "Login failed"%string
  end.

(** [login(username, password)], given what the HTTP call gave.  Of the
    state it sets, the private key of the session is kept; the token,
    the user and the loading flag play no part in what it returns. *)
Definition login (post : outcome login_response) (password : jsstring)
  : M login_result :=
  try_catch
    (data <- lift post ;;
     privKey <- decryptPrivateKey (encryptedPrivateKey data) password ;;
     ret {| success := true; message := None; session_key := Some privKey |})
    (fun err =>
       ret {| success := false;
              message := Some (login_failure_message err);
              session_key := None |}).

(** The two [encryptMessage] calls of [sendMessage], under
    [Promise.all].  Building the array runs each call up to its first
    [await], the recipient's first; from there on the two go on as their
    operations settle, which is the schedule's to say. *)
Definition sendMessage (sched : list bool)
  (text contactPublicKey ownPublicKey : jsstring)
  : M (MessageBundle * MessageBundle) :=
  both (encryptMessage_steps text contactPublicKey)
       (true :: false :: sched)
       (encryptMessage_steps text ownPublicKey).

End Callers.

(* ================================================================== *)
(** * Vocabulary of the properties *)
(* ================================================================== *)

Section Vocabulary.
Context {P : Platform}.

(** A buffer of [n] bytes is one that [arrayToBase64] can spread into
    the arguments of one call. *)
Definition fits (n : nat) : Prop := N.of_nat n <= max_arguments.

(** The key a base64 text imports to, when it does. *)
Definition public_key_of (text : jsstring) : option rsa_public :=
  match unb64 text with
  | Some raw => spki_import raw
  | None => None
  end.

Definition private_key_of (text : jsstring) : option rsa_private :=
  match unb64 text with
  | Some raw => pkcs8_import raw
  | None => None
  end.

(** A public and a private key, as base64 texts, that belong together. *)
Definition valid_keypair (pub priv : jsstring) : Prop :=
  exists pk sk,
    public_key_of pub = Some pk /\ private_key_of priv = Some sk
    /\ rsa_pair pk sk.

(** The symmetric key a bundle wraps, as the holder of [priv] recovers
    it. *)
Definition wrapped_key (priv : jsstring) (b : MessageBundle) : option bytes :=
  match private_key_of priv, unb64 (encKey b) with
  | Some sk, Some e => rsa_oaep_decrypt sk e
  | _, _ => None
  end.

(** The keys the two call sites derive. *)
Definition vault_key (passphrase : jsstring) (salt : bytes) : bytes :=
  pbkdf2 (Utf8.encode passphrase) salt 100000 32.

Definition backup_key (password : jsstring) (salt : bytes) : bytes :=
  pbkdf2 (Utf8.encode password) salt 150000 32.

(** The world after the three calls a backup decode makes once it has
    read the fields of the envelope. *)
Definition decode_trace (w : world) : world :=
  logged (EvDecrypt AES_GCM)
    (logged (EvDeriveKey 150000) (logged (EvImportKey PBKDF2) w)).

(** The envelope [encryptBackup] builds in world [w], before it is
    printed, with the version field left open. *)
Definition envelope_of (data : json number) (pw : jsstring) (w : world)
  (version : jsstring) : json number :=
  let salt := read_tape (tape w) (cursor w) 16 in
  let iv := read_tape (tape w) (cursor w + 16) 12 in
  object_literal
    [(str "magic", Some (JStr BACKUP_MAGIC));
     (str "version", Some (JStr version));
     (str "createdAt", Some (JStr (now w)));
     (str "salt", Some (JStr (b64 salt)));
     (str "iv", Some (JStr (b64 iv)));
     (str "ciphertext",
      Some (JStr (b64 (aes_gcm_seal (backup_key pw salt) iv
                         (Utf8.encode (JSON_stringify 0 data))))));
     (str "stats", field data (str "stats"));
     (str "owner",
      match field data (str "owner") with
      | Some o => field o (str "username")
      | None => None
      end)].

(** A payload [encryptBackup] can read its summary from: it is not
    [null] and has an [owner] that is not [null]. *)
Definition has_owner (data : json number) : Prop :=
  data <> JNull /\ exists o, field data (str "owner") = Some o /\ o <> JNull.

(** The two errors that say the file is not a backup. *)
Definition invalid_format (e : js_error) : Prop :=
  e = Error msg_invalid_json \/ e = Error msg_not_a_backup.

End Vocabulary.

(** ** Calls in flight together *)

(** [paced t ds Q cs s]: on the tape [t], every stretch of [s] but
    the last returns, the last returns or throws, each leaves the tape
    as it is and moves the cursor by the next entry of [ds]; and [Q]
    holds of the outcome and of the cursor values at which the stretches
    began, [cs] being those of the stretches already run. *)
Fixpoint paced {A} (t : nat -> byte) (ds : list nat)
  (Q : list nat -> outcome A -> Prop) (cs : list nat) (s : steps A) : Prop :=
  match s, ds with
  | Last m, [d] =>
      forall w, tape w = t ->
      exists r w',
        m w = (r, w') /\ tape w' = t /\ cursor w' = (cursor w + d)%nat
        /\ Q (cs ++ [cursor w]) r
  | Await m k, d :: ds' =>
      forall w, tape w = t ->
      exists x w',
        m w = (Ok x, w') /\ tape w' = t /\ cursor w' = (cursor w + d)%nat
        /\ paced t ds' Q (cs ++ [cursor w]) (k x)
  | _, _ => False
  end.

(** Where the stretches of a call run by itself begin, when they move
    the cursor by [ds]. *)
Fixpoint alone (ds : list nat) (c : nat) : list nat :=
  match ds with
  | [] => []
  | d :: ds' => c :: alone ds' (c + d)%nat
  end.

(** Where the stretches of two calls in flight begin: the walk of
    [both], on the moves of the cursor alone. *)
Fixpoint starts (da : list nat)
  : list bool -> list nat -> nat -> list nat * list nat :=
  fix starts_a (sched : list bool) (db : list nat) (c : nat) {struct db}
    : list nat * list nat :=
    let first := match sched with false :: _ => false | _ => true end in
    if first then
      match da with
      | [] => ([], alone db c)
      | d :: da' =>
          let (sa, sb) := starts da' (tl sched) db (c + d)%nat in
          (c :: sa, sb)
      end
    else
      match db with
      | [] => (alone da c, [])
      | d :: db' =>
          let (sa, sb) := starts_a (tl sched) db' (c + d)%nat in
          (sa, c :: sb)
      end.

(** [apart da db c sa sb]: stretches that begin at [sa] and [sb] and
    move the cursor by [da] and [db] lie between [c] and where the
    cursor ends, one for each move, and no stretch of the one call
    overlaps a stretch of the other. *)
Definition apart (da db : list nat) (c : nat) (sa sb : list nat) : Prop :=
  length sa = length da /\ length sb = length db
  /\ (forall i s d,
        nth_error sa i = Some s -> nth_error da i = Some d ->
        (c <= s /\ s + d <= c + list_sum da + list_sum db)%nat)
  /\ (forall j s d,
        nth_error sb j = Some s -> nth_error db j = Some d ->
        (c <= s /\ s + d <= c + list_sum da + list_sum db)%nat)
  /\ (forall i j s1 d1 s2 d2,
        nth_error sa i = Some s1 -> nth_error da i = Some d1 ->
        nth_error sb j = Some s2 -> nth_error db j = Some d2 ->
        (s1 + d1 <= s2 \/ s2 + d2 <= s1)%nat).

(** What [Promise.all] settles with, given how the two calls settled:
    both results, or a rejection of one of them. *)
Definition settles {A B} (ra : outcome A) (rb : outcome B)
  (r : outcome (A * B)) : Prop :=
  match ra, rb with
  | Ok x, Ok y => r = Ok (x, y)
  | Throw e, Ok _ => r = Throw e
  | Ok _, Throw e => r = Throw e
  | Throw e1, Throw e2 => r = Throw e1 \/ r = Throw e2
  end.

(** The bytes of entropy the six stretches of [encryptMessage] draw:
    the key in the second, the nonce in the fourth, the OAEP seed in the
    fifth. *)
Definition encryptMessage_draws : list nat := [0; 32; 0; 12; 32; 0]%nat.

(** The schedule on which the operations of the two calls settle in the
    order they were started. *)
Definition in_turn : list bool :=
  [true; false; true; false; true; false; true; false; true; false].


Section SealedBundle.
Context {P : Platform}.

(** What [encryptMessage] settles with for a key [pk], on the tape [t],
    when its stretches began at the cursor values [cs]: the bundle of
    the key, nonce and seed read there, or a [RangeError] when the
    ciphertext does not fit. *)
Definition sealed_bundle (t : nat -> byte) (text : jsstring)
  (pk : rsa_public) (cs : list nat) (r : outcome MessageBundle) : Prop :=
  let key := read_tape t (nth 1 cs 0%nat) 32 in
  let nonce := read_tape t (nth 3 cs 0%nat) 12 in
  let seed := read_tape t (nth 4 cs 0%nat) 32 in
  exists c,
    rsa_oaep_encrypt pk seed key = Some c /\ length c = 256%nat
    /\ (fits (length (Utf8.encode text) + 16) ->
        r = Ok {| ciphertext := b64 (aes_gcm_seal key nonce (Utf8.encode text));
                  encKey := b64 c; iv := b64 nonce |})
    /\ (~ fits (length (Utf8.encode text) + 16) -> r = Throw RangeError).

End SealedBundle.

(** [s] with bit [bit] of its [i]-th code unit flipped. *)
Fixpoint flip_unit (s : jsstring) (i : nat) (bit : N) : jsstring :=
  match s, i with
  | [], _ => []
  | u :: rest, O => N.lxor u (2 ^ bit) :: rest
  | u :: rest, S i' => u :: flip_unit rest i' bit
  end.

(** [bs] with bit [bit] of its [i]-th byte flipped. *)
Fixpoint flip_byte (bs : bytes) (i : nat) (bit : N) : bytes :=
  match bs, i with
  | [], _ => []
  | b :: rest, O => byte_of_N (N.lxor (Byte.to_N b) (2 ^ bit)) :: rest
  | b :: rest, S i' => b :: flip_byte rest i' bit
  end.

(** A character the dot of a regular expression matches. *)
Definition plain_char (c : N) : Prop := is_line_terminator c = false.

(** What a fingerprint is made of: a space, a digit, or a letter A to F. *)
Definition fingerprint_char (c : N) : Prop :=
  c = 32 \/ (48 <= c <= 57) \/ (65 <= c <= 70).

(** The fingerprint as the specification words it: the digest in
    uppercase hexadecimal, in blocks of four separated by one space. *)
Definition upper_hex_digit (d : N) : N :=
  if d <? 10 then 48 + d else 65 + (d - 10).

Definition hex_upper (hash : bytes) : jsstring :=
  flat_map (fun b => [upper_hex_digit (Byte.to_N b / 16);
                      upper_hex_digit (Byte.to_N b mod 16)]) hash.

Fixpoint blocks4 (s : jsstring) : list jsstring :=
  match s with
  | a :: b :: c :: d :: rest => [a; b; c; d] :: blocks4 rest
  | _ => []
  end.

Definition fingerprint_spec (hash : bytes) : jsstring :=
  join (str " ") (blocks4 (hex_upper hash)).

(* ================================================================== *)
(** * What the standards guarantee of the platform *)
(* ================================================================== *)

Section Canonical.
Context {P : Platform}.

Definition valid_units (s : jsstring) : bool :=
  forallb (fun u => u <? 0x10000) s.

Definition is_digit (c : N) : bool := (48 <=? c) && (c <=? 57).

(** A property name that an object enumerates as an integer index, ahead
    of the others: ["0"], or digits not starting with a zero. *)
Definition is_array_index (k : jsstring) : bool :=
  match k with
  | [] => false
  | [c] => is_digit c
  | c :: rest => is_digit c && negb (c =? 48) && forallb is_digit rest
  end.

Fixpoint distinct (ks : list jsstring) : bool :=
  match ks with
  | [] => true
  | k :: rest => negb (existsb (jsstring_eqb k) rest) && distinct rest
  end.

(** The trees that are JavaScript values as [JSON.parse] builds them:
    16-bit code units, numbers the serialisation keeps, property names
    distinct and enumerated in the order written. *)
Fixpoint canonical (v : json number) : bool :=
  match v with
  | JNull => true
  | JBool _ => true
  | JNum n => number_round_trips n
  | JStr s => valid_units s
  | JArr items => forallb canonical items
  | JObj fields =>
      forallb (fun kv => valid_units (fst kv) && negb (is_array_index (fst kv))
                         && canonical (snd kv)) fields
      && distinct (map fst fields)
  end.

End Canonical.

(** The laws.  Each is a consequence of the algorithm's own standard:
    SHA-256 has a 32-byte digest; AES-GCM gives the plaintext's length
    and a 16-byte tag, opens what it sealed under the
    same key and nonce, and refuses it under another 96-bit nonce or with
    another tag (the tag is the GHASH of the ciphertext masked with the
    block cipher's image of the nonce block, and the block cipher is a
    permutation); RSA-OAEP with a 2048-bit modulus and SHA-256 takes
    up to 190 bytes, gives 256 and decrypts what it encrypted; exported
    keys import back, and the DER of a generated 2048-bit key, public
    (294 bytes) or private (some 1220), stays below 2048 bytes;
    [JSON.parse] reads
    back what [JSON.stringify] wrote,
    and that text is well-formed and starts with no byte order mark.
    The one law that is an engine's and no standard's is the least
    number of arguments a call takes: the engines in use take 65536
    and more, and 4096 is all that is asked. *)
Record PlatformLaws (P : Platform) : Prop := {
  max_arguments_least : 4096 <= max_arguments;
  sha256_length : forall m, length (sha256 m) = 32%nat;
  aes_gcm_seal_length : forall k iv m,
    length (aes_gcm_seal k iv m) = (length m + 16)%nat;
  aes_gcm_round_trip : forall k iv m,
    length k = 32%nat -> length iv = 12%nat ->
    aes_gcm_open k iv (aes_gcm_seal k iv m) = Some m;
  aes_gcm_nonce_bound : forall k iv iv' m,
    length k = 32%nat -> length iv = 12%nat -> length iv' = 12%nat ->
    iv' <> iv -> aes_gcm_open k iv' (aes_gcm_seal k iv m) = None;
  aes_gcm_tag_bound : forall k iv m body t t',
    length k = 32%nat -> length iv = 12%nat ->
    aes_gcm_seal k iv m = body ++ t -> length t = 16%nat ->
    length t' = 16%nat -> t' <> t -> aes_gcm_open k iv (body ++ t') = None;
  rsa_oaep_round_trip : forall pk sk seed m,
    rsa_pair pk sk -> length seed = 32%nat -> (length m <= 190)%nat ->
    exists c, rsa_oaep_encrypt pk seed m = Some c
              /\ length c = 256%nat
              /\ rsa_oaep_decrypt sk c = Some m;
  rsa_generate_pair : forall t c,
    rsa_pair (fst (fst (rsa_generate t c))) (snd (fst (rsa_generate t c)));
  rsa_generate_length : forall t c,
    (length (spki_export (fst (fst (rsa_generate t c)))) <= 2048)%nat
    /\ (length (pkcs8_export (snd (fst (rsa_generate t c)))) <= 2048)%nat;
  spki_round_trip : forall pk, spki_import (spki_export pk) = Some pk;
  pkcs8_round_trip : forall sk, pkcs8_import (pkcs8_export sk) = Some sk;
  JSON_round_trip : forall indent v,
    canonical v = true -> JSON_parse (JSON_stringify indent v) = Some v;
  JSON_stringify_text : forall indent v,
    canonical v = true -> Utf8.clean_text (JSON_stringify indent v) = true
}.

Arguments aes_gcm_nonce_bound [P] _ k iv iv' m _ _ _ _.
Arguments aes_gcm_tag_bound [P] _ k iv m body t t' _ _ _ _ _ _.

(* ================================================================== *)
(** * A reference platform *)
(* ================================================================== *)

(** A small executable platform that satisfies the laws, so that the
    theorems below can be run on concrete inputs.  It makes no claim of
    secrecy: the "cipher" appends the nonce and a checksum, the "key
    pair" is one string twice, and values are written in a unary
    notation. *)
Module Ref.

Fixpoint bytes_eqb (a b : bytes) : bool :=
  match a, b with
  | [], [] => true
  | x :: a', y :: b' => Byte.eqb x y && bytes_eqb a' b'
  | _, _ => false
  end.

Definition hash (m : bytes) : bytes :=
  map (fun i => byte_of_N
                  (fold_left (fun acc b => (acc * 31 + Byte.to_N b + 7) mod 256)
                             m (N.of_nat i)))
      (seq 0 32).

Definition tag (k iv m : bytes) : bytes :=
  firstn 12 (iv ++ repeat x00 12) ++ firstn 4 (hash (k ++ iv ++ m)).

Definition seal (k iv m : bytes) : bytes := m ++ tag k iv m.

Definition open (k iv c : bytes) : option bytes :=
  let m := firstn (length c - 16) c in
  if bytes_eqb c (seal k iv m) then Some m else None.

Definition padding (k : bytes) (n : nat) : bytes :=
  firstn n (k ++ repeat x00 n).

Definition frame (k m : bytes) : bytes :=
  byte_of_N (N.of_nat (length m)) :: m ++ padding k (255 - length m).

Definition rsa_encrypt (pk seed m : bytes) : option bytes :=
  if Nat.leb (length m) 190 then Some (frame pk m) else None.

Definition rsa_decrypt (sk c : bytes) : option bytes :=
  match c with
  | [] => None
  | l :: body =>
      let m := firstn (N.to_nat (Byte.to_N l)) body in
      if Nat.leb (length m) 190 && bytes_eqb c (frame sk m)
      then Some m else None
  end.

Definition generate (t : nat -> byte) (c : nat) : (bytes * bytes) * nat :=
  ((read_tape t c 4, read_tape t c 4), (c + 4)%nat).

(** Unary notation: [n] strokes and a stop. *)
Definition ser_nat (n : nat) : jsstring := repeat 49 n ++ [48].

Definition ser_str (s : jsstring) : jsstring :=
  ser_nat (length s) ++ flat_map (fun u => ser_nat (N.to_nat u)) s.

Fixpoint ser (v : json Z) : jsstring :=
  match v with
  | JNull => [110]
  | JBool b => [if b then 116 else 102]
  | JNum z => 105 :: (if (z <? 0)%Z then 45 else 43) :: ser_nat (Z.abs_nat z)
  | JStr s => 115 :: ser_str s
  | JArr items => 97 :: ser_nat (length items) ++ flat_map ser items
  | JObj fields =>
      111 :: ser_nat (length fields)
      ++ flat_map (fun kv => ser_str (fst kv) ++ ser (snd kv)) fields
  end.

Definition ascii_text (s : jsstring) : Prop := Forall (fun c => c < 128) s.

Definition parser (A : Type) : Type := jsstring -> option (A * jsstring).

Fixpoint parse_nat (s : jsstring) : option (nat * jsstring) :=
  match s with
  | [] => None
  | c :: rest =>
      if c =? 48 then Some (O, rest)
      else if c =? 49 then
        match parse_nat rest with
        | Some (n, rest') => Some (S n, rest')
        | None => None
        end
      else None
  end.

Fixpoint times {A} (p : parser A) (n : nat) : parser (list A) :=
  fun s =>
    match n with
    | O => Some ([], s)
    | S n' =>
        match p s with
        | Some (a, s') =>
            match times p n' s' with
            | Some (l, s'') => Some (a :: l, s'')
            | None => None
            end
        | None => None
        end
    end.

Definition parse_unit : parser N :=
  fun s => match parse_nat s with
           | Some (n, rest) => Some (N.of_nat n, rest)
           | None => None
           end.

Definition parse_str : parser jsstring :=
  fun s => match parse_nat s with
           | Some (n, rest) => times parse_unit n rest
           | None => None
           end.

Definition parse_field (p : parser (json Z)) : parser (jsstring * json Z) :=
  fun s => match parse_str s with
           | Some (k, rest) =>
               match p rest with
               | Some (v, rest') => Some ((k, v), rest')
               | None => None
               end
           | None => None
           end.

Fixpoint parse (fuel : nat) : parser (json Z) :=
  fun s =>
    match fuel, s with
    | S fuel', c :: rest =>
        if c =? 110 then Some (JNull, rest)
        else if c =? 116 then Some (JBool true, rest)
        else if c =? 102 then Some (JBool false, rest)
        else if c =? 105 then
          match rest with
          | sign :: rest' =>
              match parse_nat rest' with
              | Some (n, rest'') =>
                  if sign =? 43 then Some (JNum (Z.of_nat n), rest'')
                  else if (sign =? 45) && negb (Nat.eqb n 0)
                  then Some (JNum (- Z.of_nat n)%Z, rest'')
                  else None
              | None => None
              end
          | [] => None
          end
        else if c =? 115 then
          match parse_str rest with
          | Some (str, rest') => Some (JStr str, rest')
          | None => None
          end
        else if c =? 97 then
          match parse_nat rest with
          | Some (n, rest') =>
              match times (parse fuel') n rest' with
              | Some (items, rest'') => Some (JArr items, rest'')
              | None => None
              end
          | None => None
          end
        else if c =? 111 then
          match parse_nat rest with
          | Some (n, rest') =>
              match times (parse_field (parse fuel')) n rest' with
              | Some (fields, rest'') => Some (JObj fields, rest'')
              | None => None
              end
          | None => None
          end
        else None
    | _, _ => None
    end.

Definition parse_all (s : jsstring) : option (json Z) :=
  match parse (length s) s with
  | Some (v, []) => Some v
  | _ => None
  end.

#[export] Instance platform : Platform := {|
  max_arguments := 65536;
  number := Z;
  number_to_string := fun z => ser (JNum z);
  number_round_trips := fun _ => true;
  JSON_parse := parse_all;
  JSON_stringify := fun _ v => ser v;
  sha256 := hash;
  aes_gcm_seal := seal;
  aes_gcm_open := open;
  rsa_public := bytes;
  rsa_private := bytes;
  rsa_pair := fun pk sk => pk = sk;
  rsa_generate := generate;
  spki_export := fun k => k;
  pkcs8_export := fun k => k;
  spki_import := fun d => Some d;
  pkcs8_import := fun d => Some d;
  rsa_oaep_encrypt := rsa_encrypt;
  rsa_oaep_decrypt := rsa_decrypt
|}.

(** A tape and a world to run in. *)
Definition tape0 (i : nat) : byte := byte_of_N (N.of_nat (i * 37 + 11)).

Definition world0 : world :=
  World tape0 0 (str "2024-01-01T00:00:00.000Z") [].

(** Two key pairs (here the public and the private text coincide). *)
Definition alice_key : jsstring := b64 [x61; x6c; x69; x63].
Definition bob_key : jsstring := b64 [x62; x6f; x62; x21].

(** A backup payload with three messages and one contact. *)
Definition payload0 : json Z :=
  JObj [(str "version", JStr (str "1.0"));
        (str "createdAt", JStr (str "2024-01-01T00:00:00.000Z"));
        (str "owner", JObj [(str "username", JStr (str "alice"));
                            (str "publicKey", JStr alice_key)]);
        (str "contacts", JArr [JObj [(str "username", JStr (str "bob"))]]);
        (str "messages", JArr [JStr (str "m1"); JStr (str "m2");
                               JStr (str "m3")]);
        (str "stats", JObj [(str "totalMessages", JNum 3%Z);
                            (str "totalContacts", JNum 1%Z)])].

End Ref.

(* ================================================================== *)
(** * The other helpers of backup.js and crypto.js *)
(* ================================================================== *)

(** [getByteSize(str)] *)
Definition getByteSize (s : jsstring) : N :=
  N.of_nat (length (Utf8.encode s)).

(** The decimal digits of a whole number, as [String(n)] writes it. *)
Definition decimal (n : N) : jsstring :=
  str (NilZero.string_of_uint (N.to_uint n)).

(** [(bytes / d).toFixed(1)] for a whole number [bytes] below 2^53 and
    [d] a power of two.  The quotient is exact in floating point;
    [toFixed] takes the whole number [n] of tenths nearest to it, the
    larger of two that are equally near, and writes [n] with a point
    before its last digit. *)
Definition toFixed1 (bytes d : N) : jsstring :=
  let n := (20 * bytes + d) / (2 * d) in
  decimal (n / 10) ++ str "." ++ decimal (n mod 10).

(** [formatBytes(bytes)] for a byte count, a whole number below 2^53. *)
Definition formatBytes (bytes : N) : jsstring :=
  if bytes <? 1024 then decimal bytes ++ str " B"
  else if bytes <? 1024 * 1024 then toFixed1 bytes 1024 ++ str " KB"
  else toFixed1 bytes (1024 * 1024) ++ str " MB".

Definition PEM_BEGIN : jsstring := str "-----BEGIN PUBLIC KEY-----".
Definition PEM_END : jsstring := str "-----END PUBLIC KEY-----".

(** [s.match(/.{1,64}/g)]: the successive longest runs of one to 64
    characters that are not line terminators; [cur] is the run being
    read.  No run at all is [null]. *)
Fixpoint match_dot_1_64_from (cur s : jsstring) : list jsstring :=
  match s with
  | [] => match cur with [] => [] | _ => [cur] end
  | c :: rest =>
      if is_line_terminator c then
        match cur with
        | [] => match_dot_1_64_from [] rest
        | _ => cur :: match_dot_1_64_from [] rest
        end
      else if (length cur =? 64)%nat then cur :: match_dot_1_64_from [c] rest
      else match_dot_1_64_from (cur ++ [c]) rest
  end.

Definition match_dot_1_64 (s : jsstring) : list jsstring :=
  match_dot_1_64_from [] s.

(** [toPEM(b64)]; [null?.join] is [undefined], which the template
    writes out. *)
Definition toPEM (b64 : jsstring) : jsstring :=
  let body :=
    match match_dot_1_64 b64 with
    | [] => str "undefined"
    | lines => join [10] lines
    end in
  PEM_BEGIN ++ [10] ++ body ++ [10] ++ PEM_END.

Fixpoint starts_with (p s : jsstring) : bool :=
  match p, s with
  | [], _ => true
  | x :: p', y :: s' => (x =? y) && starts_with p' s'
  | _ :: _, [] => false
  end.

(** [s.replace(/BEGIN|END|\n|\r/g, '')] for the two marker lines: at
    each position the alternatives are tried in order, a match is left
    out and the search goes on after it; [skip] counts the characters
    of a match still to be passed. *)
Fixpoint remove_markers (skip : nat) (s : jsstring) : jsstring :=
  match s with
  | [] => []
  | c :: rest =>
      match skip with
      | S k => remove_markers k rest
      | O =>
          if starts_with PEM_BEGIN s
          then remove_markers (length PEM_BEGIN - 1) rest
          else if starts_with PEM_END s
          then remove_markers (length PEM_END - 1) rest
          else if (c =? 10) || (c =? 13) then remove_markers 0 rest
          else c :: remove_markers 0 rest
      end
  end.

(** [fromPEM(pem)] *)
Definition fromPEM (pem : jsstring) : jsstring := remove_markers 0 pem.

(** [String.prototype.trim], for the handlers below: [s.trim()] strips
    white space and line terminators at both ends. *)
Definition is_trim_space (c : N) : bool :=
  (c =? 9) || (c =? 10) || (c =? 11) || (c =? 12) || (c =? 13) || (c =? 32)
  || (c =? 0xA0) || (c =? 0x1680) || ((0x2000 <=? c) && (c <=? 0x200A))
  || (c =? 0x2028) || (c =? 0x2029) || (c =? 0x202F) || (c =? 0x205F)
  || (c =? 0x3000) || (c =? 0xFEFF).

Fixpoint trimStart (s : jsstring) : jsstring :=
  match s with
  | c :: rest => if is_trim_space c then trimStart rest else s
  | [] => []
  end.

Definition trim (s : jsstring) : jsstring :=
  rev (trimStart (rev (trimStart s))).

(* ================================================================== *)
(** * What the components hold *)
(* ================================================================== *)

(** A property that holds a string or is missing: [None] is
    [undefined]. *)
Definition same (a b : option jsstring) : bool :=
  match a, b with
  | Some x, Some y => jsstring_eqb x y
  | None, None => true
  | _, _ => false
  end.

(** A string that is not empty is truthy; [undefined] is not. *)
Definition truthy (a : option jsstring) : bool :=
  match a with
  | Some (_ :: _) => true
  | _ => false
  end.

(** The text a missing argument becomes where a string is expected. *)
Definition or_undefined (a : option jsstring) : jsstring :=
  match a with
  | Some s => s
  | None => str "undefined"
  end.

Definition or_null (a : option jsstring) : jsstring :=
  match a with
  | Some s => s
  | None => str "null"
  end.

(** [err.response?.data?.message || fallback] *)
Definition response_message (err : js_error) (fallback : string) : string :=
  match err with
  | AxiosError (Some m) => if String.eqb m "" then fallback else m
  | _ => fallback
  end.

(** What an error line shows.  The text of [err.message] is the
    program's own for an [Error] it made; for any other error it is the
    engine's or the HTTP client's, and is kept as the error it is the
    message of.  [Belongs owner user] is the line of doRestore,
    This backup belongs to @owner, not @user. *)
Inductive notice : Type :=
| Text (text : string)
| MessageOf (prefix : string) (err : js_error)
| Belongs (owner user : jsstring).

(** [err.message || fallback] *)
Definition message_or (err : js_error) (fallback : string) : notice :=
  match err with
  | Error m => Text (if String.eqb m "" then fallback else m)
  | _ => MessageOf "" err
  end.

(** A user as the server writes it ([toPublicJSON]) and the client keeps
    it; also a contact picked in the side bar.  Properties the code
    never reads are left out. *)
Record User : Type := {
  u_id : option jsstring;
  u_username : option jsstring;
  u_publicKey : option jsstring;
  u_isOnline : option bool
}.

(** The [sender] of a message: a populated user, a bare id, [null] or
    nothing. *)
Inductive Sender : Type :=
| SenderObject (u : User)
| SenderString (s : jsstring)
| SenderNull
| SenderUndefined.

(** [sender?._id], [sender?.username], [sender?.publicKey] *)
Definition sender_id (s : Sender) : option jsstring :=
  match s with
  | SenderObject u => u_id u
  | _ => None
  end.

Definition sender_username (s : Sender) : option jsstring :=
  match s with
  | SenderObject u => u_username u
  | _ => None
  end.

Definition sender_publicKey (s : Sender) : option jsstring :=
  match s with
  | SenderObject u => u_publicKey u
  | _ => None
  end.

(** [sender === v] for [v] a string or [undefined]. *)
Definition sender_is (s : Sender) (v : option jsstring) : bool :=
  match s, v with
  | SenderString x, Some y => jsstring_eqb x y
  | SenderUndefined, None => true
  | _, _ => false
  end.

(** A message as the server sends it: the two bundles are required by
    its schema. *)
Record Message : Type := {
  m_id : option jsstring;
  m_sender : Sender;
  encryptedForRecipient : MessageBundle;
  encryptedForSender : MessageBundle
}.

(** [{ ...msg, plaintext, decryptFailed }] *)
Record Shown : Type := {
  shown : Message;
  plaintext : jsstring;
  decryptFailed : bool
}.

(* ================================================================== *)
(** * AuthContext: register *)
(* ================================================================== *)

Record register_request : Type := {
  reg_username : jsstring;
  reg_password : jsstring;
  reg_publicKey : jsstring;
  reg_encryptedPrivateKey : PrivateKeyEnvelope
}.

Record register_result : Type := {
  reg_success : bool;
  reg_message : option string
}.

(** [register(username, password, publicKey, encryptedPrivateKey)],
    given how the server answers a request.  As for [login], the token
    and the user it stores play no part in what it returns. *)
Definition register {R} (post : register_request -> outcome R)
  (username password publicKey : jsstring)
  (encryptedPrivateKey : PrivateKeyEnvelope) : M register_result :=
  try_catch
    (_ <- lift (post {| reg_username := username;
                        reg_password := password;
                        reg_publicKey := publicKey;
                        reg_encryptedPrivateKey := encryptedPrivateKey |}) ;;
     ret {| reg_success := true; reg_message := None |})
    (fun err =>
       ret {| reg_success := false;
              reg_message :=
                Some (response_message err "Registration failed") |}).

(* ================================================================== *)
(** * AuthPage *)
(* ================================================================== *)

Module AuthPage.

Record Form : Type := {
  username : jsstring;
  password : jsstring;
  confirm : jsstring
}.

Section WithPlatform.
Context {P : Platform}.


(** [handleRegister]: the error line afterwards. *)
Definition handleRegister {R} (post : register_request -> outcome R)
  (form : Form) : M (option notice) :=
  if (length (trim (username form)) <? 3)%nat
  then ret (Some (Text "Username must be 3+ characters"))
  else if (length (password form) <? 8)%nat
  then ret (Some (Text "Passphrase must be 8+ characters"))
  else if negb (jsstring_eqb (password form) (confirm form))
  then ret (Some (Text "Passphrases do not match"))
  else
    try_catch
      (pair <- generateKeyPair ;;
       encryptedPrivateKey <-
         encryptPrivateKey (privateKey pair) (password form) ;;
       res <- register post (trim (username form)) (password form)
                       (publicKey pair) encryptedPrivateKey ;;
       ret (if reg_success res then None
            else option_map Text (reg_message res)))
      (fun err => ret (Some (MessageOf "Key generation failed: " err))).

End WithPlatform.
End AuthPage.

(* ================================================================== *)
(** * KeysModal *)
(* ================================================================== *)

Module KeysModal.

(** [user?.publicKey ? toPEM(user.publicKey) : ''] *)
Definition pem (user : option User) : jsstring :=
  match user with
  | Some u =>
      if truthy (u_publicKey u) then toPEM (or_undefined (u_publicKey u))
      else []
  | None => []
  end.

End KeysModal.

(* ================================================================== *)
(** * ChatWindow *)
(* ================================================================== *)

Module ChatWindow.

Definition UNABLE : jsstring := str "[Unable to decrypt]".

(** [msg.sender?._id === currentUser._id
     || msg.sender === currentUser._id
     || msg.sender?.username === currentUser.username] *)
Definition isSender (currentUser : User) (msg : Message) : bool :=
  same (sender_id (m_sender msg)) (u_id currentUser)
  || sender_is (m_sender msg) (u_id currentUser)
  || same (sender_username (m_sender msg)) (u_username currentUser).

(** [Promise.all(items.map(f))] for an [f] that catches what it throws,
    run in the order of the array. *)
Fixpoint all {A B} (f : A -> M B) (items : list A) : M (list B) :=
  match items with
  | [] => ret []
  | x :: rest =>
      y <- f x ;;
      ys <- all f rest ;;
      ret (y :: ys)
  end.

(** [senderUsername === contact.username] for
    [senderUsername = msg.sender?.username || msg.sender]. *)
Definition from_contact (msg : Message) (contact : User) : bool :=
  match m_sender msg with
  | SenderObject u =>
      if truthy (u_username u)
      then same (u_username u) (u_username contact)
      else false
  | SenderString s => same (Some s) (u_username contact)
  | SenderNull => false
  | SenderUndefined => same None (u_username contact)
  end.

(** [prev.find((m) => m._id === id)] finds one. *)
Definition known (id : option jsstring) (prev : list Shown) : bool :=
  existsb (fun m => same (m_id (shown m)) id) prev.

(** [(prev) => exists ? prev : [...prev, entry]] *)
Definition add_unless_known (entry : Shown) (prev : list Shown)
  : list Shown :=
  if known (m_id (shown entry)) prev then prev else prev ++ [entry].

Record State : Type := {
  messages : list Shown;
  input : jsstring;
  sending : bool
}.

(** The body of [POST /messages]. *)
Record SendRequest : Type := {
  recipientUsername : option jsstring;
  forRecipient : MessageBundle;
  forSender : MessageBundle
}.

Section WithPlatform.
Context {P : Platform}.

(** One message of [decryptAll]. *)
Definition decryptOne (currentUser : User) (privateKey : option jsstring)
  (msg : Message) : M Shown :=
  try_catch
    (let pkg := if isSender currentUser msg
                then encryptedForSender msg
                else encryptedForRecipient msg in
     text <- decryptMessage pkg (or_null privateKey) ;;
     ret {| shown := msg; plaintext := text; decryptFailed := false |})
    (fun _ =>
       ret {| shown := msg; plaintext := UNABLE; decryptFailed := true |}).

Definition decryptAll (currentUser : User) (privateKey : option jsstring)
  (rawMsgs : list Message) : M (list Shown) :=
  all (decryptOne currentUser privateKey) rawMsgs.

(** The effect on [incomingMessage]: the list of messages afterwards.
    The read receipt it sends without waiting is left out. *)
Definition handleIncoming (contact : option User)
  (privateKey : option jsstring) (incomingMessage : option Message)
  (prev : list Shown) : M (list Shown) :=
  match incomingMessage, contact with
  | Some msg, Some c =>
      if from_contact msg c then
        try_catch
          (text <- decryptMessage (encryptedForRecipient msg)
                                  (or_null privateKey) ;;
           ret (add_unless_known
                  {| shown := msg; plaintext := text;
                     decryptFailed := false |} prev))
          (fun _ =>
             ret (add_unless_known
                    {| shown := msg; plaintext := UNABLE;
                       decryptFailed := true |} prev))
      else ret prev
  | _, _ => ret prev
  end.

(** [sendMessage], whole: the state afterwards and what [alert] showed.
    The two encryptions are [sendMessage] above, with the schedule of
    their operations; the typing notice to the socket is left out. *)
Definition sendMessage (sched : list bool)
  (post : SendRequest -> outcome Message)
  (contact : option User) (currentUser : User) (st : State)
  : M (State * option string) :=
  let text := trim (input st) in
  match text, sending st, contact with
  | _ :: _, false, Some c =>
      try_catch
        (pair <- sendMessage sched text (or_undefined (u_publicKey c))
                             (or_undefined (u_publicKey currentUser)) ;;
         data <- lift (post {| recipientUsername := u_username c;
                               forRecipient := fst pair;
                               forSender := snd pair |}) ;;
         ret ({| messages :=
                   messages st
                   ++ [{| shown := data; plaintext := text;
                          decryptFailed := false |}];
                 input := [];
                 sending := false |}, None))
        (fun err =>
           ret ({| messages := messages st; input := input st;
                   sending := false |},
                Some (response_message err "Failed to send message")))
  | _, _, _ => ret (st, None)
  end.

End WithPlatform.
End ChatWindow.

(* ================================================================== *)
(** * Sidebar *)
(* ================================================================== *)

Module Sidebar.

(** A row of the conversation list. *)
Record Conversation : Type := {
  c_id : option jsstring;
  c_username : option jsstring;
  c_publicKey : option jsstring;
  c_isOnline : option bool;
  c_lastMessageAt : option jsstring;
  c_preview : jsstring;
  c_unreadCount : N
}.

(** A conversation as [GET /messages] lists it. *)
Record ServerConversation : Type := {
  sc_contact : option User;
  sc_lastMessageCreatedAt : option jsstring;
  sc_unreadCount : option N
}.

(** The padlock, U+1F512, and the two previews. *)
Definition PADLOCK : jsstring := [0xD83D; 0xDD12].
Definition PREVIEW_NEW : jsstring := PADLOCK ++ str " New encrypted message".
Definition PREVIEW : jsstring := PADLOCK ++ str " Encrypted message".

Definition with_unreadCount (n : N) (c : Conversation) : Conversation :=
  {| c_id := c_id c; c_username := c_username c;
     c_publicKey := c_publicKey c; c_isOnline := c_isOnline c;
     c_lastMessageAt := c_lastMessageAt c; c_preview := c_preview c;
     c_unreadCount := n |}.

Definition with_isOnline (b : bool) (c : Conversation) : Conversation :=
  {| c_id := c_id c; c_username := c_username c;
     c_publicKey := c_publicKey c; c_isOnline := Some b;
     c_lastMessageAt := c_lastMessageAt c; c_preview := c_preview c;
     c_unreadCount := c_unreadCount c |}.

(** The contact a row stands for, as [onSelectContact] hands it on. *)
Definition contact_of (c : Conversation) : User :=
  {| u_id := c_id c; u_username := c_username c;
     u_publicKey := c_publicKey c; u_isOnline := c_isOnline c |}.

(** [l.findIndex(f)]; [None] is -1. *)
Fixpoint findIndex {A} (f : A -> bool) (l : list A) : option nat :=
  match l with
  | [] => None
  | x :: rest =>
      if f x then Some 0%nat else option_map S (findIndex f rest)
  end.

(** [l.splice(i, 1)] on a copy of [l]. *)
Fixpoint splice1 {A} (i : nat) (l : list A) : list A :=
  match l, i with
  | [], _ => []
  | _ :: rest, O => rest
  | x :: rest, S j => x :: splice1 j rest
  end.

(** [activeContact?.username] *)
Definition active_username (activeContact : option User)
  : option jsstring :=
  match activeContact with
  | Some a => u_username a
  | None => None
  end.

(** The effect on [incomingMessage]; [now] is what the clock reads. *)
Definition onIncomingMessage (now : jsstring) (activeContact : option User)
  (incomingMessage : option Message) (prev : list Conversation)
  : list Conversation :=
  match incomingMessage with
  | None => prev
  | Some msg =>
      let senderUsername := sender_username (m_sender msg) in
      let senderPublicKey :=
        if truthy (sender_publicKey (m_sender msg))
        then or_undefined (sender_publicKey (m_sender msg)) else [] in
      let senderId := sender_id (m_sender msg) in
      if negb (truthy senderUsername) then prev
      else
        let isCurrentlyOpen :=
          same (active_username activeContact) senderUsername in
        let existingIndex :=
          findIndex (fun c => same (c_username c) senderUsername) prev in
        let updatedConv :=
          {| c_id := if truthy senderId then senderId else senderUsername;
             c_username := senderUsername;
             c_publicKey := Some senderPublicKey;
             c_isOnline := Some true;
             c_lastMessageAt := Some now;
             c_preview := PREVIEW_NEW;
             c_unreadCount :=
               if isCurrentlyOpen then 0
               else match existingIndex with
                    | Some i =>
                        match nth_error prev i with
                        | Some c => c_unreadCount c
                        | None => 0
                        end + 1
                    | None => 1
                    end |} in
        match existingIndex with
        | Some i => updatedConv :: splice1 i prev
        | None => updatedConv :: prev
        end
  end.

(** The effect on [activeContact]: its unread count is cleared. *)
Definition onActiveContact (activeContact : option User)
  (prev : list Conversation) : list Conversation :=
  if truthy (active_username activeContact)
  then map (fun c => if same (c_username c) (active_username activeContact)
                     then with_unreadCount 0 c else c) prev
  else prev.

Definition handleOnline (username : option jsstring)
  (prev : list Conversation) : list Conversation :=
  map (fun c => if same (c_username c) username
                then with_isOnline true c else c) prev.

Definition handleOffline (username : option jsstring)
  (prev : list Conversation) : list Conversation :=
  map (fun c => if same (c_username c) username
                then with_isOnline false c else c) prev.

(** The row made of a conversation of the server. *)
Definition mapConversation (conv : ServerConversation) : Conversation :=
  {| c_id := match sc_contact conv with Some u => u_id u | None => None end;
     c_username :=
       match sc_contact conv with Some u => u_username u | None => None end;
     c_publicKey :=
       match sc_contact conv with Some u => u_publicKey u | None => None end;
     c_isOnline :=
       match sc_contact conv with
       | Some u => match u_isOnline u with
                   | Some b => Some b
                   | None => Some false
                   end
       | None => Some false
       end;
     c_lastMessageAt := sc_lastMessageCreatedAt conv;
     c_preview := PREVIEW;
     c_unreadCount :=
       match sc_unreadCount conv with Some n => n | None => 0 end |}.

(** [if (!merged.find((m) => m.username === p.username))
       merged.unshift(p)] *)
Definition unshift_missing (merged : list Conversation) (p : Conversation)
  : list Conversation :=
  if existsb (fun m => same (c_username m) (c_username p)) merged
  then merged else p :: merged.

(** [fetchConversations]: the list afterwards, given what the server
    answered. *)
Definition fetchConversations (get : outcome (list ServerConversation))
  (prev : list Conversation) : list Conversation :=
  match get with
  | Ok data => fold_left unshift_missing prev (map mapConversation data)
  | Throw _ => prev
  end.

(** [startChat(user)]: the list afterwards and the contact selected. *)
Definition startChat (user : User) (prev : list Conversation)
  : list Conversation * User :=
  let contact :=
    {| u_id := u_id user; u_username := u_username user;
       u_publicKey := u_publicKey user; u_isOnline := u_isOnline user |} in
  (if existsb (fun c => same (c_username c) (u_username user)) prev
   then prev
   else {| c_id := u_id contact; c_username := u_username contact;
           c_publicKey := u_publicKey contact;
           c_isOnline := u_isOnline contact;
           c_lastMessageAt := None; c_preview := [];
           c_unreadCount := 0 |} :: prev,
   contact).

(** [handleSelectContact(conv)]: the list afterwards and the contact
    selected. *)
Definition handleSelectContact (conv : Conversation)
  (prev : list Conversation) : list Conversation * User :=
  (map (fun c => if same (c_username c) (c_username conv)
                 then with_unreadCount 0 c else c) prev,
   contact_of conv).

(** [conversations.reduce((sum, c) => sum + (c.unreadCount || 0), 0)] *)
Definition totalUnread (conversations : list Conversation) : N :=
  fold_left (fun sum c => sum + c_unreadCount c) conversations 0.

End Sidebar.

(* ================================================================== *)
(** * BackupModal *)
(* ================================================================== *)

Module BackupModal.

Inductive backup_type : Type := local | google_drive.

Inductive restore_method : Type := file | drive.

Section WithPlatform.
Context {P : Platform}.

(** What [POST /backup/generate] answers with. *)
Record GenerateResponse : Type := {
  backupData : json number;
  stats : option (json number)
}.

(** The body of [POST /backup/record]. *)
Record RecordRequest : Type := {
  rec_type : backup_type;
  rec_driveFileId : option jsstring;
  rec_messageCount : option (json number);
  rec_contactCount : option (json number);
  rec_sizeBytes : N
}.

(** The server and Google Drive, as the two tabs meet them: what each
    call gives or fails with. *)
Record Env : Type := {
  generate : outcome GenerateResponse;
  record : RecordRequest -> outcome unit;
  isAuthenticated : bool;
  authenticateGoogle : outcome unit;
  uploadToDrive : jsstring -> option jsstring -> outcome (option jsstring);
  downloadFromDrive : jsstring -> outcome jsstring;
  restore : json number -> outcome (json number)
}.

(** [err.message] *)
Definition message_of (err : js_error) : notice :=
  match err with
  | Error m => Text m
  | _ => MessageOf "" err
  end.

(** [a === b] for a value read from the backup and a string or
    [undefined]. *)
Definition strict_eq_string (v : option (json number))
  (s : option jsstring) : bool :=
  match v, s with
  | Some (JStr a), Some b => jsstring_eqb a b
  | None, None => true
  | _, _ => false
  end.

(** After [doBackup]: the error line, the file handed to the browser
    for download, and the two password fields. *)
Record BackupResult : Type := {
  b_error : option notice;
  b_saved : option jsstring;
  b_password : jsstring;
  b_confirm : jsstring
}.

(** [doBackup(type)].  The status line, the name of the file and the
    refresh of the history are left out.  The one [try]/[catch] of the
    source is written around each part, so that a download made before
    a failure stays made. *)
Definition doBackup (env : Env) (user : User) (type : backup_type)
  (password confirm : jsstring) : M BackupResult :=
  let failed (saved : option jsstring) (n : notice) :=
    ret {| b_error := Some n; b_saved := saved;
           b_password := password; b_confirm := confirm |} in
  let done (saved : option jsstring) :=
    ret {| b_error := None; b_saved := saved;
           b_password := []; b_confirm := [] |} in
  match password with
  | [] => failed None (Text "Enter a backup password")
  | _ =>
      if (length password <? 6)%nat
      then failed None (Text "Password must be 6+ characters")
      else if negb (jsstring_eqb password confirm)
      then failed None (Text "Passwords do not match")
      else
        try_catch
          (data <- lift (generate env) ;;
           encryptedContent <- encryptBackup (backupData data) password ;;
           let sizeBytes := getByteSize encryptedContent in
           match type with
           | local =>
               (* the browser is handed the file here *)
               try_catch
                 (messageCount <-
                    get_prop (stats data) (str "totalMessages") ;;
                  contactCount <-
                    get_prop (stats data) (str "totalContacts") ;;
                  _ <- lift (record env
                               {| rec_type := local;
                                  rec_driveFileId := None;
                                  rec_messageCount := messageCount;
                                  rec_contactCount := contactCount;
                                  rec_sizeBytes := sizeBytes |}) ;;
                  done (Some encryptedContent))
                 (fun err =>
                    failed (Some encryptedContent)
                           (message_or err "Backup failed"))
           | google_drive =>
               _ <- (if isAuthenticated env then ret tt
                     else lift (authenticateGoogle env)) ;;
               driveFileId <-
                 lift (uploadToDrive env encryptedContent
                                     (u_username user)) ;;
               messageCount <-
                 get_prop (stats data) (str "totalMessages") ;;
               contactCount <-
                 get_prop (stats data) (str "totalContacts") ;;
               _ <- lift (record env
                            {| rec_type := google_drive;
                               rec_driveFileId := driveFileId;
                               rec_messageCount := messageCount;
                               rec_contactCount := contactCount;
                               rec_sizeBytes := sizeBytes |}) ;;
               done None
           end)
          (fun err => failed None (message_or err "Backup failed"))
  end.

(** What the restore tab holds. *)
Record RestoreState : Type := {
  restoreMethod : restore_method;
  r_password : jsstring;
  fileContent : option jsstring;
  selectedDriveFile : option jsstring
}.

(** After [doRestore]: the error line, the server's report, and the
    password and file content the tab holds. *)
Record RestoreResult : Type := {
  r_error : option notice;
  r_result : option (json number);
  r_password' : jsstring;
  r_fileContent' : option jsstring
}.

(** [doRestore()].  [selectedDriveFile] is the id of the file picked;
    the status line and the refresh of the history are left out.  The
    error the source throws for a backup of another owner goes straight
    to the error line its [catch] writes it to. *)
Definition doRestore (env : Env) (user : User) (st : RestoreState)
  : M RestoreResult :=
  let failed (n : notice) :=
    ret {| r_error := Some n; r_result := None;
           r_password' := r_password st;
           r_fileContent' := fileContent st |} in
  let decode (content : option jsstring) :=
    match content with
    | None | Some [] => failed (Text "No backup file selected")
    | Some content =>
        try_catch
          (backupData <- decryptBackup content (r_password st) ;;
           owner <- get_prop (Some backupData) (str "owner") ;;
           username <- get_prop owner (str "username") ;;
           if negb (strict_eq_string username (u_username user))
           then failed (Belongs (ToString username)
                                (or_undefined (u_username user)))
           else
             data <- lift (restore env backupData) ;;
             ret {| r_error := None; r_result := Some data;
                    r_password' := []; r_fileContent' := None |})
          (fun err => failed (message_or err "Restore failed"))
    end in
  match r_password st with
  | [] => failed (Text "Enter your backup password")
  | _ =>
      match restoreMethod st with
      | file => decode (fileContent st)
      | drive =>
          match selectedDriveFile st with
          | None => failed (Text "Select a backup file from Drive")
          | Some id =>
              match downloadFromDrive env id with
              | Ok content => decode (Some content)
              | Throw err => failed (message_of err)
              end
          end
      end
  end.

End WithPlatform.
End BackupModal.

(* ================================================================== *)
(** * Vocabulary of the further properties *)
(* ================================================================== *)

(** A base64 digit or the padding sign. *)
Definition base64_char (c : N) : Prop := Base64.value c <> None \/ c = 61.

(** A character of a key that toPEM and fromPEM carry: no hyphen and no
    line terminator. *)
Definition pem_char (c : N) : Prop :=
  c <> 45 /\ is_line_terminator c = false.

(** A registration form that passes the three checks. *)
Definition valid_form (form : AuthPage.Form) : Prop :=
  (3 <= length (trim (AuthPage.username form)))%nat
  /\ (8 <= length (AuthPage.password form))%nat
  /\ AuthPage.password form = AuthPage.confirm form.

(** The bundle of a message that [decryptAll] reads for a user. *)
Definition bundle_for (currentUser : User) (msg : Message) : MessageBundle :=
  if ChatWindow.isSender currentUser msg
  then encryptedForSender msg
  else encryptedForRecipient msg.

(** One update of the conversation list of the side bar.  The server
    lists one conversation for each contact, so the rows it sends bear
    different user names. *)
Inductive sidebar_step : list Sidebar.Conversation ->
                         list Sidebar.Conversation -> Prop :=
| step_incoming clock activeContact incomingMessage prev :
    sidebar_step prev
      (Sidebar.onIncomingMessage clock activeContact incomingMessage prev)
| step_active activeContact prev :
    sidebar_step prev (Sidebar.onActiveContact activeContact prev)
| step_online username prev :
    sidebar_step prev (Sidebar.handleOnline username prev)
| step_offline username prev :
    sidebar_step prev (Sidebar.handleOffline username prev)
| step_fetch get prev :
    (forall data,
       get = Ok data ->
       NoDup (map (fun conv =>
                     Sidebar.c_username (Sidebar.mapConversation conv))
                  data)) ->
    sidebar_step prev (Sidebar.fetchConversations get prev)
| step_start user prev :
    sidebar_step prev (fst (Sidebar.startChat user prev))
| step_select conv prev :
    sidebar_step prev (fst (Sidebar.handleSelectContact conv prev)).

(** The lists the side bar can hold: it starts empty. *)
Inductive sidebar_reachable : list Sidebar.Conversation -> Prop :=
| reach_start : sidebar_reachable []
| reach_step prev next :
    sidebar_reachable prev -> sidebar_step prev next ->
    sidebar_reachable next.

Section BackupVocabulary.
Context {P : Platform}.

(** The content doRestore works on: the file read, or the file
    downloaded from Drive. *)
Definition restore_content (env : BackupModal.Env)
  (st : BackupModal.RestoreState) (content : jsstring) : Prop :=
  match BackupModal.restoreMethod st with
  | BackupModal.file => BackupModal.fileContent st = Some content
  | BackupModal.drive =>
      exists id,
        BackupModal.selectedDriveFile st = Some id
        /\ BackupModal.downloadFromDrive env id = Ok content
  end.

End BackupVocabulary.

(* ================================================================== *)
(** * Two users and what they type, on the reference platform *)
(* ================================================================== *)

Module Sample.

Definition alice : User :=
  {| u_id := Some (str "u1"); u_username := Some (str "alice");
     u_publicKey := Some Ref.alice_key; u_isOnline := Some true |}.

Definition bob : User :=
  {| u_id := Some (str "u2"); u_username := Some (str "bob");
     u_publicKey := Some Ref.bob_key; u_isOnline := Some false |}.


Definition form1 : AuthPage.Form :=
  {| AuthPage.username := str "alice";
     AuthPage.password := str "horse";
     AuthPage.confirm := str "horse" |}.

(** A server that takes every registration. *)
Definition accept (req : register_request) : outcome unit := Ok tt.

(** A chat window in which alice has typed a line for bob, and a server
    that stores what it is sent under the id "m1". *)
Definition typing : ChatWindow.State :=
  {| ChatWindow.messages := []; ChatWindow.input := str "  hello ";
     ChatWindow.sending := false |}.

Definition store (req : ChatWindow.SendRequest) : outcome Message :=
  Ok {| m_id := Some (str "m1"); m_sender := SenderObject alice;
        encryptedForRecipient := ChatWindow.forRecipient req;
        encryptedForSender := ChatWindow.forSender req |}.

(** A message of bob, and a conversation list that holds bob's row
    second, with two unread messages. *)
Definition from_bob : Message :=
  {| m_id := Some (str "m2"); m_sender := SenderObject bob;
     encryptedForRecipient :=
       {| ciphertext := []; encKey := []; iv := [] |};
     encryptedForSender :=
       {| ciphertext := []; encKey := []; iv := [] |} |}.

Definition row (name : string) (unread : N) : Sidebar.Conversation :=
  {| Sidebar.c_id := None; Sidebar.c_username := Some (str name);
     Sidebar.c_publicKey := None; Sidebar.c_isOnline := Some false;
     Sidebar.c_lastMessageAt := None; Sidebar.c_preview := [];
     Sidebar.c_unreadCount := unread |}.

Definition rows : list Sidebar.Conversation :=
  [row "carol" 1; row "bob" 2; row "dave" 0].

(** The server and Drive of the backup tab: the server sends the
    reference payload and takes what it is sent; Drive is not
    connected. *)
Section OnRef.
#[local] Existing Instance Ref.platform.

Definition backup_env : BackupModal.Env :=
  {| BackupModal.generate :=
       Ok {| BackupModal.backupData := Ref.payload0;
             BackupModal.stats :=
               field Ref.payload0 (str "stats") |};
     BackupModal.record := fun _ => Ok tt;
     BackupModal.isAuthenticated := false;
     BackupModal.authenticateGoogle :=
       Throw (Error "Google Client ID not configured");
     BackupModal.uploadToDrive := fun _ _ => Throw (Error "not connected");
     BackupModal.downloadFromDrive :=
       fun _ => Throw (Error "not connected");
     BackupModal.restore := fun _ => Ok JNull |}.

End OnRef.

End Sample.

(* ================================================================== *)
(** * Facts: bytes and text *)
(* ================================================================== *)

Unset Implicit Arguments.
Ltac Zify.zify_post_hook ::= Z.to_euclidean_division_equations.

Lemma to_N_byte_of_N n : Byte.to_N (byte_of_N n) = n mod 256.
Proof.
  unfold byte_of_N.
  destruct (Byte.of_N (n mod 256)) eqn:E.
  - apply Byte.to_of_N in E. exact E.
  - apply Byte.of_N_None_iff in E.
    pose proof (N.mod_upper_bound n 256). lia.
Qed.

Lemma byte_of_N_to_N b : byte_of_N (Byte.to_N b) = b.
Proof.
  unfold byte_of_N.
  pose proof (Byte.to_N_bounded b).
  rewrite N.mod_small by lia.
  rewrite Byte.of_to_N. reflexivity.
Qed.

Section Utf8Facts.
Import Utf8.

Ltac settle_test :=
  match goal with
  | |- context [?a =? ?b] =>
      first [ replace (a =? b) with true by (symmetry; apply N.eqb_eq; lia)
            | replace (a =? b) with false by (symmetry; apply N.eqb_neq; lia)
            | destruct (N.eqb_spec a b) ]
  | |- context [?a <=? ?b] =>
      first [ replace (a <=? b) with true by (symmetry; apply N.leb_le; lia)
            | replace (a <=? b) with false by (symmetry; apply N.leb_gt; lia) ]
  | |- context [?a <? ?b] =>
      first [ replace (a <? b) with true by (symmetry; apply N.ltb_lt; lia)
            | replace (a <? b) with false by (symmetry; apply N.ltb_ge; lia) ]
  end.

Ltac settle :=
  repeat (cbn [andb orb negb app fst snd cp needed lower upper dinit run];
          try unfold start;
          settle_test).

Lemma run_seq1 b rest :
  b <= 0x7F -> run dinit (b :: rest) = b :: run dinit rest.
Proof. intros. settle. reflexivity. Qed.

Lemma run_seq2 q1 q2 rest :
  2 <= q1 < 32 -> q2 < 64 ->
  run dinit (0xC0 + q1 :: 0x80 + q2 :: rest) = q1 * 64 + q2 :: run dinit rest.
Proof. intros. settle. f_equal. lia. Qed.

Lemma run_seq3 q1 q2 q3 rest :
  q1 < 16 -> q2 < 64 -> q3 < 64 ->
  (q1 = 0 -> 32 <= q2) -> (q1 = 13 -> q2 < 32) ->
  run dinit (0xE0 + q1 :: 0x80 + q2 :: 0x80 + q3 :: rest)
  = (q1 * 64 + q2) * 64 + q3 :: run dinit rest.
Proof. intros. settle. all: f_equal; lia. Qed.

Lemma run_seq4 q1 q2 q3 q4 rest :
  q1 < 5 -> q2 < 64 -> q3 < 64 -> q4 < 64 ->
  (q1 = 0 -> 16 <= q2) -> (q1 = 4 -> q2 < 16) ->
  run dinit (0xF0 + q1 :: 0x80 + q2 :: 0x80 + q3 :: 0x80 + q4 :: rest)
  = ((q1 * 64 + q2) * 64 + q3) * 64 + q4 :: run dinit rest.
Proof. intros. settle. all: f_equal; lia. Qed.

Lemma run_encode_scalar c rest :
  scalar c -> run dinit (encode_scalar c ++ rest) = c :: run dinit rest.
Proof.
  intros [Hlt Hns]. unfold encode_scalar.
  destruct (N.ltb_spec c 0x80); [| destruct (N.ltb_spec c 0x800);
    [| destruct (N.ltb_spec c 0x10000)]]; cbn [app].
  - apply run_seq1. lia.
  - rewrite run_seq2 by lia. f_equal. lia.
  - rewrite run_seq3 by lia. f_equal. lia.
  - rewrite run_seq4 by lia. f_equal. lia.
Qed.

Lemma encode_scalar_bytes c :
  scalar c -> Forall (fun b => b < 256) (encode_scalar c).
Proof.
  intros [Hlt Hns]. unfold encode_scalar.
  destruct (N.ltb_spec c 0x80); [| destruct (N.ltb_spec c 0x800);
    [| destruct (N.ltb_spec c 0x10000)]].
  all: repeat constructor; lia.
Qed.

Lemma to_N_of_N_list l :
  Forall (fun b => b < 256) l -> map Byte.to_N (map byte_of_N l) = l.
Proof.
  induction 1 as [| b l Hb _ IH]; cbn [map]; [reflexivity |].
  rewrite to_N_byte_of_N, N.mod_small, IH by exact Hb. reflexivity.
Qed.

Lemma flat_encode_bytes cs :
  Forall scalar cs -> Forall (fun b => b < 256) (flat_map encode_scalar cs).
Proof.
  induction 1; cbn [flat_map]; [constructor |].
  apply Forall_app. split; [apply encode_scalar_bytes |]; assumption.
Qed.

Lemma run_flat_encode cs :
  Forall scalar cs -> run dinit (flat_map encode_scalar cs) = cs.
Proof.
  induction 1 as [| c cs Hc _ IH]; cbn [flat_map]; [reflexivity |].
  rewrite run_encode_scalar, IH by exact Hc. reflexivity.
Qed.

Lemma well_formed_scalars_aux n : forall s,
  (length s <= n)%nat -> well_formed s = true ->
  Forall scalar (to_scalars s) /\ flat_map to_units (to_scalars s) = s.
Proof.
  induction n as [| n IH]; intros s Hn Hwf.
  - destruct s; [cbn; split; [constructor | reflexivity] | cbn in Hn; lia].
  - destruct s as [| u rest]; [cbn; split; [constructor | reflexivity] |].
    cbn [well_formed to_scalars] in *.
    destruct (is_lead u) eqn:Hl.
    + destruct rest as [| v rest']; [discriminate |].
      apply andb_true_iff in Hwf as [Hv Hwf]. rewrite Hv.
      destruct (IH rest') as [IH1 IH2]; [cbn in Hn; lia | exact Hwf |].
      unfold is_lead, is_trail in *.
      apply andb_true_iff in Hl as [Hl1 Hl2], Hv as [Hv1 Hv2].
      apply N.leb_le in Hl1, Hl2, Hv1, Hv2.
      split.
      * constructor; [unfold scalar; lia | exact IH1].
      * cbn [flat_map]. rewrite IH2. unfold to_units.
        replace (_ <? 65536) with false by (symmetry; apply N.ltb_ge; lia).
        cbn [app]. f_equal; [lia | f_equal; lia].
    + apply andb_true_iff in Hwf as [Hu Hwf].
      apply andb_true_iff in Hu as [Ht Hu].
      apply negb_true_iff in Ht. rewrite Ht.
      destruct (IH rest) as [IH1 IH2]; [cbn in Hn; lia | exact Hwf |].
      apply N.ltb_lt in Hu.
      unfold is_lead, is_trail in *.
      apply andb_false_iff in Hl, Ht.
      rewrite !N.leb_gt in Hl, Ht.
      split.
      * constructor; [unfold scalar; lia | exact IH1].
      * cbn [flat_map]. rewrite IH2. unfold to_units.
        replace (u <? 65536) with true by (symmetry; apply N.ltb_lt; lia).
        reflexivity.
Qed.

Lemma strip_bom_scalars s :
  starts_with_bom s = false -> strip_bom (to_scalars s) = to_scalars s.
Proof.
  destruct s as [| u rest]; [reflexivity |].
  cbn [starts_with_bom to_scalars]. intros Hu.
  destruct (is_lead u) eqn:Hl.
  - unfold is_lead in Hl. apply andb_true_iff in Hl as [Hl1 Hl2].
    apply N.leb_le in Hl1, Hl2.
    destruct rest as [| v rest']; [reflexivity |].
    destruct (is_trail v); cbn [strip_bom].
    + replace (_ =? 65279) with false by (symmetry; apply N.eqb_neq; lia).
      reflexivity.
    + reflexivity.
  - destruct (is_trail u); cbn [strip_bom]; [reflexivity |].
    rewrite Hu. reflexivity.
Qed.

(** [TextDecoder] gives back what [TextEncoder] was given, when the text
    is well-formed and starts with no byte order mark. *)
Lemma decode_encode s : clean_text s = true -> decode (encode s) = s.
Proof.
  unfold clean_text. intros H. apply andb_true_iff in H as [Hwf Hb].
  apply negb_true_iff in Hb.
  destruct (@well_formed_scalars_aux (length s) s) as [Hs Hu];
    [lia | exact Hwf |].
  unfold decode, encode.
  rewrite to_N_of_N_list by (apply flat_encode_bytes; exact Hs).
  rewrite run_flat_encode by exact Hs.
  rewrite strip_bom_scalars by exact Hb. exact Hu.
Qed.

(** A leading U+FEFF is lost on the way. *)
Lemma decode_encode_bom s :
  well_formed s = true -> decode (encode (0xFEFF :: s)) = s.
Proof.
  intros Hwf.
  destruct (@well_formed_scalars_aux (length s) s) as [Hs Hu];
    [lia | exact Hwf |].
  assert (Hs' : Forall scalar (to_scalars (0xFEFF :: s))).
  { cbn. constructor; [unfold scalar; lia | exact Hs]. }
  unfold decode, encode.
  rewrite to_N_of_N_list by (apply flat_encode_bytes; exact Hs').
  rewrite run_flat_encode by exact Hs'.
  cbn. exact Hu.
Qed.

End Utf8Facts.

(* ================================================================== *)
(** * Facts: base64 *)
(* ================================================================== *)

Section Base64Facts.
Import Base64.

Lemma list_ind3 {A} (Q : list A -> Prop) :
  Q [] -> (forall a, Q [a]) -> (forall a b, Q [a; b]) ->
  (forall a b c rest, Q rest -> Q (a :: b :: c :: rest)) ->
  forall l, Q l.
Proof.
  intros H0 H1 H2 H3.
  fix IH 1. intros [| a [| b [| c rest]]].
  - exact H0.
  - apply H1.
  - apply H2.
  - apply H3, IH.
Qed.

Lemma value_alphabet i : i < 64 -> value (alphabet i) = Some i.
Proof.
  intros Hi. unfold alphabet, value.
  destruct (N.ltb_spec i 26); [| destruct (N.ltb_spec i 52);
    [| destruct (N.ltb_spec i 62); [| destruct (N.eqb_spec i 62)]]].
  all: repeat match goal with
       | |- context [(?a <=? ?b) && (?c <=? ?d)] =>
           first [ replace ((a <=? b) && (c <=? d)) with true
                     by (symmetry; apply andb_true_iff; split;
                         apply N.leb_le; lia)
                 | replace ((a <=? b) && (c <=? d)) with false
                     by (symmetry; apply andb_false_iff;
                         rewrite !N.leb_gt; lia) ]
       | |- context [?a =? ?b] =>
           first [ replace (a =? b) with true by (symmetry; apply N.eqb_eq; lia)
                 | replace (a =? b) with false
                     by (symmetry; apply N.eqb_neq; lia) ]
       end.
  all: f_equal; lia.
Qed.

Lemma alphabet_range i :
  i < 64 -> 43 <= alphabet i <= 122 /\ alphabet i <> pad.
Proof.
  intros Hi. unfold alphabet, pad.
  destruct (N.ltb_spec i 26); [| destruct (N.ltb_spec i 52);
    [| destruct (N.ltb_spec i 62); [| destruct (N.eqb_spec i 62)]]]; lia.
Qed.

Lemma alphabet_kept i :
  i < 64 -> negb (is_ascii_whitespace (alphabet i)) = true.
Proof.
  intros Hi. destruct (alphabet_range i Hi) as [Hr _].
  unfold is_ascii_whitespace. apply negb_true_iff.
  repeat (apply orb_false_iff; split); apply N.eqb_neq; lia.
Qed.

Lemma strip_padding_cons c X :
  c <> pad -> strip_padding (c :: X) = c :: strip_padding X.
Proof.
  intros Hc. apply N.eqb_neq in Hc.
  destruct X as [| c' [| c'' X']]; cbn [strip_padding]; rewrite ?Hc;
    reflexivity.
Qed.


Ltac small_inv :=
  repeat match goal with
  | H : small (_ :: _) |- _ => apply Forall_cons_iff in H; destruct H
  | H : Forall _ (_ :: _) |- _ => apply Forall_cons_iff in H; destruct H
  end.

Lemma encode_units_kept l :
  small l ->
  filter (fun c => negb (is_ascii_whitespace c)) (encode_units l)
  = encode_units l.
Proof.
  induction l as [| a | a b | a b c rest IH] using list_ind3; intros Hl;
    small_inv; cbn [encode_units filter].
  4: rewrite IH by assumption.
  all: rewrite ?alphabet_kept by lia; reflexivity.
Qed.

Lemma encode_units_length l : exists k, length (encode_units l) = (4 * k)%nat.
Proof.
  induction l as [| a | a b | a b c rest [k IH]] using list_ind3;
    cbn [encode_units length].
  - exists 0%nat. reflexivity.
  - exists 1%nat. reflexivity.
  - exists 1%nat. reflexivity.
  - exists (S k). rewrite IH. lia.
Qed.

Lemma encode_core_length l :
  exists k, length (encode_core l) = (4 * k)%nat
            \/ length (encode_core l) = (4 * k + 2)%nat
            \/ length (encode_core l) = (4 * k + 3)%nat.
Proof.
  induction l as [| a | a b | a b c rest [k IH]] using list_ind3;
    cbn [encode_core length].
  - exists 0%nat. auto.
  - exists 0%nat. auto.
  - exists 0%nat. auto.
  - exists (S k). lia.
Qed.

Lemma strip_padding_encode l :
  small l -> strip_padding (encode_units l) = encode_core l.
Proof.
  induction l as [| a | a b | a b c rest IH] using list_ind3; intros Hl;
    small_inv; cbn [encode_units encode_core].
  - reflexivity.
  - rewrite !strip_padding_cons by (apply alphabet_range; lia). reflexivity.
  - rewrite !strip_padding_cons by (apply alphabet_range; lia). reflexivity.
  - rewrite !strip_padding_cons by (apply alphabet_range; lia).
    rewrite IH by assumption. reflexivity.
Qed.

Lemma decode_encode_core l :
  small l -> option_map decode_values (values (encode_core l)) = Some l.
Proof.
  induction l as [| a | a b | a b c rest IH] using list_ind3; intros Hl;
    small_inv; cbn [encode_core values].
  - reflexivity.
  - rewrite !value_alphabet by lia. cbn [option_map decode_values].
    do 2 f_equal. lia.
  - rewrite !value_alphabet by lia. cbn [option_map decode_values].
    do 2 f_equal; [lia | f_equal; lia].
  - rewrite !value_alphabet by lia.
    specialize (IH ltac:(assumption)).
    destruct (values (encode_core rest)) as [vs |]; [| discriminate].
    cbn [option_map] in *. injection IH as IH.
    cbn [decode_values]. rewrite IH.
    do 2 f_equal; [lia | f_equal; [lia | f_equal; lia]].
Qed.

(** [atob] undoes [btoa]. *)
Lemma decode_encode_units l :
  small l -> decode_units (encode_units l) = Some l.
Proof.
  intros Hl. unfold decode_units.
  rewrite encode_units_kept by exact Hl.
  destruct (encode_units_length l) as [k Hk]. rewrite Hk.
  replace (N.of_nat (4 * k) mod 4 =? 0) with true
    by (symmetry; apply N.eqb_eq; lia).
  rewrite strip_padding_encode by exact Hl.
  destruct (encode_core_length l) as [k' Hk'].
  replace (N.of_nat (length (encode_core l)) mod 4 =? 1) with false
    by (symmetry; apply N.eqb_neq; lia).
  apply decode_encode_core. exact Hl.
Qed.

Lemma encode_units_ascii l :
  small l -> Forall (fun c => c < 128) (encode_units l).
Proof.
  assert (Ha : forall i, i < 64 -> alphabet i < 128).
  { intros i Hi. pose proof (alphabet_range i Hi). lia. }
  induction l as [| a | a b | a b c rest IH] using list_ind3; intros Hl;
    small_inv; cbn [encode_units]; unfold pad.
  4: specialize (IH ltac:(assumption)).
  all: repeat (apply Forall_cons; [first [apply Ha; lia | lia] |]).
  all: first [constructor | exact IH].
Qed.

(** The text of [l ++ t], for [l] made of whole groups, is the text of
    [l] followed by the text of [t]. *)
Lemma encode_units_triples l t :
  triples l -> encode_units (l ++ t) = encode_units l ++ encode_units t.
Proof.
  induction 1 as [| a b c rest Ha Hb Hc _ IH]; [reflexivity |].
  cbn [app encode_units]. rewrite IH. reflexivity.
Qed.

Lemma encode_units_triples_length l :
  triples l -> length (encode_units l) = (4 * (length l / 3))%nat
               /\ (length l mod 3 = 0)%nat.
Proof.
  induction 1 as [| a b c rest Ha Hb Hc _ [IH1 IH2]]; [split; reflexivity |].
  cbn [encode_units length]. rewrite IH1.
  change (S (S (S (length rest)))) with (3 + length rest)%nat.
  pose proof (Nat.div_mod_eq (length rest) 3).
  pose proof (Nat.div_mod_eq (3 + length rest) 3).
  pose proof (Nat.mod_upper_bound (3 + length rest) 3).
  split; lia.
Qed.

Lemma filter_triples l T :
  triples l ->
  filter (fun c => negb (is_ascii_whitespace c)) (encode_units l ++ T)
  = encode_units l ++ filter (fun c => negb (is_ascii_whitespace c)) T.
Proof.
  induction 1 as [| a b c rest Ha Hb Hc _ IH]; [reflexivity |].
  cbn [encode_units app filter]. rewrite !alphabet_kept by lia.
  rewrite IH. reflexivity.
Qed.

Lemma strip_padding_triples l T :
  triples l -> strip_padding (encode_units l ++ T)
               = encode_units l ++ strip_padding T.
Proof.
  induction 1 as [| a b c rest Ha Hb Hc _ IH]; [reflexivity |].
  cbn [encode_units app].
  rewrite !strip_padding_cons by (apply alphabet_range; lia).
  rewrite IH. reflexivity.
Qed.

Lemma decode_triples l T :
  triples l ->
  option_map decode_values (values (encode_units l ++ T))
  = option_map (fun vs => l ++ decode_values vs) (values T).
Proof.
  induction 1 as [| a b c rest Ha Hb Hc _ IH].
  - cbn [encode_units app]. destruct (values T); reflexivity.
  - cbn [encode_units app values]. rewrite !value_alphabet by lia.
    destruct (values (encode_units rest ++ T)) as [vs |];
      destruct (values T) as [vt |]; cbn [option_map] in *;
      try discriminate; try reflexivity.
    injection IH as IH. cbn [decode_values]. rewrite IH. cbn [app].
    do 2 f_equal; [lia | f_equal; [lia | f_equal; lia]].
Qed.

(** The text of whole groups followed by a last group that holds one
    byte: only the two high bits of its second character are read. *)
Lemma decode_units_last_byte l a c v :
  triples l -> a < 64 -> value c = Some v ->
  decode_units (encode_units l ++ [alphabet a; c; pad; pad])
  = Some (l ++ [a * 4 + v / 16]).
Proof.
  intros Hl Ha Hv.
  assert (Hc : negb (is_ascii_whitespace c) = true /\ c <> pad).
  { unfold value in Hv. unfold is_ascii_whitespace, pad.
    repeat match type of Hv with
    | (if ?t then _ else _) = _ => destruct t eqn:?
    end; try discriminate;
    repeat match goal with
    | H : (_ && _) = true |- _ => apply andb_true_iff in H; destruct H
    | H : (_ <=? _) = true |- _ => apply N.leb_le in H
    | H : (_ =? _) = true |- _ => apply N.eqb_eq in H
    end;
    (split; [apply negb_true_iff; repeat (apply orb_false_iff; split);
             apply N.eqb_neq; lia | lia]). }
  destruct Hc as [Hws Hpad].
  unfold decode_units.
  rewrite filter_triples by exact Hl.
  cbn [filter]. rewrite alphabet_kept, Hws by lia.
  change (negb (is_ascii_whitespace pad)) with true. cbv iota.
  destruct (encode_units_triples_length l Hl) as [Hlen _].
  rewrite !length_app, Hlen. cbn [length].
  replace (N.of_nat (4 * (length l / 3) + 4) mod 4 =? 0) with true
    by (symmetry; apply N.eqb_eq; lia).
  rewrite strip_padding_triples by exact Hl.
  rewrite !strip_padding_cons
    by first [apply alphabet_range; lia | exact Hpad].
  change (strip_padding [pad; pad]) with (@nil N).
  rewrite length_app, Hlen. cbn [length].
  replace (N.of_nat (4 * (length l / 3) + 2) mod 4 =? 1) with false
    by (symmetry; apply N.eqb_neq; lia).
  rewrite decode_triples by exact Hl.
  cbn [values]. rewrite value_alphabet, Hv by exact Ha.
  reflexivity.
Qed.

Lemma triples_of_length k : forall l,
  length l = (3 * k)%nat -> small l -> triples l.
Proof.
  induction k as [| k IH]; intros l Hlen Hs.
  - destruct l; [constructor | discriminate].
  - destruct l as [| a [| b [| c rest]]]; cbn [length] in Hlen; try lia.
    unfold small in Hs.
    apply Forall_cons_iff in Hs as [Ha Hs].
    apply Forall_cons_iff in Hs as [Hb Hs].
    apply Forall_cons_iff in Hs as [Hc Hs].
    constructor; try assumption. apply IH; [lia | exact Hs].
Qed.

(** In the last group of a text that ends in one byte, some bit of the
    second character can be flipped without the byte changing. *)
Lemma unread_bit x :
  x < 256 ->
  exists bit v',
    bit < 16
    /\ N.lxor (alphabet ((x mod 4) * 16)) (2 ^ bit) <> alphabet ((x mod 4) * 16)
    /\ value (N.lxor (alphabet ((x mod 4) * 16)) (2 ^ bit)) = Some v'
    /\ x / 4 * 4 + v' / 16 = x.
Proof.
  intros Hx.
  assert (Hq : x = x / 4 * 4 + x mod 4) by lia.
  assert (Hm : x mod 4 = 0 \/ x mod 4 = 1 \/ x mod 4 = 2 \/ x mod 4 = 3) by lia.
  destruct Hm as [Hm | [Hm | [Hm | Hm]]]; rewrite Hm.
  - exists 1, 2. split; [lia |]. split; [discriminate |].
    split; [reflexivity |]. change (2 / 16) with 0. lia.
  - exists 1, 18. split; [lia |]. split; [discriminate |].
    split; [reflexivity |]. change (18 / 16) with 1. lia.
  - exists 3, 40. split; [lia |]. split; [discriminate |].
    split; [reflexivity |]. change (40 / 16) with 2. lia.
  - exists 6, 59. split; [lia |]. split; [discriminate |].
    split; [reflexivity |]. change (59 / 16) with 3. lia.
Qed.

End Base64Facts.

(* ================================================================== *)
(** * Facts: running the monad *)
(* ================================================================== *)

Lemma bind_ok {A B} (m : M A) (k : A -> M B) w a w' :
  m w = (Ok a, w') -> bind m k w = k a w'.
Proof. intros H. unfold bind. rewrite H. reflexivity. Qed.

Lemma bind_throw {A B} (m : M A) (k : A -> M B) w e w' :
  m w = (Throw e, w') -> bind m k w = (Throw e, w').
Proof. intros H. unfold bind. rewrite H. reflexivity. Qed.

Lemma byte_string_small buf : Base64.small (byte_string buf).
Proof.
  unfold Base64.small, byte_string. apply Forall_map, Forall_forall.
  intros b _.
  pose proof (Byte.to_N_bounded b). lia.
Qed.

Lemma byte_of_N_byte_string buf : map byte_of_N (byte_string buf) = buf.
Proof.
  unfold byte_string. rewrite map_map.
  erewrite map_ext; [apply map_id |]. intros b. apply byte_of_N_to_N.
Qed.

Lemma btoa_byte_string buf : btoa (byte_string buf) = Ok (b64 buf).
Proof.
  unfold btoa.
  replace (forallb _ _) with true; [reflexivity |].
  symmetry. apply forallb_forall. intros u Hu. apply N.leb_le.
  pose proof (byte_string_small buf) as Hs.
  unfold Base64.small in Hs. rewrite Forall_forall in Hs.
  specialize (Hs u Hu). lia.
Qed.

Section Spread.
Context {P : Platform}.

(** [arrayToBase64] returns the base64 text of a buffer that fits the
    arguments of one call, and throws for one that does not. *)
Lemma arrayToBase64_run buf w :
  fits (length buf) -> arrayToBase64 buf w = (Ok (b64 buf), w).
Proof.
  intros H. unfold arrayToBase64, fromCharCodes.
  replace (N.of_nat (length buf) <=? max_arguments) with true
    by (symmetry; apply N.leb_le; exact H).
  cbv [bind lift]. rewrite btoa_byte_string. reflexivity.
Qed.

Lemma arrayToBase64_too_long buf w :
  ~ fits (length buf) -> arrayToBase64 buf w = (Throw RangeError, w).
Proof.
  intros H. unfold arrayToBase64, fromCharCodes.
  replace (N.of_nat (length buf) <=? max_arguments) with false
    by (symmetry; apply N.leb_gt; unfold fits in H; lia).
  reflexivity.
Qed.

Lemma fits_le n m : (n <= m)%nat -> fits m -> fits n.
Proof. unfold fits. lia. Qed.

Lemma fits_dec n : fits n \/ ~ fits n.
Proof. unfold fits. lia. Qed.

End Spread.

Section SpreadLaws.
Context {P : Platform} (L : PlatformLaws P).

Lemma fits_small n : (n <= 4096)%nat -> fits n.
Proof.
  intros H. pose proof (max_arguments_least L). unfold fits. lia.
Qed.

Lemma fits_tape t c n : (n <= 4096)%nat -> fits (length (read_tape t c n)).
Proof.
  intros H. apply fits_small. unfold read_tape.
  rewrite length_map, length_seq. exact H.
Qed.

Lemma fits_seal k iv m :
  fits (length m + 16) -> fits (length (aes_gcm_seal k iv m)).
Proof. rewrite (aes_gcm_seal_length L). intros H. exact H. Qed.

End SpreadLaws.

Lemma unb64_b64 buf : unb64 (b64 buf) = Some buf.
Proof.
  unfold unb64, b64.
  rewrite decode_encode_units by apply byte_string_small.
  cbn [option_map]. rewrite byte_of_N_byte_string. reflexivity.
Qed.

Lemma base64ToArray_run s w :
  base64ToArray s w =
  (match unb64 s with
   | Some b => Ok b
   | None => Throw InvalidCharacterError
   end, w).
Proof.
  unfold base64ToArray, bind, lift, atob, unb64.
  destruct (Base64.decode_units s); reflexivity.
Qed.

Lemma base64ToArray_b64 buf w : base64ToArray (b64 buf) w = (Ok buf, w).
Proof. rewrite base64ToArray_run, unb64_b64. reflexivity. Qed.

Lemma read_tape_length t c n : length (read_tape t c n) = n.
Proof. unfold read_tape. rewrite length_map, length_seq. reflexivity. Qed.

Lemma valid_units_b64 buf : valid_units (b64 buf) = true.
Proof.
  unfold valid_units, b64. apply forallb_forall. intros c Hc.
  pose proof (encode_units_ascii _ (byte_string_small buf)) as H.
  rewrite Forall_forall in H. specialize (H c Hc). apply N.ltb_lt. lia.
Qed.

Lemma flip_unit_app X T j bit :
  flip_unit (X ++ T) (length X + j) bit = X ++ flip_unit T j bit.
Proof.
  induction X as [| x X IH]; [reflexivity |].
  cbn [app length Nat.add flip_unit]. rewrite IH. reflexivity.
Qed.

(** The base64 text of a 256-byte buffer (an RSA-2048 ciphertext) has a
    character, the last before the padding, with a bit that can be
    flipped without the decoded buffer changing. *)
Lemma b64_unread_bit (c : bytes) :
  length c = 256%nat ->
  exists bit,
    bit < 16
    /\ flip_unit (b64 c) 341 bit <> b64 c
    /\ unb64 (flip_unit (b64 c) 341 bit) = Some c.
Proof.
  intros Hlen.
  assert (Hsplit : c = firstn 255 c ++ skipn 255 c)
    by (symmetry; apply firstn_skipn).
  assert (Hl : length (firstn 255 c) = 255%nat)
    by (rewrite length_firstn; lia).
  assert (Ht : length (skipn 255 c) = 1%nat)
    by (rewrite length_skipn; lia).
  destruct (skipn 255 c) as [| x [| ? ?]]; try discriminate.
  set (l := firstn 255 c) in *. clearbody l.
  subst c. clear Ht Hlen.
  pose proof (Byte.to_N_bounded x) as Hx.
  destruct (unread_bit (Byte.to_N x)) as (bit & v' & Hbit & Hne & Hv & Hsame);
    [lia |].
  assert (Htri : Base64.triples (byte_string l)).
  { apply (triples_of_length 85).
    - unfold byte_string. rewrite length_map. exact Hl.
    - apply byte_string_small. }
  assert (Htext :
    b64 (l ++ [x])
    = Base64.encode_units (byte_string l)
      ++ [Base64.alphabet (Byte.to_N x / 4);
          Base64.alphabet ((Byte.to_N x mod 4) * 16);
          Base64.pad; Base64.pad]).
  { unfold b64, byte_string. rewrite map_app.
    rewrite encode_units_triples by exact Htri. reflexivity. }
  assert (Hpos : length (Base64.encode_units (byte_string l)) = 340%nat).
  { destruct (encode_units_triples_length _ Htri) as [H _]. rewrite H.
    unfold byte_string. rewrite length_map, Hl. reflexivity. }
  exists bit. split; [exact Hbit |].
  rewrite Htext.
  change 341%nat with (340 + 1)%nat. rewrite <- Hpos, flip_unit_app.
  cbn [flip_unit]. split.
  - intros Heq. apply app_inv_head in Heq. injection Heq as Heq.
    exact (Hne Heq).
  - unfold unb64.
    rewrite (decode_units_last_byte _ _ _ v' Htri) by (first [lia | exact Hv]).
    cbn [option_map]. rewrite Hsame, map_app. cbn [map].
    rewrite byte_of_N_byte_string, byte_of_N_to_N. reflexivity.
Qed.

Section Runs.
Context {P : Platform}.

Lemma ret_run {A} (a : A) w : ret a w = (Ok a, w).
Proof. reflexivity. Qed.

Lemma emit_run e w : emit e w = (Ok tt, logged e w).
Proof. reflexivity. Qed.

Lemma draw_run n w :
  draw n w = (Ok (read_tape (tape w) (cursor w) n), advanced n w).
Proof. reflexivity. Qed.

Lemma getRandomValues_run n w :
  getRandomValues n w
  = (Ok (read_tape (tape w) (cursor w) n), advanced n (logged (EvRandom n) w)).
Proof. reflexivity. Qed.

Lemma deriveKey_run pass salt w :
  deriveKey pass salt w
  = (Ok (pbkdf2 (Utf8.encode pass) salt 100000 32),
     logged (EvDeriveKey 100000) (logged (EvImportKey PBKDF2) w)).
Proof. reflexivity. Qed.

Lemma deriveBackupKey_run pass salt w :
  deriveBackupKey pass salt w
  = (Ok (pbkdf2 (Utf8.encode pass) salt 150000 32),
     logged (EvDeriveKey 150000) (logged (EvImportKey PBKDF2) w)).
Proof. reflexivity. Qed.

Lemma subtle_encrypt_AES_GCM_run iv key data w :
  subtle_encrypt_AES_GCM iv key data w
  = (Ok (aes_gcm_seal key iv data), logged (EvEncrypt AES_GCM) w).
Proof. reflexivity. Qed.

Lemma subtle_decrypt_AES_GCM_run iv key data w :
  subtle_decrypt_AES_GCM iv key data w
  = (match aes_gcm_open key iv data with
     | Some plain => Ok plain
     | None => Throw OperationError
     end, logged (EvDecrypt AES_GCM) w).
Proof.
  unfold subtle_decrypt_AES_GCM, bind. cbn [emit].
  destruct (aes_gcm_open key iv data); reflexivity.
Qed.

Lemma subtle_generateKey_AES256_run w :
  subtle_generateKey_AES256 w
  = (Ok (read_tape (tape w) (cursor w) 32),
     advanced 32 (logged (EvGenerateKey AES_GCM) w)).
Proof. reflexivity. Qed.

Lemma subtle_exportKey_raw_run key w :
  subtle_exportKey_raw key w = (Ok key, logged EvExportKey w).
Proof. reflexivity. Qed.

Lemma subtle_digest_SHA256_run data w :
  subtle_digest_SHA256 data w = (Ok (sha256 data), logged EvDigest w).
Proof. reflexivity. Qed.

Lemma subtle_importKey_AES_run raw w :
  subtle_importKey_AES raw w
  = (if (Nat.eqb (length raw) 16 || Nat.eqb (length raw) 24
         || Nat.eqb (length raw) 32)%bool then Ok raw else Throw DataError,
     logged (EvImportKey AES_GCM) w).
Proof.
  unfold subtle_importKey_AES, bind. cbn [emit].
  destruct (_ || _)%bool; reflexivity.
Qed.

Lemma subtle_decrypt_RSA_OAEP_run key data w :
  subtle_decrypt_RSA_OAEP key data w
  = (match rsa_oaep_decrypt key data with
     | Some m => Ok m
     | None => Throw OperationError
     end, logged (EvDecrypt RSA_OAEP) w).
Proof.
  unfold subtle_decrypt_RSA_OAEP, bind. cbn [emit].
  destruct (rsa_oaep_decrypt key data); reflexivity.
Qed.

Lemma subtle_encrypt_RSA_OAEP_run key data w :
  subtle_encrypt_RSA_OAEP key data w
  = (match rsa_oaep_encrypt key (read_tape (tape w) (cursor w) 32) data with
     | Some c => Ok c
     | None => Throw OperationError
     end, advanced 32 (logged (EvEncrypt RSA_OAEP) w)).
Proof.
  unfold subtle_encrypt_RSA_OAEP, bind. cbn [emit draw].
  cbn [logged tape cursor].
  destruct (rsa_oaep_encrypt key _ data); reflexivity.
Qed.

Lemma importPublicKey_run s w :
  importPublicKey s w
  = match unb64 s with
    | None => (Throw InvalidCharacterError, w)
    | Some raw =>
        (match spki_import raw with
         | Some k => Ok k
         | None => Throw DataError
         end, logged (EvImportKey RSA_OAEP) w)
    end.
Proof.
  unfold importPublicKey, bind. rewrite base64ToArray_run.
  destruct (unb64 s) as [raw |]; [| reflexivity].
  unfold subtle_importKey_spki, bind. cbn [emit].
  destruct (spki_import raw); reflexivity.
Qed.

Lemma importPrivateKey_run s w :
  importPrivateKey s w
  = match unb64 s with
    | None => (Throw InvalidCharacterError, w)
    | Some raw =>
        (match pkcs8_import raw with
         | Some k => Ok k
         | None => Throw DataError
         end, logged (EvImportKey RSA_OAEP) w)
    end.
Proof.
  unfold importPrivateKey, bind. rewrite base64ToArray_run.
  destruct (unb64 s) as [raw |]; [| reflexivity].
  unfold subtle_importKey_pkcs8, bind. cbn [emit].
  destruct (pkcs8_import raw); reflexivity.
Qed.

End Runs.

Ltac run_with H :=
  match type of H with
  | ?m ?w = (Ok ?a, ?w') =>
      match goal with
      | |- context [bind m ?k w] => rewrite (bind_ok m k w a w' H); cbv beta
      end
  end.

(** A buffer that fits: by assumption, for its fixed length, or for the
    length AES-GCM gives it. *)
Ltac fits_tac :=
  match goal with
  | H : fits ?n |- fits ?n => exact H
  | L : PlatformLaws _ |- fits (length (read_tape _ _ _)) =>
      apply (fits_tape L); lia
  | L : PlatformLaws _, H : fits (length ?m + 16)
    |- fits (length (aes_gcm_seal _ _ ?m)) => apply (fits_seal L); exact H
  | L : PlatformLaws _, H : length ?c = _ |- fits (length ?c) =>
      apply (fits_small L); rewrite H; lia
  | L : PlatformLaws _, H : (length ?c <= _)%nat |- fits (length ?c) =>
      apply (fits_small L); lia
  end.

Ltac run :=
  repeat match goal with
  | |- context [bind (arrayToBase64 ?b) _ ?w] =>
      run_with (arrayToBase64_run b w ltac:(fits_tac))
  | |- context [bind (base64ToArray (b64 ?b)) _ ?w] =>
      run_with (base64ToArray_b64 b w)
  | |- context [bind (getRandomValues ?n) _ ?w] =>
      run_with (getRandomValues_run n w)
  | |- context [bind (deriveKey ?p ?s) _ ?w] => run_with (deriveKey_run p s w)
  | |- context [bind (deriveBackupKey ?p ?s) _ ?w] =>
      run_with (deriveBackupKey_run p s w)
  | |- context [bind (subtle_encrypt_AES_GCM ?i ?k ?d) _ ?w] =>
      run_with (subtle_encrypt_AES_GCM_run i k d w)
  | |- context [bind subtle_generateKey_AES256 _ ?w] =>
      run_with (subtle_generateKey_AES256_run w)
  | |- context [bind (subtle_exportKey_raw ?k) _ ?w] =>
      run_with (subtle_exportKey_raw_run k w)
  | |- context [bind (subtle_digest_SHA256 ?d) _ ?w] =>
      run_with (subtle_digest_SHA256_run d w)
  | |- context [bind (draw ?n) _ ?w] => run_with (draw_run n w)
  | |- context [bind (emit ?e) _ ?w] => run_with (emit_run e w)
  | |- context [bind (ret ?a) _ ?w] => run_with (ret_run a w)
  end.

(* ================================================================== *)
(** * Facts: HMAC and PBKDF2 *)
(* ================================================================== *)

Section Stretching.
Context {P : Platform} (L : PlatformLaws P).

Lemma hmac_length k m : length (hmac k m) = 32%nat.
Proof. unfold hmac. apply (sha256_length L). Qed.

Lemma xor_bytes_length a b :
  length a = 32%nat -> length b = 32%nat -> length (xor_bytes a b) = 32%nat.
Proof.
  intros Ha Hb. unfold xor_bytes.
  rewrite length_map, length_combine, Ha, Hb. reflexivity.
Qed.

Lemma pbkdf2_F_length pw salt c i : length (pbkdf2_F pw salt c i) = 32%nat.
Proof.
  unfold pbkdf2_F.
  set (step := fun tu : bytes * bytes => _).
  set (u1 := hmac pw _).
  assert (H : length (fst (N.iter (c - 1) step (u1, u1))) = 32%nat
              /\ length (snd (N.iter (c - 1) step (u1, u1))) = 32%nat).
  { apply N.iter_invariant.
    - intros [t u] [Ht Hu]. cbn [fst snd] in *. subst step. cbn [fst snd].
      split; [apply xor_bytes_length; [exact Ht | apply hmac_length]
             | apply hmac_length].
    - cbn [fst snd]. split; apply hmac_length. }
  exact (proj1 H).
Qed.

(** The derived key has 256 bits. *)
Lemma pbkdf2_length pw salt c : length (pbkdf2 pw salt c 32) = 32%nat.
Proof.
  unfold pbkdf2.
  change ((32 + 31) / 32)%nat with 1%nat. cbn [seq flat_map].
  rewrite app_nil_r, firstn_all2; rewrite pbkdf2_F_length; [reflexivity | lia].
Qed.

Lemma vault_key_length pass salt : length (vault_key pass salt) = 32%nat.
Proof. unfold vault_key. apply pbkdf2_length. Qed.

Lemma backup_key_length pass salt : length (backup_key pass salt) = 32%nat.
Proof. unfold backup_key. apply pbkdf2_length. Qed.

Lemma iter_ext {A} (f g : A -> A) (H : forall x, f x = g x) n a :
  N.iter n f a = N.iter n g a.
Proof.
  induction n as [| n IH] using N.peano_ind; [reflexivity |].
  rewrite !N.iter_succ, IH. apply H.
Qed.

Lemma hmac_same_key k1 k2 m :
  hmac_key k1 = hmac_key k2 -> hmac k1 m = hmac k2 m.
Proof. intros H. unfold hmac. rewrite H. reflexivity. Qed.

(** Passwords that HMAC reads as the same key derive the same key. *)
Lemma pbkdf2_same_key k1 k2 salt c n :
  hmac_key k1 = hmac_key k2 -> pbkdf2 k1 salt c n = pbkdf2 k2 salt c n.
Proof.
  intros H. unfold pbkdf2. f_equal.
  apply flat_map_ext. intros i. unfold pbkdf2_F.
  rewrite (hmac_same_key k1 k2 _ H). f_equal.
  apply iter_ext. intros [t u]. cbn [fst snd].
  rewrite (hmac_same_key k1 k2 _ H). reflexivity.
Qed.

Lemma vault_key_same p1 p2 salt :
  hmac_key (Utf8.encode p1) = hmac_key (Utf8.encode p2) ->
  vault_key p1 salt = vault_key p2 salt.
Proof. intros H. unfold vault_key. apply pbkdf2_same_key. exact H. Qed.

Lemma backup_key_same p1 p2 salt :
  hmac_key (Utf8.encode p1) = hmac_key (Utf8.encode p2) ->
  backup_key p1 salt = backup_key p2 salt.
Proof. intros H. unfold backup_key. apply pbkdf2_same_key. exact H. Qed.

Lemma hmac_key_nul k :
  (length k < 64)%nat -> hmac_key (k ++ [x00]) = hmac_key k.
Proof.
  intros Hk. unfold hmac_key, hmac_block_size.
  rewrite length_app. cbn [length].
  replace (Nat.ltb 64 (length k + 1)) with false
    by (symmetry; apply Nat.ltb_ge; lia).
  replace (Nat.ltb 64 (length k)) with false
    by (symmetry; apply Nat.ltb_ge; lia).
  rewrite length_app. cbn [length].
  rewrite <- app_assoc. f_equal.
  replace (64 - length k)%nat with (S (64 - (length k + 1))) by lia.
  reflexivity.
Qed.

End Stretching.

Lemma to_scalars_nul_aux n : forall s,
  (length s <= n)%nat -> Utf8.to_scalars (s ++ [0]) = Utf8.to_scalars s ++ [0].
Proof.
  induction n as [| n IH]; intros s Hn.
  - destruct s; [reflexivity | cbn [length] in *; lia].
  - destruct s as [| u rest]; [reflexivity |].
    cbn [app Utf8.to_scalars].
    destruct (Utf8.is_lead u).
    + destruct rest as [| v rest']; cbn [app].
      * cbn. reflexivity.
      * destruct (Utf8.is_trail v).
        -- rewrite IH by (cbn [length] in *; lia). reflexivity.
        -- change (v :: rest' ++ [0]) with ((v :: rest') ++ [0]).
           rewrite IH by (cbn [length] in *; lia). reflexivity.
    + destruct (Utf8.is_trail u); rewrite IH by (cbn [length] in *; lia);
        reflexivity.
Qed.

(** U+0000 is one zero byte. *)
Lemma encode_nul s : Utf8.encode (s ++ [0]) = Utf8.encode s ++ [x00].
Proof.
  unfold Utf8.encode. rewrite (to_scalars_nul_aux (length s)) by lia.
  rewrite flat_map_app, map_app. reflexivity.
Qed.

Section SameKey.
Context {P : Platform}.

(** A passphrase of fewer than 64 bytes and the same followed by U+0000
    are one HMAC key. *)
Lemma hmac_key_trailing_nul pass :
  (length (Utf8.encode pass) < 64)%nat ->
  hmac_key (Utf8.encode (pass ++ [0])) = hmac_key (Utf8.encode pass).
Proof. intros H. rewrite encode_nul. apply hmac_key_nul. exact H. Qed.

End SameKey.

(* ================================================================== *)
(** * Facts: crypto.js *)
(* ================================================================== *)

Section Messages.
Context {P : Platform} (L : PlatformLaws P).

(** What [decryptMessage] returns or throws, step by step. *)
Lemma decryptMessage_outcome pkg priv w :
  fst (decryptMessage pkg priv w) =
  match unb64 priv with
  | None => Throw InvalidCharacterError
  | Some raw =>
  match pkcs8_import raw with
  | None => Throw DataError
  | Some sk =>
  match unb64 (encKey pkg) with
  | None => Throw InvalidCharacterError
  | Some e =>
  match rsa_oaep_decrypt sk e with
  | None => Throw OperationError
  | Some k =>
  if (Nat.eqb (length k) 16 || Nat.eqb (length k) 24
      || Nat.eqb (length k) 32)%bool
  then
    match unb64 (iv pkg) with
    | None => Throw InvalidCharacterError
    | Some i =>
    match unb64 (ciphertext pkg) with
    | None => Throw InvalidCharacterError
    | Some c =>
    match aes_gcm_open k i c with
    | None => Throw OperationError
    | Some plain => Ok (Utf8.decode plain)
    end end end
  else Throw DataError
  end end end end.
Proof.
  unfold decryptMessage, bind.
  rewrite importPrivateKey_run.
  destruct (unb64 priv) as [raw |]; [| reflexivity].
  destruct (pkcs8_import raw) as [sk |]; [| reflexivity].
  rewrite base64ToArray_run.
  destruct (unb64 (encKey pkg)) as [e |]; [| reflexivity].
  rewrite subtle_decrypt_RSA_OAEP_run.
  destruct (rsa_oaep_decrypt sk e) as [k |]; [| reflexivity].
  rewrite subtle_importKey_AES_run.
  destruct (_ || _)%bool; [| reflexivity].
  rewrite base64ToArray_run.
  destruct (unb64 (iv pkg)) as [i |]; [| reflexivity].
  rewrite base64ToArray_run.
  destruct (unb64 (ciphertext pkg)) as [c |]; [| reflexivity].
  rewrite subtle_decrypt_AES_GCM_run.
  destruct (aes_gcm_open k i c); reflexivity.
Qed.

(** It reads nothing of the world. *)
Lemma decryptMessage_any_world pkg priv w w' :
  fst (decryptMessage pkg priv w) = fst (decryptMessage pkg priv w').
Proof. rewrite !decryptMessage_outcome. reflexivity. Qed.

Lemma subtle_encrypt_RSA_OAEP_ok key data w t cur c :
  tape w = t -> cursor w = cur ->
  rsa_oaep_encrypt key (read_tape t cur 32) data = Some c ->
  subtle_encrypt_RSA_OAEP key data w
  = (Ok c, advanced 32 (logged (EvEncrypt RSA_OAEP) w)).
Proof.
  intros <- <- Hc. rewrite subtle_encrypt_RSA_OAEP_run, Hc. reflexivity.
Qed.

(** What [encryptMessage] draws and returns when the key imports, the
    wrapping succeeds and the ciphertext fits the arguments of one call;
    and what it throws when the ciphertext does not. *)
Lemma encryptMessage_run text pub pk c w :
  public_key_of pub = Some pk ->
  rsa_oaep_encrypt pk (read_tape (tape w) (cursor w + 32 + 12) 32)
                   (read_tape (tape w) (cursor w) 32) = Some c ->
  length c = 256%nat ->
  fits (length (Utf8.encode text) + 16) ->
  exists w',
    encryptMessage text pub w
    = (Ok {| ciphertext :=
               b64 (aes_gcm_seal (read_tape (tape w) (cursor w) 32)
                                 (read_tape (tape w) (cursor w + 32) 12)
                                 (Utf8.encode text));
             encKey := b64 c;
             iv := b64 (read_tape (tape w) (cursor w + 32) 12) |}, w')
    /\ tape w' = tape w /\ cursor w' = (cursor w + 32 + 12 + 32)%nat.
Proof.
  intros Hpk Hc Hlen Hfits. unfold public_key_of in Hpk.
  destruct (unb64 pub) as [raw |] eqn:Hraw; [| discriminate].
  unfold encryptMessage.
  erewrite bind_ok by (rewrite importPublicKey_run, Hraw, Hpk; reflexivity).
  run.
  match goal with
  | |- context [bind (subtle_encrypt_RSA_OAEP ?k ?d) _ ?w0] =>
      run_with (subtle_encrypt_RSA_OAEP_ok k d w0 (tape w)
                  (cursor w + 32 + 12)%nat c eq_refl eq_refl Hc)
  end.
  run. eexists. split; [reflexivity |]. split; reflexivity.
Qed.

Lemma encryptMessage_too_long text pub pk c w :
  public_key_of pub = Some pk ->
  rsa_oaep_encrypt pk (read_tape (tape w) (cursor w + 32 + 12) 32)
                   (read_tape (tape w) (cursor w) 32) = Some c ->
  ~ fits (length (Utf8.encode text) + 16) ->
  fst (encryptMessage text pub w) = Throw RangeError.
Proof.
  intros Hpk Hc Hlong. unfold public_key_of in Hpk.
  destruct (unb64 pub) as [raw |] eqn:Hraw; [| discriminate].
  unfold encryptMessage.
  erewrite bind_ok by (rewrite importPublicKey_run, Hraw, Hpk; reflexivity).
  run.
  match goal with
  | |- context [bind (subtle_encrypt_RSA_OAEP ?k ?d) _ ?w0] =>
      run_with (subtle_encrypt_RSA_OAEP_ok k d w0 (tape w)
                  (cursor w + 32 + 12)%nat c eq_refl eq_refl Hc)
  end.
  erewrite bind_throw; [reflexivity |].
  apply arrayToBase64_too_long. rewrite (aes_gcm_seal_length L). exact Hlong.
Qed.

End Messages.

Section MessageRoundTrip.
Context {P : Platform} (L : PlatformLaws P).

(** With a valid key, [encryptMessage] throws for a text whose
    ciphertext does not fit. *)
Lemma encryptMessage_refuses text pub priv w :
  valid_keypair pub priv -> ~ fits (length (Utf8.encode text) + 16) ->
  fst (encryptMessage text pub w) = Throw RangeError.
Proof.
  intros (pk & sk & Hpk & Hsk & Hpair) Hlong.
  destruct (rsa_oaep_round_trip L pk sk
              (read_tape (tape w) (cursor w + 32 + 12) 32)
              (read_tape (tape w) (cursor w) 32) Hpair)
    as (c & Hc & _).
  { apply read_tape_length. }
  { rewrite read_tape_length. lia. }
  exact (encryptMessage_too_long L text pub pk c w Hpk Hc Hlong).
Qed.

Lemma decrypt_encrypt_general text pub priv w w' :
  valid_keypair pub priv -> fits (length (Utf8.encode text) + 16) ->
  exists b,
    fst (encryptMessage text pub w) = Ok b
    /\ fst (decryptMessage b priv w')
       = Ok (Utf8.decode (Utf8.encode text))
    /\ wrapped_key priv b = Some (read_tape (tape w) (cursor w) 32).
Proof.
  intros (pk & sk & Hpk & Hsk & Hpair) Hfits.
  destruct (rsa_oaep_round_trip L pk sk
              (read_tape (tape w) (cursor w + 32 + 12) 32)
              (read_tape (tape w) (cursor w) 32) Hpair)
    as (c & Hc & Hlen & Hd).
  { apply read_tape_length. }
  { rewrite read_tape_length. lia. }
  destruct (encryptMessage_run L text pub pk c w Hpk Hc Hlen Hfits)
    as (w1 & Hrun & _).
  eexists. split; [rewrite Hrun; reflexivity |].
  unfold private_key_of in Hsk.
  destruct (unb64 priv) as [raw |] eqn:Hraw; [| discriminate].
  split.
  - rewrite decryptMessage_outcome. cbn [encKey iv ciphertext].
    rewrite Hraw, Hsk, !unb64_b64, Hd, read_tape_length. cbn [Nat.eqb orb].
    rewrite (aes_gcm_round_trip L) by apply read_tape_length.
    reflexivity.
  - unfold wrapped_key, private_key_of. cbn [encKey].
    rewrite Hraw, Hsk, unb64_b64. exact Hd.
Qed.

End MessageRoundTrip.

Section Vault.
Context {P : Platform} (L : PlatformLaws P).

Lemma encryptPrivateKey_run key pass w :
  fits (length (Utf8.encode key) + 16) ->
  fst (encryptPrivateKey key pass w)
  = Ok {| env_ct :=
            b64 (aes_gcm_seal
                   (vault_key pass (read_tape (tape w) (cursor w) 16))
                   (read_tape (tape w) (cursor w + 16) 12)
                   (Utf8.encode key));
          env_salt := b64 (read_tape (tape w) (cursor w) 16);
          env_iv := b64 (read_tape (tape w) (cursor w + 16) 12) |}.
Proof. intros Hfits. unfold encryptPrivateKey, vault_key. run. reflexivity. Qed.

Lemma encryptPrivateKey_too_long key pass w :
  ~ fits (length (Utf8.encode key) + 16) ->
  fst (encryptPrivateKey key pass w) = Throw RangeError.
Proof.
  intros Hlong. unfold encryptPrivateKey. run.
  erewrite bind_throw; [reflexivity |].
  apply arrayToBase64_too_long. rewrite (aes_gcm_seal_length L). exact Hlong.
Qed.

(** What [decryptPrivateKey] returns or throws, step by step. *)
Lemma decryptPrivateKey_outcome pkg pass w :
  fst (decryptPrivateKey pkg pass w) =
  match unb64 (env_salt pkg) with
  | None => Throw InvalidCharacterError
  | Some salt =>
  match unb64 (env_iv pkg) with
  | None => Throw InvalidCharacterError
  | Some iv =>
  match unb64 (env_ct pkg) with
  | None => Throw InvalidCharacterError
  | Some ct =>
  match aes_gcm_open (vault_key pass salt) iv ct with
  | None => Throw OperationError
  | Some plain => Ok (Utf8.decode plain)
  end end end end.
Proof.
  unfold decryptPrivateKey, vault_key, bind.
  rewrite base64ToArray_run.
  destruct (unb64 (env_salt pkg)) as [salt |]; [| reflexivity].
  rewrite base64ToArray_run.
  destruct (unb64 (env_iv pkg)) as [iv |]; [| reflexivity].
  rewrite base64ToArray_run.
  destruct (unb64 (env_ct pkg)) as [ct |]; [| reflexivity].
  rewrite deriveKey_run, subtle_decrypt_AES_GCM_run.
  destruct (aes_gcm_open _ iv ct); reflexivity.
Qed.

Lemma decryptPrivateKey_throws pkg pass w e :
  fst (decryptPrivateKey pkg pass w) = Throw e ->
  e = InvalidCharacterError \/ e = OperationError.
Proof.
  rewrite decryptPrivateKey_outcome.
  destruct (unb64 (env_salt pkg)); [| intros [= <-]; auto].
  destruct (unb64 (env_iv pkg)); [| intros [= <-]; auto].
  destruct (unb64 (env_ct pkg)); [| intros [= <-]; auto].
  destruct (aes_gcm_open _ _ _); [discriminate | intros [= <-]; auto].
Qed.

(** [login] turns whatever [decryptPrivateKey] throws into one message. *)
Lemma login_outcome data password w :
  fst (login (Ok data) password w) =
  match fst (decryptPrivateKey (encryptedPrivateKey data) password w) with
  | Ok k => Ok {| success := true; message := None; session_key := Some k |}
  | Throw _ => Ok {| success := false; message := Some "Login failed"%string;
                     session_key := None |}
  end.
Proof.
  pose proof (decryptPrivateKey_throws (encryptedPrivateKey data) password w)
    as Hthrow.
  unfold login, try_catch, bind, lift.
  destruct (decryptPrivateKey (encryptedPrivateKey data) password w)
    as [[k | e] w1]; cbn [fst] in *; [reflexivity |].
  destruct (Hthrow e eq_refl) as [-> | ->]; reflexivity.
Qed.

End Vault.

Section VaultRoundTrip.
Context {P : Platform} (L : PlatformLaws P).

(** Unwrapping a fresh envelope comes down to opening its ciphertext. *)
Lemma decryptPrivateKey_envelope key pass other w w' env :
  fst (encryptPrivateKey key pass w) = Ok env ->
  fst (decryptPrivateKey env other w')
  = match aes_gcm_open
            (vault_key other (read_tape (tape w) (cursor w) 16))
            (read_tape (tape w) (cursor w + 16) 12)
            (aes_gcm_seal (vault_key pass (read_tape (tape w) (cursor w) 16))
                          (read_tape (tape w) (cursor w + 16) 12)
                          (Utf8.encode key)) with
    | None => Throw OperationError
    | Some plain => Ok (Utf8.decode plain)
    end.
Proof.
  intros Henv.
  destruct (fits_dec (length (Utf8.encode key) + 16)) as [Hf | Hf].
  - rewrite (encryptPrivateKey_run L key pass w Hf) in Henv.
    injection Henv as <-.
    rewrite decryptPrivateKey_outcome. cbn [env_salt env_iv env_ct].
    rewrite !unb64_b64. reflexivity.
  - rewrite (encryptPrivateKey_too_long L key pass w Hf) in Henv.
    discriminate Henv.
Qed.

Lemma vault_round_trip key pass other w w' env :
  fst (encryptPrivateKey key pass w) = Ok env ->
  hmac_key (Utf8.encode other) = hmac_key (Utf8.encode pass) ->
  fst (decryptPrivateKey env other w') = Ok (Utf8.decode (Utf8.encode key)).
Proof.
  intros Henv Hkey.
  rewrite (decryptPrivateKey_envelope key pass other w w' env Henv).
  rewrite (vault_key_same other pass (read_tape (tape w) (cursor w) 16) Hkey).
  rewrite (aes_gcm_round_trip L _ _ _ (vault_key_length L _ _)
             (read_tape_length _ _ _)).
  reflexivity.
Qed.

End VaultRoundTrip.

(* ================================================================== *)
(** * Facts: calls in flight together *)
(* ================================================================== *)

Lemma both_unfold {A B} (a : steps A) sched (b : steps B) w :
  both a sched b w
  = if match sched with false :: _ => false | _ => true end then
      match a with
      | Last m =>
          match m w with
          | (Ok x, w') => (y <- run_steps b ;; ret (x, y)) w'
          | (Throw e, w') => (Throw e, run_on b w')
          end
      | Await m k =>
          match m w with
          | (Ok x, w') => both (k x) (tl sched) b w'
          | (Throw e, w') => (Throw e, run_on b w')
          end
      end
    else
      match b with
      | Last m =>
          match m w with
          | (Ok y, w') => (x <- run_steps a ;; ret (x, y)) w'
          | (Throw e, w') => (Throw e, run_on a w')
          end
      | Await m k =>
          match m w with
          | (Ok y, w') => both a (tl sched) (k y) w'
          | (Throw e, w') => (Throw e, run_on a w')
          end
      end.
Proof. destruct a, b; destruct sched as [| [|] s]; reflexivity. Qed.

Lemma starts_unfold da sched db c :
  starts da sched db c
  = if match sched with false :: _ => false | _ => true end then
      match da with
      | [] => ([], alone db c)
      | d :: da' =>
          let (sa, sb) := starts da' (tl sched) db (c + d)%nat in
          (c :: sa, sb)
      end
    else
      match db with
      | [] => (alone da c, [])
      | d :: db' =>
          let (sa, sb) := starts da (tl sched) db' (c + d)%nat in
          (sa, c :: sb)
      end.
Proof. destruct da, db; destruct sched as [| [|] s]; reflexivity. Qed.

(** Once one call has settled the other goes on by itself, whatever the
    schedule. *)
Lemma starts_nil_l db : forall sched c, starts [] sched db c = ([], alone db c).
Proof.
  induction db as [| d db' IH]; intros sched c; rewrite starts_unfold;
    destruct (match sched with false :: _ => false | _ => true end);
    try reflexivity.
  rewrite IH. reflexivity.
Qed.

Lemma starts_nil_r da : forall sched c, starts da sched [] c = (alone da c, []).
Proof.
  induction da as [| d da' IH]; intros sched c; rewrite starts_unfold;
    destruct (match sched with false :: _ => false | _ => true end);
    try reflexivity.
  rewrite IH. reflexivity.
Qed.

Lemma paced_nil {A} t (Q : list nat -> outcome A -> Prop) cs (s : steps A) :
  ~ paced t [] Q cs s.
Proof. destruct s; intros H; exact H. Qed.

(** A paced call, awaited by itself. *)
Lemma run_paced {A} t (Q : list nat -> outcome A -> Prop) (s : steps A) :
  forall ds cs w,
    paced t ds Q cs s -> tape w = t ->
    exists r w',
      run_steps s w = (r, w') /\ tape w' = t
      /\ cursor w' = (cursor w + list_sum ds)%nat
      /\ Q (cs ++ alone ds (cursor w)) r.
Proof.
  induction s as [m | X m k IH]; intros ds cs w Hp Hw.
  - destruct ds as [| d [| d' ds']]; cbn [paced] in Hp; try contradiction.
    destruct (Hp w Hw) as (r & w' & Hm & Ht & Hc & HQ).
    exists r, w'. cbn [run_steps alone list_sum fold_right].
    repeat split; try assumption. lia.
  - destruct ds as [| d ds']; cbn [paced] in Hp; [contradiction |].
    destruct (Hp w Hw) as (x & w1 & Hm & Ht & Hc & Hnext).
    destruct (IH x ds' _ w1 Hnext Ht) as (r & w' & Hr & Ht' & Hc' & HQ).
    exists r, w'. cbn [run_steps]. rewrite (bind_ok _ _ _ _ _ Hm).
    split; [exact Hr |]. split; [exact Ht' |].
    split; [unfold list_sum in *; cbn [fold_right]; lia |].
    cbn [alone]. rewrite Hc, <- app_assoc in HQ. exact HQ.
Qed.

(** Two paced calls in flight, on any schedule: both run to their end,
    each stretch where [starts] says, and [Promise.all] settles with what
    the two settled with. *)
Lemma both_paced {A B} t (Qa : list nat -> outcome A -> Prop)
  (Qb : list nat -> outcome B -> Prop) (a : steps A) :
  forall da csA,
    paced t da Qa csA a ->
    forall (b : steps B) db csB sched w,
      paced t db Qb csB b -> tape w = t ->
      exists ra rb,
        tape (snd (both a sched b w)) = t
        /\ cursor (snd (both a sched b w))
           = (cursor w + list_sum da + list_sum db)%nat
        /\ Qa (csA ++ fst (starts da sched db (cursor w))) ra
        /\ Qb (csB ++ snd (starts da sched db (cursor w))) rb
        /\ settles ra rb (fst (both a sched b w)).
Proof.
  induction a as [ma | X ma ka IHa]; intros da csA Ha b;
    induction b as [mb | Y mb kb IHb]; intros db csB sched w Hb Hw;
    rewrite both_unfold, starts_unfold;
    destruct (match sched with false :: _ => false | _ => true end).
  1, 3: destruct da as [| d [| d' da']]; cbn [paced] in Ha;
        try contradiction;
        destruct (Ha w Hw) as (ra & w1 & Hm & Ht & Hc & HQa);
        rewrite Hm, starts_nil_l;
        match goal with
        | Hb : paced _ _ _ _ ?b |- _ =>
            destruct (run_paced t Qb b db csB w1 Hb Ht)
              as (rb & w2 & Hr & Ht2 & Hc2 & HQb)
        end;
        exists ra, rb; rewrite Hc in HQb;
        destruct ra as [x | e]; unfold run_on, bind; rewrite Hr;
        destruct rb as [y | e']; cbn [fst snd settles list_sum fold_right ret];
        (repeat split; try assumption;
         try (unfold list_sum in *; cbn [fold_right] in *; lia); auto).
  1, 4: destruct db as [| d [| d' db']]; cbn [paced] in Hb;
        try contradiction;
        destruct (Hb w Hw) as (rb & w1 & Hm & Ht & Hc & HQb);
        rewrite Hm, starts_nil_r;
        match goal with
        | Ha : paced _ _ _ _ ?a |- _ =>
            destruct (run_paced t Qa a da csA w1 Ha Ht)
              as (ra & w2 & Hr & Ht2 & Hc2 & HQa)
        end;
        exists ra, rb; rewrite Hc in HQa;
        destruct rb as [y | e]; unfold run_on, bind; rewrite Hr;
        destruct ra as [x | e']; cbn [fst snd settles list_sum fold_right ret];
        (repeat split; try assumption;
         try (unfold list_sum in *; cbn [fold_right] in *; lia); auto).
  2, 3: destruct da as [| d da']; cbn [paced] in Ha; [contradiction |];
        destruct (Ha w Hw) as (x & w1 & Hm & Ht & Hc & Hnext);
        rewrite Hm;
        destruct da' as [| d' da''];
          [exfalso; exact (paced_nil _ _ _ _ Hnext) |];
        destruct (IHa x (d' :: da'') _ Hnext _ db csB (tl sched) w1 Hb Ht)
          as (ra & rb & Ht' & Hc' & HQa & HQb & Hs);
        exists ra, rb; rewrite Hc in HQa, HQb;
        destruct (starts (d' :: da'') (tl sched) db (cursor w + d))
          as [sa sb];
        cbn [fst snd] in *; rewrite <- app_assoc in HQa;
        (repeat split; try assumption;
         unfold list_sum in *; cbn [fold_right] in *; lia).
  1, 2: destruct db as [| d db']; cbn [paced] in Hb; [contradiction |];
        destruct (Hb w Hw) as (y & w1 & Hm & Ht & Hc & Hnext);
        rewrite Hm;
        destruct db' as [| d' db''];
          [exfalso; exact (paced_nil _ _ _ _ Hnext) |];
        destruct (IHb y (d' :: db'') _ (tl sched) w1 Hnext Ht)
          as (ra & rb & Ht' & Hc' & HQa & HQb & Hs);
        exists ra, rb; rewrite Hc in HQa, HQb;
        match goal with
        | |- context [starts ?da ?s ?db ?c] =>
            destruct (starts da s db c) as [sa sb]
        end;
        cbn [fst snd] in *; rewrite <- app_assoc in HQb;
        (repeat split; try assumption;
         unfold list_sum in *; cbn [fold_right] in *; lia).
Qed.

Lemma alone_apart ds : forall c,
  length (alone ds c) = length ds
  /\ forall i s d,
       nth_error (alone ds c) i = Some s -> nth_error ds i = Some d ->
       (c <= s /\ s + d <= c + list_sum ds)%nat.
Proof.
  induction ds as [| a ds IH]; intros c; cbn [alone length]; split;
    try reflexivity.
  - intros [| i] s d H; discriminate H.
  - rewrite (proj1 (IH _)). reflexivity.
  - unfold list_sum. cbn [fold_right]. fold (list_sum ds).
    intros [| i] s d; cbn [nth_error].
    + intros [= <-] [= <-]. lia.
    + intros Hs Hd. destruct (proj2 (IH (c + a)%nat) i s d Hs Hd). lia.
Qed.

Lemma apart_alone_l db c : apart [] db c [] (alone db c).
Proof.
  destruct (alone_apart db c) as [Hlen Hin]. unfold apart.
  split; [reflexivity |]. split; [exact Hlen |].
  split; [intros [| i] s d H; discriminate H |].
  split; [| intros [| i] j s1 d1 s2 d2 H; discriminate H].
  intros j s d Hs Hd. destruct (Hin j s d Hs Hd). cbn [list_sum fold_right].
  lia.
Qed.

Lemma apart_alone_r da c : apart da [] c (alone da c) [].
Proof.
  destruct (alone_apart da c) as [Hlen Hin]. unfold apart.
  split; [exact Hlen |]. split; [reflexivity |].
  split; [| split; [intros [| j] s d H; discriminate H |]].
  - intros i s d Hs Hd. destruct (Hin i s d Hs Hd).
    cbn [list_sum fold_right]. lia.
  - intros i [| j] s1 d1 s2 d2 _ _ H; discriminate H.
Qed.

Lemma apart_cons_l d da db c sa sb :
  apart da db (c + d) sa sb -> apart (d :: da) db c (c :: sa) sb.
Proof.
  intros (Hla & Hlb & Ha & Hb & Hab). unfold apart.
  unfold list_sum in *. cbn [fold_right length].
  split; [rewrite Hla; reflexivity |]. split; [exact Hlb |].
  split; [| split].
  - intros [| i] s e; cbn [nth_error].
    + intros [= <-] [= <-]. lia.
    + intros Hs He. destruct (Ha i s e Hs He). lia.
  - intros j s e Hs He. destruct (Hb j s e Hs He). lia.
  - intros [| i] j s1 d1 s2 d2; cbn [nth_error].
    + intros [= <-] [= <-] Hs He. destruct (Hb j s2 d2 Hs He). lia.
    + apply Hab.
Qed.

Lemma apart_cons_r d da db c sa sb :
  apart da db (c + d) sa sb -> apart da (d :: db) c sa (c :: sb).
Proof.
  intros (Hla & Hlb & Ha & Hb & Hab). unfold apart.
  unfold list_sum in *. cbn [fold_right length].
  split; [exact Hla |]. split; [rewrite Hlb; reflexivity |].
  split; [| split].
  - intros i s e Hs He. destruct (Ha i s e Hs He). lia.
  - intros [| j] s e; cbn [nth_error].
    + intros [= <-] [= <-]. lia.
    + intros Hs He. destruct (Hb j s e Hs He). lia.
  - intros i [| j] s1 d1 s2 d2; cbn [nth_error].
    + intros Hs He [= <-] [= <-]. destruct (Ha i s1 d1 Hs He). lia.
    + apply Hab.
Qed.

(** On any schedule, no stretch of one call overlaps a stretch of the
    other. *)
Lemma starts_apart da : forall db sched c,
  apart da db c (fst (starts da sched db c)) (snd (starts da sched db c)).
Proof.
  induction da as [| d da' IHa]; intros db;
    induction db as [| e db' IHb]; intros sched c;
    rewrite starts_unfold;
    destruct (match sched with false :: _ => false | _ => true end);
    cbn [fst snd];
    try apply apart_alone_l; try apply apart_alone_r.
  - specialize (IHb (tl sched) (c + e)%nat).
    destruct (starts [] (tl sched) db' (c + e)) as [sa sb].
    apply apart_cons_r. exact IHb.
  - specialize (IHa [] (tl sched) (c + d)%nat).
    destruct (starts da' (tl sched) [] (c + d)) as [sa sb].
    apply apart_cons_l. exact IHa.
  - specialize (IHa (e :: db') (tl sched) (c + d)%nat).
    destruct (starts da' (tl sched) (e :: db') (c + d)) as [sa sb].
    apply apart_cons_l. exact IHa.
  - specialize (IHb (tl sched) (c + e)%nat).
    destruct (starts (d :: da') (tl sched) db' (c + e)) as [sa sb].
    apply apart_cons_r. exact IHb.
Qed.



Section SendMessage.
Context {P : Platform} (L : PlatformLaws P).

(** A bundle sealed under a key of 32 bytes opens for the holder of the
    private key that unwraps it. *)
Lemma bundle_opens text priv sk key nonce c w :
  private_key_of priv = Some sk -> rsa_oaep_decrypt sk c = Some key ->
  length key = 32%nat -> length nonce = 12%nat ->
  let b := {| ciphertext := b64 (aes_gcm_seal key nonce (Utf8.encode text));
              encKey := b64 c; iv := b64 nonce |} in
  fst (decryptMessage b priv w) = Ok (Utf8.decode (Utf8.encode text))
  /\ wrapped_key priv b = Some key.
Proof.
  intros Hsk Hd Hkey Hnonce. cbv zeta. unfold private_key_of in Hsk.
  destruct (unb64 priv) as [raw |] eqn:Hraw; [| discriminate].
  split.
  - rewrite decryptMessage_outcome. cbn [encKey iv ciphertext].
    rewrite Hraw, Hsk, !unb64_b64, Hd, Hkey. cbn [Nat.eqb orb].
    rewrite (aes_gcm_round_trip L _ _ _ Hkey Hnonce). reflexivity.
  - unfold wrapped_key, private_key_of. cbn [encKey].
    rewrite Hraw, Hsk, unb64_b64. exact Hd.
Qed.

(** [encryptMessage], stretch by stretch, for a key that imports. *)
Lemma encryptMessage_paced t text pub pk sk :
  public_key_of pub = Some pk -> rsa_pair pk sk ->
  paced t encryptMessage_draws (sealed_bundle t text pk) []
        (encryptMessage_steps text pub).
Proof.
  intros Hpk Hpair. unfold public_key_of in Hpk.
  destruct (unb64 pub) as [raw |] eqn:Hraw; [| discriminate].
  unfold encryptMessage_steps, encryptMessage_draws. cbn [paced app].
  intros w1 H1. exists pk, (logged (EvImportKey RSA_OAEP) w1).
  split; [rewrite importPublicKey_run, Hraw, Hpk; reflexivity |].
  split; [exact H1 |]. split; [cbn [cursor logged]; lia |].
  intros w2 H2.
  exists (read_tape (tape w2) (cursor w2) 32),
    (advanced 32 (logged (EvGenerateKey AES_GCM) w2)).
  split; [reflexivity |]. split; [exact H2 |]. split; [reflexivity |].
  intros w3 H3. eexists _, _.
  split; [apply subtle_exportKey_raw_run |]. split; [exact H3 |].
  split; [cbn [cursor logged]; lia |].
  intros w4 H4.
  exists (read_tape (tape w4) (cursor w4) 12,
          aes_gcm_seal (read_tape (tape w2) (cursor w2) 32)
                       (read_tape (tape w4) (cursor w4) 12)
                       (Utf8.encode text)),
    (logged (EvEncrypt AES_GCM) (advanced 12 (logged (EvRandom 12) w4))).
  split; [reflexivity |]. split; [exact H4 |]. split; [reflexivity |].
  intros w5 H5.
  destruct (rsa_oaep_round_trip L pk sk
              (read_tape (tape w5) (cursor w5) 32)
              (read_tape (tape w2) (cursor w2) 32) Hpair)
    as (c & Hc & Hlen & Hd).
  { apply read_tape_length. }
  { rewrite read_tape_length. lia. }
  exists c, (advanced 32 (logged (EvEncrypt RSA_OAEP) w5)).
  split; [apply (subtle_encrypt_RSA_OAEP_ok _ _ w5 _ _ c eq_refl eq_refl Hc) |].
  split; [exact H5 |]. split; [reflexivity |].
  intros w6 H6. cbn [fst snd].
  rewrite H5, H2 in Hc.
  destruct (fits_dec (length (Utf8.encode text) + 16)) as [Hf | Hf].
  - eexists (Ok _), w6. split; [run; reflexivity |].
    split; [exact H6 |]. split; [lia |].
    unfold sealed_bundle. cbn [nth]. exists c.
    split; [exact Hc |]. split; [exact Hlen |].
    split; [intros _; rewrite H2, H4; reflexivity | intros H; contradiction].
  - exists (Throw RangeError), w6. split.
    { erewrite bind_throw; [reflexivity |].
      apply arrayToBase64_too_long. rewrite (aes_gcm_seal_length L).
      exact Hf. }
    split; [exact H6 |]. split; [lia |].
    unfold sealed_bundle. cbn [nth]. exists c.
    split; [exact Hc |]. split; [exact Hlen |].
    split; [intros H; contradiction | intros _; reflexivity].
Qed.

(** [encryptMessage] awaited by itself is its stretches run in a row. *)
Lemma encryptMessage_steps_run text pub w :
  run_steps (encryptMessage_steps text pub) w = encryptMessage text pub w.
Proof.
  unfold encryptMessage_steps, encryptMessage. cbn [run_steps].
  unfold bind.
  destruct (importPublicKey pub w) as [[pk | e] w1]; [| reflexivity].
  destruct (subtle_generateKey_AES256 w1) as [[key | e] w2]; [| reflexivity].
  destruct (subtle_exportKey_raw key w2) as [[raw | e] w3]; [| reflexivity].
  destruct (getRandomValues 12 w3) as [[nonce | e] w4]; [| reflexivity].
  destruct (subtle_encrypt_AES_GCM nonce key (Utf8.encode text) w4)
    as [[ct | e] w5]; [| reflexivity].
  cbn [ret fst snd]. reflexivity.
Qed.

(** The two calls of [sendMessage], on any schedule: where each draws
    its key, and what the promise settles with. *)
Lemma sendMessage_run sched text pub1 priv1 pub2 priv2 w w1 w2 :
  valid_keypair pub1 priv1 -> valid_keypair pub2 priv2 ->
  let cs := starts encryptMessage_draws (true :: false :: sched)
                   encryptMessage_draws (cursor w) in
  let c1 := nth 1 (fst cs) 0%nat in
  let c2 := nth 1 (snd cs) 0%nat in
  (cursor w <= c1 /\ c1 + 32 <= cursor w + 152)%nat
  /\ (cursor w <= c2 /\ c2 + 32 <= cursor w + 152)%nat
  /\ (c1 + 32 <= c2 \/ c2 + 32 <= c1)%nat
  /\ tape (snd (sendMessage sched text pub1 pub2 w)) = tape w
  /\ cursor (snd (sendMessage sched text pub1 pub2 w)) = (cursor w + 152)%nat
  /\ (fits (length (Utf8.encode text) + 16) ->
      exists b1 b2,
        fst (sendMessage sched text pub1 pub2 w) = Ok (b1, b2)
        /\ wrapped_key priv1 b1 = Some (read_tape (tape w) c1 32)
        /\ wrapped_key priv2 b2 = Some (read_tape (tape w) c2 32)
        /\ fst (decryptMessage b1 priv1 w1)
           = Ok (Utf8.decode (Utf8.encode text))
        /\ fst (decryptMessage b2 priv2 w2)
           = Ok (Utf8.decode (Utf8.encode text)))
  /\ (~ fits (length (Utf8.encode text) + 16) ->
      fst (sendMessage sched text pub1 pub2 w) = Throw RangeError).
Proof.
  intros (pk1 & sk1 & Hpk1 & Hsk1 & Hpair1) (pk2 & sk2 & Hpk2 & Hsk2 & Hpair2).
  cbv zeta.
  pose proof (starts_apart encryptMessage_draws encryptMessage_draws
                (true :: false :: sched) (cursor w))
    as (Hla & Hlb & Ha & Hb & Hab).
  destruct (both_paced (tape w) _ _ _ _ []
              (encryptMessage_paced (tape w) text pub1 pk1 sk1 Hpk1 Hpair1)
              _ _ [] (true :: false :: sched) w
              (encryptMessage_paced (tape w) text pub2 pk2 sk2 Hpk2 Hpair2)
              eq_refl)
    as (r1 & r2 & Ht & Hc & (e1 & He1 & Hlen1 & Hok1 & Hno1)
        & (e2 & He2 & Hlen2 & Hok2 & Hno2) & Hs).
  fold (sendMessage sched text pub1 pub2) in Ht, Hc, Hs.
  cbn [app] in *.
  destruct (starts encryptMessage_draws (true :: false :: sched)
              encryptMessage_draws (cursor w)) as [sa sb].
  cbn [fst snd] in *.
  assert (H1 : nth_error sa 1 = Some (nth 1 sa 0%nat))
    by (apply nth_error_nth'; rewrite Hla; cbn; lia).
  assert (H2 : nth_error sb 1 = Some (nth 1 sb 0%nat))
    by (apply nth_error_nth'; rewrite Hlb; cbn; lia).
  pose proof (Ha 1%nat _ 32%nat H1 eq_refl) as Ha1.
  pose proof (Hb 1%nat _ 32%nat H2 eq_refl) as Hb1.
  pose proof (Hab 1%nat 1%nat _ 32%nat _ 32%nat H1 eq_refl H2 eq_refl) as Hab1.
  cbn [list_sum fold_right encryptMessage_draws Nat.add] in Ha1, Hb1, Hc.
  split; [lia |]. split; [lia |]. split; [exact Hab1 |].
  split; [exact Ht |]. split; [lia |]. split.
  - intros Hf. specialize (Hok1 Hf). specialize (Hok2 Hf). subst r1 r2.
    cbn [settles] in Hs.
    destruct (rsa_oaep_round_trip L pk1 sk1
                (read_tape (tape w) (nth 4 sa 0%nat) 32)
                (read_tape (tape w) (nth 1 sa 0%nat) 32) Hpair1)
      as (e1' & He1' & _ & Hd1).
    { apply read_tape_length. }
    { rewrite read_tape_length. lia. }
    destruct (rsa_oaep_round_trip L pk2 sk2
                (read_tape (tape w) (nth 4 sb 0%nat) 32)
                (read_tape (tape w) (nth 1 sb 0%nat) 32) Hpair2)
      as (e2' & He2' & _ & Hd2).
    { apply read_tape_length. }
    { rewrite read_tape_length. lia. }
    rewrite He1 in He1'. injection He1' as <-.
    rewrite He2 in He2'. injection He2' as <-.
    destruct (bundle_opens text priv1 sk1
                (read_tape (tape w) (nth 1 sa 0%nat) 32)
                (read_tape (tape w) (nth 3 sa 0%nat) 12) e1 w1 Hsk1 Hd1
                (read_tape_length _ _ _) (read_tape_length _ _ _))
      as [Hdec1 Hkey1].
    destruct (bundle_opens text priv2 sk2
                (read_tape (tape w) (nth 1 sb 0%nat) 32)
                (read_tape (tape w) (nth 3 sb 0%nat) 12) e2 w2 Hsk2 Hd2
                (read_tape_length _ _ _) (read_tape_length _ _ _))
      as [Hdec2 Hkey2].
    eexists _, _. split; [exact Hs |]. repeat split; assumption.
  - intros Hf. specialize (Hno1 Hf). specialize (Hno2 Hf). subst r1 r2.
    cbn [settles] in Hs. destruct Hs as [Hs | Hs]; exact Hs.
Qed.


End SendMessage.

Section KeyIssue.
Context {P : Platform} (L : PlatformLaws P).



End KeyIssue.

(** Flipping one of its eight bits changes a byte. *)
Lemma flipped_byte_differs b bit :
  bit < 8 -> byte_of_N (N.lxor (Byte.to_N b) (2 ^ bit)) <> b.
Proof.
  intros Hbit Heq. apply (f_equal Byte.to_N) in Heq.
  rewrite to_N_byte_of_N in Heq.
  apply (f_equal (fun n => N.testbit n bit)) in Heq.
  change 256 with (2 ^ 8) in Heq.
  rewrite N.mod_pow2_bits_low, N.lxor_spec, N.pow2_bits_true in Heq
    by exact Hbit.
  destruct (N.testbit (Byte.to_N b) bit); discriminate.
Qed.

Lemma flip_byte_length bs : forall i bit,
  length (flip_byte bs i bit) = length bs.
Proof.
  induction bs as [| b bs IH]; intros [| i] bit; cbn [flip_byte length];
    try reflexivity.
  rewrite IH. reflexivity.
Qed.

Lemma flip_byte_differs bs : forall i bit,
  (i < length bs)%nat -> bit < 8 -> flip_byte bs i bit <> bs.
Proof.
  induction bs as [| b bs IH]; intros [| i] bit Hi Hbit;
    cbn [flip_byte length] in *; try lia.
  - intros [= H]. exact (flipped_byte_differs b bit Hbit H).
  - intros [= H]. apply (IH i bit); [lia | exact Hbit | exact H].
Qed.

Section Tampering.
Context {P : Platform} (L : PlatformLaws P).

(** When [decryptMessage] returns a plaintext, both primitives accepted. *)
Lemma decryptMessage_accepts b' priv w' p :
  fst (decryptMessage b' priv w') = Ok p ->
  exists k i c plain,
    wrapped_key priv b' = Some k
    /\ unb64 (iv b') = Some i /\ unb64 (ciphertext b') = Some c
    /\ aes_gcm_open k i c = Some plain /\ p = Utf8.decode plain.
Proof.
  rewrite decryptMessage_outcome. unfold wrapped_key, private_key_of.
  destruct (unb64 priv) as [raw |]; [| discriminate].
  destruct (pkcs8_import raw) as [sk |]; [| discriminate].
  destruct (unb64 (encKey b')) as [e |]; [| discriminate].
  destruct (rsa_oaep_decrypt sk e) as [k |]; [| discriminate].
  destruct (_ || _)%bool; [| discriminate].
  destruct (unb64 (iv b')) as [i |]; [| discriminate].
  destruct (unb64 (ciphertext b')) as [c |]; [| discriminate].
  destruct (aes_gcm_open k i c) as [plain |] eqn:Hopen; [| discriminate].
  intros [= <-]. exists k, i, c, plain. repeat split. exact Hopen.
Qed.

(** The outcome depends on the bundle through its decoded bytes only. *)
Lemma decryptMessage_same_bytes b b' priv w' :
  unb64 (ciphertext b') = unb64 (ciphertext b) ->
  unb64 (encKey b') = unb64 (encKey b) ->
  unb64 (iv b') = unb64 (iv b) ->
  fst (decryptMessage b' priv w') = fst (decryptMessage b priv w').
Proof.
  intros Hc Hk Hi. rewrite !decryptMessage_outcome, Hc, Hk, Hi. reflexivity.
Qed.

(** A fresh bundle with other nonce bytes or other tag bytes is refused. *)
Lemma fresh_bundle_tampered text pub priv w w' b :
  valid_keypair pub priv ->
  fst (encryptMessage text pub w) = Ok b ->
    fits (length (Utf8.encode text) + 16)
    /\ fst (decryptMessage b priv w') = Ok (Utf8.decode (Utf8.encode text))
    /\ (exists c nonce,
          encKey b = b64 c /\ length c = 256%nat
          /\ iv b = b64 nonce /\ length nonce = 12%nat)
    /\ (forall iv',
          length iv' = 12%nat ->
          Some iv' <> unb64 (iv b) ->
          fst (decryptMessage {| ciphertext := ciphertext b;
                                 encKey := encKey b; iv := b64 iv' |}
                              priv w') = Throw OperationError)
    /\ (forall body t t',
          unb64 (ciphertext b) = Some (body ++ t) ->
          length t = 16%nat -> length t' = 16%nat -> t' <> t ->
          fst (decryptMessage {| ciphertext := b64 (body ++ t');
                                 encKey := encKey b; iv := iv b |}
                              priv w') = Throw OperationError).
Proof.
  intros (pk & sk & Hpk & Hsk & Hpair) Hb.
  destruct (rsa_oaep_round_trip L pk sk
              (read_tape (tape w) (cursor w + 32 + 12) 32)
              (read_tape (tape w) (cursor w) 32) Hpair)
    as (c & Hc & Hlen & Hd).
  { apply read_tape_length. }
  { rewrite read_tape_length. lia. }
  destruct (fits_dec (length (Utf8.encode text) + 16)) as [Hfits | Hlong].
  2: { rewrite (encryptMessage_too_long L text pub pk c w Hpk Hc Hlong) in Hb.
       discriminate Hb. }
  destruct (encryptMessage_run L text pub pk c w Hpk Hc Hlen Hfits)
    as (w1 & Hrun & _).
  rewrite Hrun in Hb. cbn [fst] in Hb. injection Hb as <-.
  split; [exact Hfits |].
  unfold private_key_of in Hsk.
  destruct (unb64 priv) as [raw |] eqn:Hraw; [| discriminate].
  split; [| split; [| split]].
  - rewrite decryptMessage_outcome. cbn [encKey iv ciphertext].
    rewrite Hraw, Hsk, !unb64_b64, Hd, read_tape_length. cbn [Nat.eqb orb].
    rewrite (aes_gcm_round_trip L _ _ _ (read_tape_length _ _ _)
               (read_tape_length _ _ _)).
    reflexivity.
  - exists c, (read_tape (tape w) (cursor w + 32) 12). cbn [encKey iv].
    split; [reflexivity |]. split; [exact Hlen |].
    split; [reflexivity | apply read_tape_length].
  - intros iv' Hlen' Hne. cbn [iv] in Hne. rewrite unb64_b64 in Hne.
    rewrite decryptMessage_outcome. cbn [encKey iv ciphertext].
    rewrite Hraw, Hsk, !unb64_b64, Hd, read_tape_length. cbn [Nat.eqb orb].
    rewrite (aes_gcm_nonce_bound L _ _ iv' _ (read_tape_length _ _ _)
               (read_tape_length _ _ _) Hlen');
      [reflexivity | intros Heq; apply Hne; rewrite Heq; reflexivity].
  - intros body t t' Hsplit Ht Ht' Hne. cbn [ciphertext] in Hsplit.
    rewrite unb64_b64 in Hsplit. injection Hsplit as Hsplit.
    rewrite decryptMessage_outcome. cbn [encKey iv ciphertext].
    rewrite Hraw, Hsk, !unb64_b64, Hd, read_tape_length. cbn [Nat.eqb orb].
    rewrite (aes_gcm_tag_bound L _ _ _ body t t' (read_tape_length _ _ _)
               (read_tape_length _ _ _) Hsplit Ht Ht' Hne).
    reflexivity.
Qed.

End Tampering.

Lemma join_empty_sep {A} (f : A -> jsstring) l :
  join [] (map f l) = flat_map f l.
Proof.
  induction l as [| a l IH]; [reflexivity |].
  cbn [map flat_map]. rewrite <- IH.
  destruct (map f l); cbn [join app]; [rewrite app_nil_r |]; reflexivity.
Qed.

Lemma toUpperCase_hex_digit d :
  d < 16 -> toUpperCase [hex_digit d] = [upper_hex_digit d].
Proof.
  intros Hd. unfold toUpperCase, hex_digit, upper_hex_digit. cbn [map].
  destruct (N.ltb_spec d 10).
  - replace (97 <=? 48 + d) with false by (symmetry; apply N.leb_gt; lia).
    reflexivity.
  - replace (97 <=? 97 + (d - 10)) with true by (symmetry; apply N.leb_le; lia).
    replace (97 + (d - 10) <=? 122) with true
      by (symmetry; apply N.leb_le; lia).
    cbn [andb]. f_equal. lia.
Qed.

Lemma toUpperCase_app a b :
  toUpperCase (a ++ b) = toUpperCase a ++ toUpperCase b.
Proof. apply map_app. Qed.

(** One byte as the source prints it: two uppercase digits. *)
Lemma byte_hex n :
  n < 256 ->
  toUpperCase (padStart2 (toString16 n))
  = [upper_hex_digit (n / 16); upper_hex_digit (n mod 16)].
Proof.
  intros Hn. unfold toString16, padStart2.
  destruct (N.ltb_spec n 16); cbn [length Nat.sub repeat app].
  - change [48; hex_digit n] with ([hex_digit 0] ++ [hex_digit n]).
    rewrite toUpperCase_app, !toUpperCase_hex_digit by lia.
    cbn [app]. f_equal; [f_equal; lia | f_equal; f_equal; lia].
  - change [hex_digit (n / 16); hex_digit (n mod 16)]
      with ([hex_digit (n / 16)] ++ [hex_digit (n mod 16)]).
    rewrite toUpperCase_app, !toUpperCase_hex_digit by lia. reflexivity.
Qed.

Lemma hex_of_hash hash :
  toUpperCase
    (join [] (map (fun b => padStart2 (toString16 (Byte.to_N b))) hash))
  = hex_upper hash.
Proof.
  rewrite join_empty_sep. unfold hex_upper.
  induction hash as [| b hash IH]; [reflexivity |].
  cbn [flat_map]. rewrite toUpperCase_app, IH, byte_hex; [reflexivity |].
  pose proof (Byte.to_N_bounded b). lia.
Qed.


Lemma match_dot4_blocks_aux n : forall s,
  (length s <= n)%nat -> Forall plain_char s -> match_dot4 s = blocks4 s.
Proof.
  induction n as [| n IH]; intros s Hn Hs.
  - destruct s; [reflexivity | cbn [length] in Hn; lia].
  - destruct s as [| a [| b [| c [| d rest]]]]; try reflexivity.
    cbn [match_dot4 blocks4 forallb].
    repeat match goal with
    | H : Forall _ (_ :: _) |- _ => apply Forall_cons_iff in H; destruct H
    end.
    unfold plain_char in *.
    repeat match goal with H : is_line_terminator _ = false |- _ =>
      rewrite H; clear H end.
    cbn [negb andb]. rewrite IH; [reflexivity | cbn [length] in Hn; lia |
                                   assumption].
Qed.

Lemma upper_hex_plain d : d < 16 -> plain_char (upper_hex_digit d).
Proof.
  intros Hd. unfold plain_char, is_line_terminator, upper_hex_digit.
  destruct (N.ltb_spec d 10);
    repeat (apply orb_false_iff; split); apply N.eqb_neq; lia.
Qed.

Lemma hex_upper_plain hash : Forall plain_char (hex_upper hash).
Proof.
  unfold hex_upper. induction hash as [| b hash IH]; [constructor |].
  cbn [flat_map app]. pose proof (Byte.to_N_bounded b).
  repeat constructor; try (apply upper_hex_plain; lia). exact IH.
Qed.

(** The source's chain of string operations gives the fingerprint the
    specification words, for any digest of two bytes or more. *)
Lemma fingerprint_format_spec hash :
  (2 <= length hash)%nat ->
  fingerprint_format hash = Ok (fingerprint_spec hash).
Proof.
  intros Hlen. unfold fingerprint_format, fingerprint_spec.
  rewrite hex_of_hash.
  rewrite (match_dot4_blocks_aux (length (hex_upper hash)))
    by (try apply hex_upper_plain; lia).
  destruct hash as [| b1 [| b2 rest]]; cbn [length] in Hlen; try lia.
  reflexivity.
Qed.

Lemma upper_hex_char d : d < 16 -> fingerprint_char (upper_hex_digit d).
Proof.
  intros Hd. unfold fingerprint_char, upper_hex_digit.
  destruct (N.ltb_spec d 10); lia.
Qed.

(** For a 32-byte digest: 79 characters, digits [0-9A-F] and spaces. *)
Lemma fingerprint_spec_shape hash :
  length hash = 32%nat ->
  length (fingerprint_spec hash) = 79%nat
  /\ Forall fingerprint_char (fingerprint_spec hash).
Proof.
  intros Hlen.
  do 33 (destruct hash as [| ? hash]; try discriminate).
  split; [reflexivity |].
  unfold fingerprint_spec, hex_upper.
  cbn [flat_map app blocks4 join str map list_ascii_of_string N_of_ascii
       N_of_digits N.add N.mul].
  repeat (apply Forall_cons; [
    first [ apply upper_hex_char;
            match goal with |- context [Byte.to_N ?b] =>
              pose proof (Byte.to_N_bounded b); lia end
          | left; reflexivity ] |]).
  constructor.
Qed.

Section Fingerprint.
Context {P : Platform}.

Lemma getKeyFingerprint_outcome pub w :
  fst (getKeyFingerprint pub w) =
  match unb64 pub with
  | None => Throw InvalidCharacterError
  | Some raw => fingerprint_format (sha256 raw)
  end.
Proof.
  unfold getKeyFingerprint, bind. rewrite base64ToArray_run.
  destruct (unb64 pub) as [raw |]; [| reflexivity].
  rewrite subtle_digest_SHA256_run. reflexivity.
Qed.

End Fingerprint.

(* ================================================================== *)
(** * Facts: backup.js *)
(* ================================================================== *)

Lemma jsstring_eqb_eq a b : jsstring_eqb a b = true <-> a = b.
Proof.
  revert b. induction a as [| x a IH]; intros [| y b]; cbn [jsstring_eqb];
    try (split; [discriminate | discriminate]); [split; reflexivity |].
  rewrite andb_true_iff, N.eqb_eq, IH. split.
  - intros [-> ->]. reflexivity.
  - intros [= -> ->]. split; reflexivity.
Qed.

Section Backup.
Context {P : Platform} (L : PlatformLaws P).

Lemma get_prop_run (v : json number) k w :
  v <> JNull -> get_prop (Some v) k w = (Ok (field v k), w).
Proof. intros Hv. destruct v; try reflexivity. contradiction. Qed.

Lemma strict_neq_string_false v s :
  strict_neq_string v s = false <-> v = Some (JStr s).
Proof.
  unfold strict_neq_string.
  destruct v as [[| | | s' | |] |]; try (split; discriminate).
  rewrite negb_false_iff, jsstring_eqb_eq. split.
  - intros ->. reflexivity.
  - intros [= ->]. reflexivity.
Qed.

(** A match that only singles out [null]. *)
Lemma not_null_match {A} (pkg : json number) (a b : A) :
  pkg <> JNull ->
  match pkg with
  | JNull => a
  | JBool _ | JNum _ | JStr _ | JArr _ | JObj _ => b
  end = b.
Proof. intros H. destruct pkg; try reflexivity. contradiction. Qed.

(** What [decryptBackup] returns or throws and the world it leaves, step
    by step. *)
Lemma decryptBackup_outcome content pw w :
  decryptBackup content pw w =
  match JSON_parse content with
  | None => (Throw (Error msg_invalid_json), w)
  | Some pkg =>
  match pkg with
  | JNull => (Throw TypeError, w)
  | _ =>
  if strict_neq_string (field pkg (str "magic")) BACKUP_MAGIC
  then (Throw (Error msg_not_a_backup), w)
  else
  match unb64 (ToString (field pkg (str "salt"))) with
  | None => (Throw (Error msg_wrong_password), w)
  | Some salt =>
  match unb64 (ToString (field pkg (str "iv"))) with
  | None => (Throw (Error msg_wrong_password), w)
  | Some iv =>
  match unb64 (ToString (field pkg (str "ciphertext"))) with
  | None => (Throw (Error msg_wrong_password), w)
  | Some ct =>
  match aes_gcm_open (backup_key pw salt) iv ct with
  | None => (Throw (Error msg_wrong_password), decode_trace w)
  | Some plain =>
  match JSON_parse (Utf8.decode plain) with
  | None => (Throw (Error msg_wrong_password), decode_trace w)
  | Some v => (Ok v, decode_trace w)
  end end end end end
  end
  end.
Proof.
  unfold decryptBackup, bind at 1, try_catch at 1, JSON_parse_or_throw.
  destruct (JSON_parse content) as [pkg |]; [| reflexivity].
  assert (Hmain : pkg <> JNull ->
    bind (get_prop (Some pkg) (str "magic"))
      (fun magic =>
       if strict_neq_string magic BACKUP_MAGIC
       then throw (Error msg_not_a_backup)
       else
        try_catch
          (salt64 <- get_prop (Some pkg) (str "salt");;
           salt <- base64ToArray (ToString salt64);;
           iv64 <- get_prop (Some pkg) (str "iv");;
           iv <- base64ToArray (ToString iv64);;
           ciphertext64 <- get_prop (Some pkg) (str "ciphertext");;
           ciphertext <- base64ToArray (ToString ciphertext64);;
           key <- deriveBackupKey pw salt;;
           decrypted <- subtle_decrypt_AES_GCM iv key ciphertext;;
           match JSON_parse (Utf8.decode decrypted) with
           | Some v => ret v
           | None => throw SyntaxError
           end) (fun _ : js_error => throw (Error msg_wrong_password))) w
    = if strict_neq_string (field pkg (str "magic")) BACKUP_MAGIC
      then (Throw (Error msg_not_a_backup), w)
      else
      match unb64 (ToString (field pkg (str "salt"))) with
      | None => (Throw (Error msg_wrong_password), w)
      | Some salt =>
      match unb64 (ToString (field pkg (str "iv"))) with
      | None => (Throw (Error msg_wrong_password), w)
      | Some iv =>
      match unb64 (ToString (field pkg (str "ciphertext"))) with
      | None => (Throw (Error msg_wrong_password), w)
      | Some ct =>
      match aes_gcm_open (backup_key pw salt) iv ct with
      | None => (Throw (Error msg_wrong_password), decode_trace w)
      | Some plain =>
      match JSON_parse (Utf8.decode plain) with
      | None => (Throw (Error msg_wrong_password), decode_trace w)
      | Some v => (Ok v, decode_trace w)
      end end end end end).
  { intros Hnn. unfold backup_key.
    rewrite (bind_ok _ _ _ _ _ (get_prop_run pkg (str "magic") w Hnn)).
    destruct (strict_neq_string _ _); [reflexivity |].
    unfold try_catch.
    rewrite (bind_ok _ _ _ _ _ (get_prop_run pkg (str "salt") w Hnn)).
    unfold bind at 1. rewrite base64ToArray_run.
    destruct (unb64 (ToString (field pkg (str "salt")))) as [salt |];
      [| reflexivity].
    rewrite (bind_ok _ _ _ _ _ (get_prop_run pkg (str "iv") w Hnn)).
    unfold bind at 1. rewrite base64ToArray_run.
    destruct (unb64 (ToString (field pkg (str "iv")))) as [iv |];
      [| reflexivity].
    rewrite (bind_ok _ _ _ _ _ (get_prop_run pkg (str "ciphertext") w Hnn)).
    unfold bind at 1. rewrite base64ToArray_run.
    destruct (unb64 (ToString (field pkg (str "ciphertext")))) as [ct |];
      [| reflexivity].
    run. unfold bind. rewrite subtle_decrypt_AES_GCM_run.
    destruct (aes_gcm_open _ iv ct) as [plain |]; [| reflexivity].
    destruct (JSON_parse (Utf8.decode plain)); reflexivity. }
  destruct pkg; try (apply Hmain; discriminate).
  reflexivity.
Qed.

Lemma encryptBackup_run data pw w :
  has_owner data ->
  fits (length (Utf8.encode (JSON_stringify 0 data)) + 16) ->
  fst (encryptBackup data pw w)
  = Ok (JSON_stringify 2 (envelope_of data pw w (str "1.0"))).
Proof.
  intros (Hd & o & Ho & Hon) Hfits. unfold encryptBackup. run.
  unfold Date_toISOString at 1.
  unfold bind at 1. cbv beta iota. run.
  rewrite (bind_ok _ _ _ _ _ (get_prop_run data (str "stats") _ Hd)).
  rewrite (bind_ok _ _ _ _ _ (get_prop_run data (str "owner") _ Hd)).
  rewrite Ho.
  rewrite (bind_ok _ _ _ _ _ (get_prop_run o (str "username") _ Hon)).
  unfold envelope_of, backup_key. rewrite Ho. reflexivity.
Qed.

(** A payload whose ciphertext does not fit the arguments of one call
    makes [encryptBackup] throw, whatever else it holds. *)
Lemma encryptBackup_too_long data pw w :
  ~ fits (length (Utf8.encode (JSON_stringify 0 data)) + 16) ->
  fst (encryptBackup data pw w) = Throw RangeError.
Proof.
  intros Hlong. unfold encryptBackup. run.
  unfold Date_toISOString at 1.
  unfold bind at 1. cbv beta iota. run.
  erewrite bind_throw; [reflexivity |].
  apply arrayToBase64_too_long. rewrite (aes_gcm_seal_length L). exact Hlong.
Qed.

Lemma canonical_lookup fields k (v : json number) :
  canonical (JObj fields) = true -> lookup k fields = Some v ->
  canonical v = true.
Proof.
  cbn [canonical]. intros H. apply andb_true_iff in H as [H _]. revert H.
  induction fields as [| [k' v'] fields IH]; cbn [lookup forallb fst snd];
    [discriminate |].
  intros H. apply andb_true_iff in H as [Hv H].
  destruct (jsstring_eqb k k').
  - intros [= <-]. apply andb_true_iff in Hv as [_ Hv]. exact Hv.
  - apply IH. exact H.
Qed.

Lemma canonical_field (v x : json number) k :
  canonical v = true -> field v k = Some x -> canonical x = true.
Proof.
  destruct v; cbn [field]; try discriminate. apply canonical_lookup.
Qed.

End Backup.

Section BackupRoundTrip.
Context {P : Platform} (L : PlatformLaws P).

Lemma envelope_canonical data pw w version :
  canonical data = true -> valid_units (now w) = true ->
  valid_units version = true ->
  canonical (envelope_of data pw w version) = true.
Proof.
  intros Hd Hnow Hver. unfold envelope_of, object_literal.
  assert (Hs : forall x, field data (str "stats") = Some x ->
                         canonical x = true).
  { intros x. apply canonical_field. exact Hd. }
  assert (Hu : forall x, match field data (str "owner") with
                         | Some o => field o (str "username")
                         | None => None
                         end = Some x -> canonical x = true).
  { intros x. destruct (field data (str "owner")) as [o |] eqn:Ho;
      [| discriminate].
    apply canonical_field. exact (canonical_field data o _ Hd Ho). }
  destruct (field data (str "stats")) as [s |];
    destruct (match field data (str "owner") with
              | Some o => field o (str "username")
              | None => None
              end) as [u |];
    cbn [defined_props canonical forallb fst snd map];
    rewrite ?Hnow, ?Hver, ?valid_units_b64, ?(Hs _ eq_refl), ?(Hu _ eq_refl);
    reflexivity.
Qed.

Lemma envelope_fields data pw w version :
  let e := envelope_of data pw w version in
  let salt := read_tape (tape w) (cursor w) 16 in
  let iv := read_tape (tape w) (cursor w + 16) 12 in
  e <> JNull
  /\ field e (str "magic") = Some (JStr BACKUP_MAGIC)
  /\ field e (str "version") = Some (JStr version)
  /\ field e (str "salt") = Some (JStr (b64 salt))
  /\ field e (str "iv") = Some (JStr (b64 iv))
  /\ field e (str "ciphertext")
     = Some (JStr (b64 (aes_gcm_seal
                          (backup_key pw salt) iv
                          (Utf8.encode (JSON_stringify 0 data))))).
Proof.
  cbv zeta. unfold envelope_of, object_literal.
  repeat split; try discriminate.
Qed.

(** Decoding a printed envelope, whatever its [version] says, comes down
    to opening its ciphertext. *)
Lemma decryptBackup_envelope_outcome data pw other w w' version :
  canonical data = true -> valid_units (now w) = true ->
  valid_units version = true ->
  decryptBackup (JSON_stringify 2 (envelope_of data pw w version)) other w'
  = match aes_gcm_open
            (backup_key other (read_tape (tape w) (cursor w) 16))
            (read_tape (tape w) (cursor w + 16) 12)
            (aes_gcm_seal (backup_key pw (read_tape (tape w) (cursor w) 16))
                          (read_tape (tape w) (cursor w + 16) 12)
                          (Utf8.encode (JSON_stringify 0 data))) with
    | None => (Throw (Error msg_wrong_password), decode_trace w')
    | Some plain =>
        match JSON_parse (Utf8.decode plain) with
        | None => (Throw (Error msg_wrong_password), decode_trace w')
        | Some v => (Ok v, decode_trace w')
        end
    end.
Proof.
  intros Hd Hnow Hver.
  rewrite decryptBackup_outcome.
  rewrite (JSON_round_trip L) by (apply envelope_canonical; assumption).
  destruct (envelope_fields data pw w version)
    as (Hnn & Hm & _ & Hs & Hi & Hc).
  rewrite (not_null_match _ _ _ Hnn).
  rewrite Hm, Hs, Hi, Hc.
  replace (strict_neq_string (Some (JStr BACKUP_MAGIC)) BACKUP_MAGIC)
    with false by (symmetry; apply strict_neq_string_false; reflexivity).
  cbn [ToString to_string]. rewrite !unb64_b64. reflexivity.
Qed.

(** With a password that HMAC reads as the same key, it returns the
    payload. *)
Lemma decryptBackup_envelope data pw pw' w w' version :
  canonical data = true -> valid_units (now w) = true ->
  valid_units version = true ->
  hmac_key (Utf8.encode pw') = hmac_key (Utf8.encode pw) ->
  decryptBackup (JSON_stringify 2 (envelope_of data pw w version)) pw' w'
  = (Ok data, decode_trace w').
Proof.
  intros Hd Hnow Hver Hkey.
  rewrite decryptBackup_envelope_outcome by assumption.
  rewrite (backup_key_same pw' pw (read_tape (tape w) (cursor w) 16) Hkey).
  rewrite (aes_gcm_round_trip L _ _ _ (backup_key_length L _ _)
             (read_tape_length _ _ _)).
  rewrite decode_encode by (apply (JSON_stringify_text L); exact Hd).
  rewrite (JSON_round_trip L) by exact Hd. reflexivity.
Qed.

End BackupRoundTrip.

(* ================================================================== *)
(** * The reference platform satisfies the laws *)
(* ================================================================== *)

Module RefFacts.
Import Ref.

Lemma bytes_eqb_eq a b : bytes_eqb a b = true <-> a = b.
Proof.
  revert b. induction a as [| x a IH]; intros [| y b]; cbn [bytes_eqb];
    try (split; [discriminate | discriminate]); [split; reflexivity |].
  rewrite andb_true_iff, IH. split.
  - intros [Hxy ->]. apply Byte.byte_dec_bl in Hxy. subst. reflexivity.
  - intros [= -> ->]. split; [apply Byte.byte_dec_lb |]; reflexivity.
Qed.

Lemma bytes_eqb_refl a : bytes_eqb a a = true.
Proof. apply bytes_eqb_eq. reflexivity. Qed.

Lemma hash_length m : length (hash m) = 32%nat.
Proof. unfold hash. rewrite length_map, length_seq. reflexivity. Qed.

Lemma tag_split k iv m :
  length iv = 12%nat -> tag k iv m = iv ++ firstn 4 (hash (k ++ iv ++ m)).
Proof.
  intros Hiv. unfold tag. f_equal.
  rewrite firstn_app, Hiv, Nat.sub_diag, firstn_O, app_nil_r.
  apply firstn_all2. lia.
Qed.

Lemma tag_length k iv m : length (tag k iv m) = 16%nat.
Proof.
  unfold tag. rewrite length_app, !length_firstn, length_app, repeat_length,
    hash_length. lia.
Qed.

Lemma app_same_tail_length {A} (a c b d : list A) :
  a ++ b = c ++ d -> length b = length d -> a = c /\ b = d.
Proof.
  revert c. induction a as [| x a IH]; intros [| y c] H Hlen; cbn [app] in H.
  - auto.
  - exfalso. apply (f_equal (@length A)) in H.
    cbn [length] in H. rewrite length_app in H. lia.
  - exfalso. apply (f_equal (@length A)) in H.
    cbn [length] in H. rewrite length_app in H. lia.
  - injection H as -> H. destruct (IH c H Hlen) as [-> ->]. auto.
Qed.

Lemma firstn_body {A} (body t : list A) :
  length t = 16%nat -> firstn (length (body ++ t) - 16) (body ++ t) = body.
Proof.
  intros Ht. rewrite length_app, Ht.
  replace (length body + 16 - 16)%nat with (length body) by lia.
  rewrite firstn_app, Nat.sub_diag, firstn_all. cbn [firstn].
  apply app_nil_r.
Qed.

Lemma open_seal k iv m : open k iv (seal k iv m) = Some m.
Proof.
  unfold open, seal. rewrite firstn_body by apply tag_length.
  rewrite bytes_eqb_refl. reflexivity.
Qed.

Lemma open_nil k iv : open k iv [] = None.
Proof.
  unfold open, seal. cbn [length Nat.sub firstn app].
  pose proof (tag_length k iv []) as H.
  destruct (tag k iv []); [discriminate | reflexivity].
Qed.

Lemma open_other_nonce k iv iv' m :
  length iv = 12%nat -> length iv' = 12%nat -> iv' <> iv ->
  open k iv' (seal k iv m) = None.
Proof.
  intros Hiv Hiv' Hne. unfold open.
  change (seal k iv m) with (m ++ tag k iv m).
  rewrite firstn_body by apply tag_length.
  destruct (bytes_eqb _ _) eqn:E; [| reflexivity].
  apply bytes_eqb_eq in E. unfold seal in E.
  apply app_inv_head in E. rewrite !tag_split in E by assumption.
  apply app_same_tail_length in E;
    [| rewrite !length_firstn, !hash_length; reflexivity ].
  destruct E as [E _]. symmetry in E. contradiction.
Qed.

Lemma open_other_tag k iv m body t t' :
  seal k iv m = body ++ t -> length t = 16%nat -> length t' = 16%nat ->
  t' <> t -> open k iv (body ++ t') = None.
Proof.
  intros Hseal Ht Ht' Hne. unfold seal in Hseal.
  apply app_same_tail_length in Hseal; [| rewrite tag_length, Ht; reflexivity].
  destruct Hseal as [<- <-].
  unfold open. rewrite firstn_body by exact Ht'.
  destruct (bytes_eqb _ _) eqn:E; [| reflexivity].
  apply bytes_eqb_eq in E. unfold seal in E. apply app_inv_head in E.
  contradiction.
Qed.

Lemma padding_length k n : length (padding k n) = n.
Proof.
  unfold padding. rewrite length_firstn, length_app, repeat_length. lia.
Qed.

Lemma frame_length k m :
  (length m <= 190)%nat -> length (frame k m) = 256%nat.
Proof.
  intros Hm. unfold frame. cbn [length].
  rewrite length_app, padding_length. lia.
Qed.

Lemma rsa_round_trip k seed m :
  (length m <= 190)%nat ->
  exists c, rsa_encrypt k seed m = Some c /\ length c = 256%nat
            /\ rsa_decrypt k c = Some m.
Proof.
  intros Hm. exists (frame k m). unfold rsa_encrypt.
  replace (Nat.leb (length m) 190) with true
    by (symmetry; apply Nat.leb_le; exact Hm).
  split; [reflexivity |]. split; [apply frame_length; exact Hm |].
  unfold rsa_decrypt, frame at 1.
  rewrite to_N_byte_of_N, N.mod_small, Nat2N.id by lia.
  rewrite firstn_app, Nat.sub_diag, firstn_all. cbn [firstn].
  rewrite app_nil_r.
  replace (Nat.leb (length m) 190) with true
    by (symmetry; apply Nat.leb_le; exact Hm).
  change (byte_of_N (N.of_nat (length m)) :: m ++ padding k (255 - length m))
    with (frame k m).
  rewrite bytes_eqb_refl. reflexivity.
Qed.

End RefFacts.

Module RefJson.
Import Ref.

Lemma json_ind2 (Q : json Z -> Prop) :
  Q JNull -> (forall b, Q (JBool b)) -> (forall n, Q (JNum n)) ->
  (forall s, Q (JStr s)) ->
  (forall items, Forall Q items -> Q (JArr items)) ->
  (forall fields, Forall (fun kv => Q (snd kv)) fields -> Q (JObj fields)) ->
  forall v, Q v.
Proof.
  intros Hnull Hbool Hnum Hstr Harr Hobj.
  fix IH 1. intros [| b | n | s | items | fields].
  - exact Hnull.
  - apply Hbool.
  - apply Hnum.
  - apply Hstr.
  - apply Harr. induction items as [| x items IHl]; constructor;
      [apply IH | exact IHl].
  - apply Hobj. induction fields as [| [k x] fields IHl]; constructor;
      [apply IH | exact IHl].
Qed.

Lemma parse_nat_ser n rest : parse_nat (ser_nat n ++ rest) = Some (n, rest).
Proof.
  unfold ser_nat. induction n as [| n IH]; cbn [repeat app parse_nat N.eqb];
    [reflexivity |].
  cbn [Pos.eqb]. cbn [repeat app] in IH. rewrite IH. reflexivity.
Qed.

Lemma times_flat_map {A} (p : parser A) (f : A -> jsstring) l rest :
  Forall (fun a => forall r, p (f a ++ r) = Some (a, r)) l ->
  times p (length l) (flat_map f l ++ rest) = Some (l, rest).
Proof.
  induction 1 as [| a l Ha _ IH]; cbn [length times flat_map app];
    [reflexivity |].
  rewrite <- app_assoc, Ha, IH. reflexivity.
Qed.

Lemma parse_unit_ser u rest :
  parse_unit (ser_nat (N.to_nat u) ++ rest) = Some (u, rest).
Proof. unfold parse_unit. rewrite parse_nat_ser, N2Nat.id. reflexivity. Qed.

Lemma parse_str_ser s rest : parse_str (ser_str s ++ rest) = Some (s, rest).
Proof.
  unfold parse_str, ser_str. rewrite <- app_assoc, parse_nat_ser.
  apply times_flat_map. apply Forall_forall. intros u _ r.
  apply parse_unit_ser.
Qed.

Lemma length_flat_map_le {A} (f : A -> jsstring) l a :
  In a l -> (length (f a) <= length (flat_map f l))%nat.
Proof.
  induction l as [| x l IH]; [contradiction |].
  cbn [flat_map]. rewrite length_app. intros [-> | H]; [lia |].
  specialize (IH H). lia.
Qed.

Lemma parse_ser v : forall fuel rest,
  (length (ser v) <= fuel)%nat -> parse fuel (ser v ++ rest) = Some (v, rest).
Proof.
  induction v as [| b | n | s | items IH | fields IH] using json_ind2;
    intros [| fuel] rest Hf; cbn [ser length] in Hf; try lia;
    cbn [ser app parse].
  - reflexivity.
  - destruct b; reflexivity.
  - cbn [N.eqb Pos.eqb]. rewrite parse_nat_ser.
    destruct (Z.ltb_spec n 0); cbn [N.eqb Pos.eqb andb].
    + replace (Nat.eqb (Z.abs_nat n) 0) with false
        by (symmetry; apply Nat.eqb_neq; lia).
      cbn [negb]. do 3 f_equal. lia.
    + do 3 f_equal. lia.
  - cbn [N.eqb Pos.eqb]. rewrite parse_str_ser. reflexivity.
  - cbn [N.eqb Pos.eqb]. rewrite <- app_assoc, parse_nat_ser.
    rewrite times_flat_map; [reflexivity |].
    rewrite Forall_forall in IH |- *. intros x Hx r. apply IH; [exact Hx |].
    rewrite length_app in Hf.
    pose proof (length_flat_map_le ser items x Hx). lia.
  - cbn [N.eqb Pos.eqb]. rewrite <- app_assoc, parse_nat_ser.
    rewrite (times_flat_map (parse_field (parse fuel))
               (fun kv => ser_str (fst kv) ++ ser (snd kv)));
      [reflexivity |].
    rewrite Forall_forall in IH |- *. intros [k x] Hx r. cbn [fst snd].
    unfold parse_field. rewrite <- app_assoc, parse_str_ser.
    rewrite IH with (x := (k, x)); [reflexivity | exact Hx |].
    cbn [snd]. rewrite length_app in Hf.
    pose proof (length_flat_map_le
                  (fun kv => ser_str (fst kv) ++ ser (snd kv)) fields (k, x) Hx)
      as Hle.
    cbn [fst snd] in Hle. rewrite length_app in Hle. lia.
Qed.

Lemma parse_all_ser v : parse_all (ser v) = Some v.
Proof.
  unfold parse_all.
  rewrite <- (app_nil_r (ser v)) at 2.
  rewrite parse_ser by lia. reflexivity.
Qed.


Lemma ser_nat_ascii n : ascii_text (ser_nat n).
Proof.
  unfold ascii_text, ser_nat. apply Forall_app. split.
  - apply Forall_forall. intros c Hc. apply repeat_spec in Hc. subst. lia.
  - repeat constructor.
Qed.

Lemma flat_map_ascii {A} (f : A -> jsstring) l :
  Forall (fun a => ascii_text (f a)) l -> ascii_text (flat_map f l).
Proof.
  induction 1; cbn [flat_map]; [constructor |].
  apply Forall_app. split; assumption.
Qed.

Lemma ser_str_ascii s : ascii_text (ser_str s).
Proof.
  unfold ser_str. apply Forall_app. split; [apply ser_nat_ascii |].
  apply flat_map_ascii, Forall_forall. intros u _. apply ser_nat_ascii.
Qed.

Lemma ser_ascii v : ascii_text (ser v).
Proof.
  induction v as [| b | n | s | items IH | fields IH] using json_ind2;
    cbn [ser].
  - repeat constructor.
  - destruct b; repeat constructor.
  - apply Forall_cons; [lia |]. apply Forall_cons;
      [destruct (n <? 0)%Z; lia | apply ser_nat_ascii].
  - apply Forall_cons; [lia | apply ser_str_ascii].
  - apply Forall_cons; [lia |]. apply Forall_app. split;
      [apply ser_nat_ascii |]. apply flat_map_ascii. exact IH.
  - apply Forall_cons; [lia |]. apply Forall_app. split;
      [apply ser_nat_ascii |]. apply flat_map_ascii.
    rewrite Forall_forall in IH |- *. intros kv Hkv.
    apply Forall_app. split; [apply ser_str_ascii | apply IH; exact Hkv].
Qed.

End RefJson.

Lemma ascii_clean_text s :
  Forall (fun c => c < 128) s -> Utf8.clean_text s = true.
Proof.
  intros Hs. unfold Utf8.clean_text. apply andb_true_iff. split.
  - induction Hs as [| c s Hc _ IH]; [reflexivity |].
    cbn [Utf8.well_formed]. unfold Utf8.is_lead, Utf8.is_trail.
    replace (55296 <=? c) with false by (symmetry; apply N.leb_gt; lia).
    replace (56320 <=? c) with false by (symmetry; apply N.leb_gt; lia).
    cbn [andb negb]. rewrite IH.
    replace (c <? 65536) with true by (symmetry; apply N.ltb_lt; lia).
    reflexivity.
  - destruct Hs as [| c s Hc _]; [reflexivity |].
    cbn [Utf8.starts_with_bom]. apply negb_true_iff, N.eqb_neq. lia.
Qed.

(** The reference platform satisfies the laws. *)
Lemma ref_laws : PlatformLaws Ref.platform.
Proof.
  constructor; cbn.
  - discriminate.
  - apply RefFacts.hash_length.
  - intros k iv m. unfold Ref.seal.
    rewrite length_app, RefFacts.tag_length. reflexivity.
  - intros k iv m _ _. apply RefFacts.open_seal.
  - intros k iv iv' m _. apply RefFacts.open_other_nonce.
  - intros k iv m body t t' _ _. apply RefFacts.open_other_tag.
  - intros pk sk seed m <- _. apply RefFacts.rsa_round_trip.
  - reflexivity.
  - intros t c.
    assert (H : length (read_tape t c 4) = 4%nat) by apply read_tape_length.
    split; (eapply Nat.le_trans; [apply Nat.eq_le_incl; exact H | lia]).
  - reflexivity.
  - reflexivity.
  - intros _ v _. apply RefJson.parse_all_ser.
  - intros _ v _. apply ascii_clean_text, RefJson.ser_ascii.
Qed.

(** On the reference platform a key text paired with itself is a valid
    key pair. *)
Lemma ref_pair_valid k : @valid_keypair Ref.platform (b64 k) (b64 k).
Proof.
  exists k, k. unfold public_key_of, private_key_of.
  rewrite unb64_b64. repeat split.
Qed.

(* ================================================================== *)
(** * The claims *)
(* ================================================================== *)

Section GeneralFacts.
Context {P : Platform} (L : PlatformLaws P).

(** A leading U+FEFF does not survive the message round trip, on any
    platform. *)
Lemma decrypt_encrypt_bom text pub priv w w' :
  valid_keypair pub priv -> Utf8.well_formed text = true ->
  fits (length (Utf8.encode (0xFEFF :: text)) + 16) ->
  exists b,
    fst (encryptMessage (0xFEFF :: text) pub w) = Ok b
    /\ fst (decryptMessage b priv w') = Ok text.
Proof.
  intros Hk Hwf Hfits.
  destruct (decrypt_encrypt_general L (0xFEFF :: text) pub priv w w' Hk Hfits)
    as (b & He & Hd & _).
  exists b. split; [exact He |].
  rewrite Hd, decode_encode_bom by exact Hwf. reflexivity.
Qed.

End GeneralFacts.

Section C1_reference.
#[local] Existing Instance Ref.platform.

(** C1 (as stated, refuted): a plaintext that starts with U+FEFF comes
    back without it. *)
Lemma C1_bom_lost :
  valid_keypair Ref.alice_key Ref.alice_key
  /\ exists b,
       fst (encryptMessage (0xFEFF :: str "hi") Ref.alice_key Ref.world0) = Ok b
       /\ fst (decryptMessage b Ref.alice_key Ref.world0) = Ok (str "hi")
       /\ str "hi" <> 0xFEFF :: str "hi".
Proof.
  split; [apply ref_pair_valid |].
  destruct (decrypt_encrypt_bom ref_laws (str "hi") Ref.alice_key
              Ref.alice_key Ref.world0 Ref.world0 (ref_pair_valid _) eq_refl)
    as (b & He & Hd); [vm_compute; discriminate |].
  exists b. repeat split; [exact He | exact Hd | discriminate].
Qed.

End C1_reference.

(** C1 (amended): for every valid RSA-2048 key pair and every plaintext
    that is well-formed UTF-16, does not start with U+FEFF and is short
    enough for its ciphertext, the UTF-8 bytes of the plaintext and the
    16 bytes of the tag, to fit the arguments of one call, decrypting
    with the private key the bundle that [encryptMessage] produced for
    the public key returns the plaintext.  For a plaintext, of any
    content, whose ciphertext does not fit, [encryptMessage] throws a
    [RangeError] and produces no bundle. *)
Theorem C1_decrypt_encrypt (P : Platform) (L : PlatformLaws P)
  (text pub priv : jsstring) (w w' : world) :
  valid_keypair pub priv ->
  (Utf8.clean_text text = true ->
   fits (length (Utf8.encode text) + 16) ->
   exists b,
     fst (encryptMessage text pub w) = Ok b
     /\ fst (decryptMessage b priv w') = Ok text)
  /\ (~ fits (length (Utf8.encode text) + 16) ->
      fst (encryptMessage text pub w) = Throw RangeError).
Proof.
  intros Hk. split.
  - intros Hclean Hfits.
    destruct (decrypt_encrypt_general L text pub priv w w' Hk Hfits)
      as (b & He & Hd & _).
    exists b. split; [exact He |].
    rewrite Hd, decode_encode by exact Hclean. reflexivity.
  - apply (encryptMessage_refuses L text pub priv w Hk).
Qed.

Section C1_witness.
#[local] Existing Instance Ref.platform.

Lemma C1_decrypt_encrypt_witness :
  valid_keypair Ref.bob_key Ref.bob_key
  /\ Utf8.clean_text (str "hello") = true
  /\ fits (length (Utf8.encode (str "hello")) + 16)
  /\ exists b,
       fst (encryptMessage (str "hello") Ref.bob_key Ref.world0) = Ok b
       /\ fst (decryptMessage b Ref.bob_key Ref.world0) = Ok (str "hello").
Proof.
  split; [apply ref_pair_valid |]. split; [reflexivity |].
  assert (Hfits : fits (length (Utf8.encode (str "hello")) + 16))
    by (vm_compute; discriminate).
  split; [exact Hfits |].
  apply (proj1 (C1_decrypt_encrypt Ref.platform ref_laws (str "hello")
                  Ref.bob_key Ref.bob_key Ref.world0 Ref.world0
                  (ref_pair_valid _)));
    [reflexivity | exact Hfits].
Defined.

End C1_witness.

Section C2_reference.
#[local] Existing Instance Ref.platform.

(** C2 (as stated, refuted): the passphrase followed by U+0000 is a
    different passphrase, and it unwraps the envelope. *)
Lemma C2_other_passphrase_unwraps :
  str "correct-horse" ++ [0] <> str "correct-horse"
  /\ exists env,
       fst (encryptPrivateKey Ref.alice_key (str "correct-horse") Ref.world0)
       = Ok env
       /\ fst (decryptPrivateKey env (str "correct-horse" ++ [0]) Ref.world0)
          = Ok Ref.alice_key.
Proof.
  split; [discriminate |].
  assert (Hfits : fits (length (Utf8.encode Ref.alice_key) + 16))
    by (vm_compute; discriminate).
  pose proof (encryptPrivateKey_run ref_laws Ref.alice_key
                (str "correct-horse") Ref.world0 Hfits) as Henv.
  eexists. split; [exact Henv |].
  rewrite (vault_round_trip ref_laws Ref.alice_key (str "correct-horse")
             (str "correct-horse" ++ [0]) Ref.world0 Ref.world0 _ Henv).
  - rewrite decode_encode by reflexivity. reflexivity.
  - apply hmac_key_trailing_nul. cbn. lia.
Qed.

End C2_reference.

(** C2 (amended): for every private key text that is well-formed UTF-16
    with no leading U+FEFF (a base64 key is) and every passphrase.  When
    the ciphertext of the key fits the arguments of one call (that of a
    2048-bit key does), unwrapping the envelope made by wrap with the
    same passphrase returns the key unchanged; so does any passphrase
    that HMAC reads as the same key, such as a passphrase of fewer than
    64 bytes followed by U+0000.  With any passphrase, unwrap returns a
    value only if AES-GCM accepts the ciphertext under the key derived
    from it, and when AES-GCM rejects it throws and returns nothing.
    When the ciphertext does not fit, wrap itself throws a range
    error. *)
Theorem C2_unwrap_wrap (P : Platform) (L : PlatformLaws P)
  (key pass : jsstring) (w w' : world) :
  Utf8.clean_text key = true ->
  let salt := read_tape (tape w) (cursor w) 16 in
  let iv := read_tape (tape w) (cursor w + 16) 12 in
  let ct := aes_gcm_seal (vault_key pass salt) iv (Utf8.encode key) in
  (fits (length (Utf8.encode key) + 16) ->
   exists env,
     fst (encryptPrivateKey key pass w) = Ok env
     /\ fst (decryptPrivateKey env pass w') = Ok key
     /\ (forall other,
           hmac_key (Utf8.encode other) = hmac_key (Utf8.encode pass) ->
           fst (decryptPrivateKey env other w') = Ok key)
     /\ ((length (Utf8.encode pass) < 64)%nat ->
         fst (decryptPrivateKey env (pass ++ [0]) w') = Ok key)
     /\ (forall other,
           aes_gcm_open (vault_key other salt) iv ct = None ->
           fst (decryptPrivateKey env other w') = Throw OperationError)
     /\ (forall other v,
           fst (decryptPrivateKey env other w') = Ok v ->
           exists plain,
             aes_gcm_open (vault_key other salt) iv ct = Some plain
             /\ v = Utf8.decode plain))
  /\ (~ fits (length (Utf8.encode key) + 16) ->
      fst (encryptPrivateKey key pass w) = Throw RangeError).
Proof.
  intros Hclean salt iv ct.
  split; [intros Hfits | apply (encryptPrivateKey_too_long L)].
  pose proof (encryptPrivateKey_run L key pass w Hfits) as Henv.
  eexists. split; [exact Henv |].
  repeat split.
  - rewrite (vault_round_trip L key pass pass w w' _ Henv eq_refl).
    rewrite decode_encode by exact Hclean. reflexivity.
  - intros other Hsame.
    rewrite (vault_round_trip L key pass other w w' _ Henv Hsame).
    rewrite decode_encode by exact Hclean. reflexivity.
  - intros Hshort.
    rewrite (vault_round_trip L key pass (pass ++ [0]) w w' _ Henv
               (hmac_key_trailing_nul pass Hshort)).
    rewrite decode_encode by exact Hclean. reflexivity.
  - intros other Hrej.
    rewrite (decryptPrivateKey_envelope L key pass other w w' _ Henv).
    fold salt iv ct. rewrite Hrej. reflexivity.
  - intros other v.
    rewrite (decryptPrivateKey_envelope L key pass other w w' _ Henv).
    fold salt iv ct.
    destruct (aes_gcm_open (vault_key other salt) iv ct) as [plain |];
      [| discriminate].
    intros [= <-]. exists plain. split; reflexivity.
Qed.

Section C2_witness.
#[local] Existing Instance Ref.platform.

Lemma C2_unwrap_wrap_witness :
  Utf8.clean_text Ref.alice_key = true
  /\ fits (length (Utf8.encode Ref.alice_key) + 16)
  /\ exists env,
       fst (encryptPrivateKey Ref.alice_key (str "correct-horse") Ref.world0)
       = Ok env
       /\ fst (decryptPrivateKey env (str "correct-horse") Ref.world0)
          = Ok Ref.alice_key.
Proof.
  split; [reflexivity |].
  assert (Hfits : fits (length (Utf8.encode Ref.alice_key) + 16))
    by (vm_compute; discriminate).
  split; [exact Hfits |].
  destruct (C2_unwrap_wrap Ref.platform ref_laws Ref.alice_key
              (str "correct-horse") Ref.world0 Ref.world0 eq_refl)
    as [Hin _].
  destruct (Hin Hfits) as (env & He & Hd & _).
  exists env. split; [exact He | exact Hd].
Defined.

End C2_witness.

Section ReferencePayload.
#[local] Existing Instance Ref.platform.

Lemma payload0_canonical : canonical Ref.payload0 = true.
Proof. reflexivity. Qed.

Lemma payload0_has_owner : has_owner Ref.payload0.
Proof.
  split; [discriminate |].
  eexists. split; [reflexivity | discriminate].
Qed.

Lemma world0_clock : valid_units (now Ref.world0) = true.
Proof. reflexivity. Qed.

Lemma payload0_fits :
  fits (length (Utf8.encode (JSON_stringify 0 Ref.payload0)) + 16).
Proof. vm_compute. discriminate. Qed.

(** C3 (as stated, refuted): the password followed by U+0000 is a
    different password, and it decodes the backup. *)
Lemma C3_other_password_decodes :
  str "backup123" ++ [0] <> str "backup123"
  /\ exists content,
       fst (encryptBackup Ref.payload0 (str "backup123") Ref.world0)
       = Ok content
       /\ fst (decryptBackup content (str "backup123" ++ [0]) Ref.world0)
          = Ok Ref.payload0.
Proof.
  split; [discriminate |].
  eexists. split;
    [apply (encryptBackup_run ref_laws);
       [exact payload0_has_owner | exact payload0_fits] |].
  rewrite (decryptBackup_envelope ref_laws Ref.payload0 (str "backup123")
             (str "backup123" ++ [0]) Ref.world0 Ref.world0 (str "1.0")
             payload0_canonical world0_clock eq_refl).
  - reflexivity.
  - apply hmac_key_trailing_nul. cbn. lia.
Qed.

(** C4 (as stated, refuted): an envelope whose version is "2.0" is not
    turned away; the key is derived and the payload comes back. *)
Lemma C4_version_not_checked :
  let content :=
    JSON_stringify 2
      (envelope_of Ref.payload0 (str "backup123") Ref.world0 (str "2.0")) in
  (exists pkg, JSON_parse content = Some pkg
               /\ field pkg (str "version") = Some (JStr (str "2.0")))
  /\ str "2.0" <> str "1.0"
  /\ fst (decryptBackup content (str "backup123") Ref.world0)
     = Ok Ref.payload0
  /\ In (EvDeriveKey 150000)
        (log (snd (decryptBackup content (str "backup123") Ref.world0))).
Proof.
  cbv zeta.
  pose proof (decryptBackup_envelope ref_laws Ref.payload0 (str "backup123")
                (str "backup123") Ref.world0 Ref.world0 (str "2.0")
                payload0_canonical world0_clock eq_refl eq_refl) as Hrun.
  split; [| split; [discriminate | split]].
  - eexists. split.
    + apply (JSON_round_trip ref_laws).
      apply envelope_canonical;
        [exact payload0_canonical | exact world0_clock | reflexivity].
    + apply envelope_fields.
  - rewrite Hrun. reflexivity.
  - rewrite Hrun. cbn. auto.
Qed.

End ReferencePayload.

(** C3 (amended): for every backup payload that is JSON data with an
    owner and whose ciphertext, the UTF-8 bytes of its JSON text and the
    16 bytes of the tag, fits the arguments of one call, and every
    password, in a world whose clock prints its date in
    16-bit code units, decoding the envelope made by encode with
    the same password returns the payload; so does any password that HMAC
    reads as the same key, such as a password of fewer than 64 bytes
    followed by U+0000.  With any password, decode returns a value
    only if AES-GCM accepts the ciphertext under the key derived from it,
    and when AES-GCM rejects it fails with the wrong-password error.
    For a payload whose ciphertext does not fit, encode throws a
    [RangeError] and makes no envelope. *)
Theorem C3_decode_encode (P : Platform) (L : PlatformLaws P)
  (data : json number) (pw : jsstring) (w w' : world) :
  canonical data = true -> has_owner data -> valid_units (now w) = true ->
  let salt := read_tape (tape w) (cursor w) 16 in
  let iv := read_tape (tape w) (cursor w + 16) 12 in
  let ct := aes_gcm_seal (backup_key pw salt) iv
              (Utf8.encode (JSON_stringify 0 data)) in
  (fits (length (Utf8.encode (JSON_stringify 0 data)) + 16) ->
   exists content,
     fst (encryptBackup data pw w) = Ok content
     /\ fst (decryptBackup content pw w') = Ok data
     /\ (forall other,
           hmac_key (Utf8.encode other) = hmac_key (Utf8.encode pw) ->
           fst (decryptBackup content other w') = Ok data)
     /\ ((length (Utf8.encode pw) < 64)%nat ->
         fst (decryptBackup content (pw ++ [0]) w') = Ok data)
     /\ (forall other,
           aes_gcm_open (backup_key other salt) iv ct = None ->
           fst (decryptBackup content other w')
           = Throw (Error msg_wrong_password))
     /\ (forall other v,
           fst (decryptBackup content other w') = Ok v ->
           exists plain,
             aes_gcm_open (backup_key other salt) iv ct = Some plain
             /\ JSON_parse (Utf8.decode plain) = Some v))
  /\ (~ fits (length (Utf8.encode (JSON_stringify 0 data)) + 16) ->
      fst (encryptBackup data pw w) = Throw RangeError).
Proof.
  intros Hcan Hown Hnow salt iv ct.
  split; [| apply (encryptBackup_too_long L)].
  intros Hfits.
  eexists. split; [apply (encryptBackup_run L data pw w Hown Hfits) |].
  assert (Hver : valid_units (str "1.0") = true) by reflexivity.
  repeat split.
  - rewrite (decryptBackup_envelope L data pw pw w w' (str "1.0")
               Hcan Hnow Hver eq_refl). reflexivity.
  - intros other Hsame.
    rewrite (decryptBackup_envelope L data pw other w w' (str "1.0")
               Hcan Hnow Hver Hsame). reflexivity.
  - intros Hshort.
    rewrite (decryptBackup_envelope L data pw (pw ++ [0]) w w' (str "1.0")
               Hcan Hnow Hver (hmac_key_trailing_nul pw Hshort)).
    reflexivity.
  - intros other Hrej.
    rewrite (decryptBackup_envelope_outcome L data pw other w w' (str "1.0")
               Hcan Hnow Hver).
    fold salt iv ct. rewrite Hrej. reflexivity.
  - intros other v.
    rewrite (decryptBackup_envelope_outcome L data pw other w w' (str "1.0")
               Hcan Hnow Hver).
    fold salt iv ct.
    destruct (aes_gcm_open (backup_key other salt) iv ct) as [plain |];
      [| discriminate].
    destruct (JSON_parse (Utf8.decode plain)) as [v' |] eqn:Hv;
      [| discriminate].
    intros [= <-]. exists plain. split; [reflexivity | exact Hv].
Qed.

Section C3_witness.
#[local] Existing Instance Ref.platform.

Lemma C3_decode_encode_witness :
  canonical Ref.payload0 = true /\ has_owner Ref.payload0
  /\ valid_units (now Ref.world0) = true
  /\ fits (length (Utf8.encode (JSON_stringify 0 Ref.payload0)) + 16)
  /\ exists content,
       fst (encryptBackup Ref.payload0 (str "backup123") Ref.world0)
       = Ok content
       /\ fst (decryptBackup content (str "backup123") Ref.world0)
          = Ok Ref.payload0.
Proof.
  split; [reflexivity |]. split; [exact payload0_has_owner |].
  split; [reflexivity |]. split; [exact payload0_fits |].
  destruct (proj1 (C3_decode_encode Ref.platform ref_laws Ref.payload0
                     (str "backup123") Ref.world0 Ref.world0
                     eq_refl payload0_has_owner eq_refl) payload0_fits)
    as (content & He & Hd & _).
  exists content. split; [exact He | exact Hd].
Defined.

End C3_witness.

(** C4 (amended): on decode the magic string is validated before any
    cryptographic operation is attempted: a document that does not parse,
    or that parses to a value other than [null] whose magic is not the
    backup magic, is refused with an invalid-format error in a world left
    as it was, so with no key derivation and no decryption; and whenever
    a decode did call into the crypto library, the document had parsed
    and its magic matched.  The version field is not consulted. *)
Theorem C4_magic_before_crypto (P : Platform)
  (content pw : jsstring) (w : world) :
  ((JSON_parse content = None
    \/ exists pkg, JSON_parse content = Some pkg /\ pkg <> JNull
                   /\ field pkg (str "magic") <> Some (JStr BACKUP_MAGIC)) ->
   exists e, decryptBackup content pw w = (Throw e, w) /\ invalid_format e)
  /\ (log (snd (decryptBackup content pw w)) <> log w ->
      exists pkg, JSON_parse content = Some pkg
                  /\ field pkg (str "magic") = Some (JStr BACKUP_MAGIC)).
Proof.
  rewrite decryptBackup_outcome. split.
  - intros [Hnone | (pkg & Hsome & Hnn & Hmagic)].
    + rewrite Hnone. eexists. split; [reflexivity | left; reflexivity].
    + rewrite Hsome, (not_null_match _ _ _ Hnn).
      destruct (strict_neq_string (field pkg (str "magic")) BACKUP_MAGIC)
        eqn:E.
      * exists (Error msg_not_a_backup).
        split; [reflexivity | right; reflexivity].
      * apply strict_neq_string_false in E. contradiction.
  - destruct (JSON_parse content) as [pkg |]; [| intros H; contradiction].
    destruct (strict_neq_string (field pkg (str "magic")) BACKUP_MAGIC) eqn:E.
    + intros H. exfalso. apply H. destruct pkg; reflexivity.
    + intros _. exists pkg. split; [reflexivity |].
      apply strict_neq_string_false. exact E.
Qed.

Section C4_witness.
#[local] Existing Instance Ref.platform.

Lemma C4_magic_before_crypto_witness :
  JSON_parse (str "not json") = None
  /\ exists e,
       decryptBackup (str "not json") (str "backup123") Ref.world0
       = (Throw e, Ref.world0) /\ invalid_format e.
Proof.
  split; [reflexivity |].
  apply (proj1 (C4_magic_before_crypto Ref.platform (str "not json")
                  (str "backup123") Ref.world0)).
  left. reflexivity.
Defined.

End C4_witness.


Section C5_witness.
#[local] Existing Instance Ref.platform.


End C5_witness.

(** C6: whatever the envelope and the passphrase, when the AES-GCM
    authentication fails inside unwrap (wrong passphrase or tampered
    salt, nonce or ciphertext alike) unwrap throws the one
    [OperationError], and [login] reports the one message "Login failed";
    [login] reports that same message for every failure of unwrap, so
    the caller cannot tell a wrong passphrase from a corrupted
    envelope. *)
Theorem C6_uniform_unwrap_failure (P : Platform)
  (data : login_response) (passphrase : jsstring) (w : world) :
  (forall salt iv ct,
     unb64 (env_salt (encryptedPrivateKey data)) = Some salt ->
     unb64 (env_iv (encryptedPrivateKey data)) = Some iv ->
     unb64 (env_ct (encryptedPrivateKey data)) = Some ct ->
     aes_gcm_open (vault_key passphrase salt) iv ct = None ->
     fst (decryptPrivateKey (encryptedPrivateKey data) passphrase w)
     = Throw OperationError
     /\ fst (login (Ok data) passphrase w)
        = Ok {| success := false; message := Some "Login failed"%string;
                session_key := None |})
  /\ (forall e,
        fst (decryptPrivateKey (encryptedPrivateKey data) passphrase w)
        = Throw e ->
        fst (login (Ok data) passphrase w)
        = Ok {| success := false; message := Some "Login failed"%string;
                session_key := None |}).
Proof.
  split.
  - intros salt iv ct Hs Hi Hc Hrej.
    assert (Hthrow :
      fst (decryptPrivateKey (encryptedPrivateKey data) passphrase w)
      = Throw OperationError).
    { rewrite decryptPrivateKey_outcome, Hs, Hi, Hc, Hrej. reflexivity. }
    split; [exact Hthrow |].
    rewrite login_outcome, Hthrow. reflexivity.
  - intros e He. rewrite login_outcome, He. reflexivity.
Qed.

Section C6_witness.
#[local] Existing Instance Ref.platform.

Lemma C6_uniform_unwrap_failure_witness :
  let env := {| env_ct := []; env_salt := []; env_iv := [] |} in
  let data := {| resp_token := []; resp_user := JNull;
                 encryptedPrivateKey := env |} in
  aes_gcm_open (vault_key (str "guess") []) [] [] = None
  /\ fst (decryptPrivateKey env (str "guess") Ref.world0)
     = Throw OperationError
  /\ fst (login (Ok data) (str "guess") Ref.world0)
     = Ok {| success := false; message := Some "Login failed"%string;
             session_key := None |}.
Proof.
  cbv zeta.
  assert (Hrej : aes_gcm_open (vault_key (str "guess") []) [] [] = None)
    by apply RefFacts.open_nil.
  split; [exact Hrej |].
  apply (proj1 (C6_uniform_unwrap_failure Ref.platform
                  {| resp_token := []; resp_user := JNull;
                     encryptedPrivateKey :=
                       {| env_ct := []; env_salt := []; env_iv := [] |} |}
                  (str "guess") Ref.world0) [] [] []
               eq_refl eq_refl eq_refl Hrej).
Defined.

End C6_witness.

(** C7: key derivation is a function of passphrase and salt alone, the
    same in every world: PBKDF2 with HMAC-SHA-256 over the UTF-8 bytes of
    the passphrase, giving 32 bytes, with exactly 100,000 iterations for
    the private key and exactly 150,000 for backups, as the record of
    calls shows; and the salt that wrap and encode use, whenever they
    make an envelope, is 16 fresh bytes. *)
Theorem C7_key_derivation (P : Platform) (L : PlatformLaws P)
  (passphrase key : jsstring) (salt : bytes) (w w' : world) :
  fst (deriveKey passphrase salt w) = Ok (vault_key passphrase salt)
  /\ fst (deriveBackupKey passphrase salt w) = Ok (backup_key passphrase salt)
  /\ vault_key passphrase salt
     = pbkdf2 (Utf8.encode passphrase) salt 100000 32
  /\ backup_key passphrase salt
     = pbkdf2 (Utf8.encode passphrase) salt 150000 32
  /\ fst (deriveKey passphrase salt w') = fst (deriveKey passphrase salt w)
  /\ fst (deriveBackupKey passphrase salt w')
     = fst (deriveBackupKey passphrase salt w)
  /\ length (vault_key passphrase salt) = 32%nat
  /\ length (backup_key passphrase salt) = 32%nat
  /\ log (snd (deriveKey passphrase salt w))
     = log w ++ [EvImportKey PBKDF2; EvDeriveKey 100000]
  /\ log (snd (deriveBackupKey passphrase salt w))
     = log w ++ [EvImportKey PBKDF2; EvDeriveKey 150000]
  /\ (forall env,
        fst (encryptPrivateKey key passphrase w) = Ok env ->
        exists fresh,
          fresh = read_tape (tape w) (cursor w) 16
          /\ length fresh = 16%nat
          /\ env_salt env = b64 fresh
          /\ env_ct env
             = b64 (aes_gcm_seal (vault_key passphrase fresh)
                      (read_tape (tape w) (cursor w + 16) 12)
                      (Utf8.encode key)))
  /\ (forall data content,
        has_owner data ->
        fst (encryptBackup data passphrase w) = Ok content ->
        exists fresh,
          fresh = read_tape (tape w) (cursor w) 16
          /\ length fresh = 16%nat
          /\ content
             = JSON_stringify 2 (envelope_of data passphrase w (str "1.0"))
          /\ field (envelope_of data passphrase w (str "1.0")) (str "salt")
             = Some (JStr (b64 fresh))
          /\ field (envelope_of data passphrase w (str "1.0"))
                   (str "ciphertext")
             = Some (JStr (b64 (aes_gcm_seal (backup_key passphrase fresh)
                      (read_tape (tape w) (cursor w + 16) 12)
                      (Utf8.encode (JSON_stringify 0 data))))))
  /\ (fits (length (Utf8.encode key) + 16) ->
      exists env, fst (encryptPrivateKey key passphrase w) = Ok env)
  /\ (forall data,
        has_owner data ->
        fits (length (Utf8.encode (JSON_stringify 0 data)) + 16) ->
        exists content, fst (encryptBackup data passphrase w) = Ok content).
Proof.
  rewrite !deriveKey_run, !deriveBackupKey_run. cbn [fst snd].
  split; [unfold vault_key; reflexivity |].
  split; [unfold backup_key; reflexivity |].
  split; [unfold vault_key; reflexivity |].
  split; [unfold backup_key; reflexivity |].
  split; [reflexivity |]. split; [reflexivity |].
  split; [apply (vault_key_length L) |].
  split; [apply (backup_key_length L) |].
  split; [unfold logged; cbn [log]; rewrite <- app_assoc; reflexivity |].
  split; [unfold logged; cbn [log]; rewrite <- app_assoc; reflexivity |].
  split; [| split; [| split]].
  - intros env Henv.
    destruct (fits_dec (length (Utf8.encode key) + 16)) as [Hf | Hf].
    2: { rewrite (encryptPrivateKey_too_long L key passphrase w Hf) in Henv.
         discriminate Henv. }
    rewrite (encryptPrivateKey_run L key passphrase w Hf) in Henv.
    injection Henv as <-.
    exists (read_tape (tape w) (cursor w) 16).
    split; [reflexivity |]. split; [apply read_tape_length |].
    split; reflexivity.
  - intros data content Hown Hc.
    destruct (fits_dec (length (Utf8.encode (JSON_stringify 0 data)) + 16))
      as [Hf | Hf].
    2: { rewrite (encryptBackup_too_long L data passphrase w Hf) in Hc.
         discriminate Hc. }
    rewrite (encryptBackup_run L data passphrase w Hown Hf) in Hc.
    injection Hc as <-.
    exists (read_tape (tape w) (cursor w) 16).
    split; [reflexivity |].
    split; [apply read_tape_length |].
    split; [reflexivity |].
    destruct (envelope_fields data passphrase w (str "1.0"))
      as (_ & _ & _ & Hs & _ & Hc).
    split; [exact Hs | exact Hc].
  - intros Hf. eexists. apply (encryptPrivateKey_run L key passphrase w Hf).
  - intros data Hown Hf. eexists.
    apply (encryptBackup_run L data passphrase w Hown Hf).
Qed.

Section C7_witness.
#[local] Existing Instance Ref.platform.

Lemma C7_key_derivation_witness :
  fst (deriveKey (str "correct-horse") (read_tape Ref.tape0 0 16) Ref.world0)
  = Ok (vault_key (str "correct-horse") (read_tape Ref.tape0 0 16))
  /\ length (vault_key (str "correct-horse") (read_tape Ref.tape0 0 16))
     = 32%nat.
Proof.
  destruct (C7_key_derivation Ref.platform ref_laws (str "correct-horse")
              Ref.alice_key (read_tape Ref.tape0 0 16) Ref.world0 Ref.world0)
    as (H1 & _ & _ & _ & _ & _ & H7 & _).
  split; [exact H1 | exact H7].
Defined.

End C7_witness.

(** C8: the fingerprint of a public key text that decodes from base64 is
    always produced, is the same in every world, and is the SHA-256
    digest of the decoded key bytes in uppercase hexadecimal, grouped in
    blocks of four characters separated by single spaces: 79 characters,
    each a digit [0-9A-F] or a space. *)
Theorem C8_fingerprint (P : Platform) (L : PlatformLaws P)
  (pubKeyB64 : jsstring) (raw : bytes) (w w' : world) :
  unb64 pubKeyB64 = Some raw ->
  fst (getKeyFingerprint pubKeyB64 w) = Ok (fingerprint_spec (sha256 raw))
  /\ fst (getKeyFingerprint pubKeyB64 w') = fst (getKeyFingerprint pubKeyB64 w)
  /\ length (fingerprint_spec (sha256 raw)) = 79%nat
  /\ Forall fingerprint_char (fingerprint_spec (sha256 raw)).
Proof.
  intros Hraw.
  assert (Hrun : forall w0,
            fst (getKeyFingerprint pubKeyB64 w0)
            = Ok (fingerprint_spec (sha256 raw))).
  { intros w0. rewrite getKeyFingerprint_outcome, Hraw.
    apply fingerprint_format_spec. rewrite (sha256_length L). lia. }
  split; [apply Hrun |]. split; [rewrite !Hrun; reflexivity |].
  apply fingerprint_spec_shape. apply (sha256_length L).
Qed.

Section C8_witness.
#[local] Existing Instance Ref.platform.

Lemma C8_fingerprint_witness :
  unb64 Ref.alice_key = Some [x61; x6c; x69; x63]
  /\ fst (getKeyFingerprint Ref.alice_key Ref.world0)
     = Ok (fingerprint_spec (sha256 [x61; x6c; x69; x63])).
Proof.
  split; [reflexivity |].
  apply (C8_fingerprint Ref.platform ref_laws Ref.alice_key
           [x61; x6c; x69; x63] Ref.world0 Ref.world0 eq_refl).
Defined.

End C8_witness.

Section C9_reference.
#[local] Existing Instance Ref.platform.

(** C9 (as stated, refuted): in the bundle made for "hello", flipping
    bit 1 of character 341 of [encKey] (the last character before the
    padding) gives another text, and [decryptMessage] returns "hello"
    all the same. *)
Lemma C9_flip_without_failure :
  exists b,
    fst (encryptMessage (str "hello") Ref.bob_key Ref.world0) = Ok b
    /\ (341 < length (encKey b))%nat
    /\ flip_unit (encKey b) 341 1 <> encKey b
    /\ fst (decryptMessage
              {| ciphertext := ciphertext b;
                 encKey := flip_unit (encKey b) 341 1;
                 iv := iv b |} Ref.bob_key Ref.world0)
       = Ok (str "hello").
Proof.
  eexists. split; [vm_compute; reflexivity |].
  split; [vm_compute; lia |].
  split; [vm_compute; discriminate | vm_compute; reflexivity].
Qed.

End C9_reference.

(** C9 (amended): for every bundle that [encryptMessage] produced and
    the matching private key, flipping any single bit of the 12 nonce
    bytes, or of the 16 tag bytes that end the ciphertext, makes
    [decryptMessage] fail with an error.  For any altered bundle,
    [decryptMessage] returns a plaintext only if the RSA-OAEP unwrapping
    and the AES-GCM tag check both accept the altered bytes.  An
    alteration of the base64 text that leaves the decoded bytes as they
    were changes nothing: [decryptMessage] returns what it returns for
    the bundle as it was made, the plaintext as [TextDecoder] reads its
    bytes, which is the plaintext itself when that is well-formed and
    starts with no U+FEFF; and every bundle has such a single-bit flip,
    in character 341 of [encKey], the last before the padding. *)
Theorem C9_tampering (P : Platform) (L : PlatformLaws P)
  (text pub priv : jsstring) (w w' : world) (b : MessageBundle) :
  valid_keypair pub priv ->
  fst (encryptMessage text pub w) = Ok b ->
  fst (decryptMessage b priv w') = Ok (Utf8.decode (Utf8.encode text))
  /\ (Utf8.clean_text text = true ->
      fst (decryptMessage b priv w') = Ok text)
  /\ (forall nonce i bit,
        unb64 (iv b) = Some nonce -> (i < 12)%nat -> bit < 8 ->
        fst (decryptMessage
               {| ciphertext := ciphertext b; encKey := encKey b;
                  iv := b64 (flip_byte nonce i bit) |} priv w')
        = Throw OperationError)
  /\ (forall body t i bit,
        unb64 (ciphertext b) = Some (body ++ t) -> length t = 16%nat ->
        (i < 16)%nat -> bit < 8 ->
        fst (decryptMessage
               {| ciphertext := b64 (body ++ flip_byte t i bit);
                  encKey := encKey b; iv := iv b |} priv w')
        = Throw OperationError)
  /\ (forall b' p,
        fst (decryptMessage b' priv w') = Ok p ->
        exists k i c plain,
          wrapped_key priv b' = Some k
          /\ unb64 (iv b') = Some i /\ unb64 (ciphertext b') = Some c
          /\ aes_gcm_open k i c = Some plain /\ p = Utf8.decode plain)
  /\ (forall b',
        unb64 (ciphertext b') = unb64 (ciphertext b) ->
        unb64 (encKey b') = unb64 (encKey b) ->
        unb64 (iv b') = unb64 (iv b) ->
        fst (decryptMessage b' priv w') = fst (decryptMessage b priv w'))
  /\ (exists bit,
        bit < 16
        /\ flip_unit (encKey b) 341 bit <> encKey b
        /\ fst (decryptMessage
                  {| ciphertext := ciphertext b;
                     encKey := flip_unit (encKey b) 341 bit;
                     iv := iv b |} priv w')
           = fst (decryptMessage b priv w')).
Proof.
  intros Hk Hb.
  destruct (fresh_bundle_tampered L text pub priv w w' b Hk Hb)
    as (_ & Hd & (c & nonce0 & Hkey & Hclen & Hiv & Hnlen) & Hnonce & Htag).
  assert (Hsame : forall b',
            unb64 (ciphertext b') = unb64 (ciphertext b) ->
            unb64 (encKey b') = unb64 (encKey b) ->
            unb64 (iv b') = unb64 (iv b) ->
            fst (decryptMessage b' priv w') = fst (decryptMessage b priv w')).
  { intros b' Hc He' Hi.
    exact (decryptMessage_same_bytes b b' priv w' Hc He' Hi). }
  split; [exact Hd |].
  split; [intros Hclean; rewrite Hd, decode_encode by exact Hclean;
          reflexivity |].
  split; [| split; [| split; [| split; [exact Hsame |]]]].
  - intros nonce i bit Hn Hi Hbit.
    assert (Hlen : length nonce = 12%nat).
    { rewrite Hiv, unb64_b64 in Hn. injection Hn as <-. exact Hnlen. }
    apply Hnonce.
    + rewrite flip_byte_length. exact Hlen.
    + rewrite Hn. intros [= Heq].
      apply (flip_byte_differs nonce i bit); [lia | exact Hbit | exact Heq].
  - intros body t i bit Hsplit Ht Hi Hbit.
    apply (Htag body t (flip_byte t i bit) Hsplit Ht).
    + rewrite flip_byte_length. exact Ht.
    + apply flip_byte_differs; [lia | exact Hbit].
  - intros b' p. apply decryptMessage_accepts.
  - destruct (b64_unread_bit c Hclen) as (bit & Hbit & Hne & Hun).
    exists bit. rewrite Hkey.
    split; [exact Hbit |]. split; [exact Hne |].
    rewrite <- Hkey.
    apply Hsame; cbn [ciphertext encKey iv]; try reflexivity.
    rewrite Hkey, Hun, unb64_b64. reflexivity.
Qed.

Section C9_witness.
#[local] Existing Instance Ref.platform.

Lemma C9_tampering_witness :
  let made := encryptMessage (str "hello") Ref.bob_key Ref.world0 in
  valid_keypair Ref.bob_key Ref.bob_key
  /\ exists b,
       fst made = Ok b
       /\ fst (decryptMessage b Ref.bob_key Ref.world0) = Ok (str "hello")
       /\ forall nonce,
            unb64 (iv b) = Some nonce ->
            fst (decryptMessage
                   {| ciphertext := ciphertext b; encKey := encKey b;
                      iv := b64 (flip_byte nonce 0 0) |}
                   Ref.bob_key Ref.world0)
            = Throw OperationError.
Proof.
  cbv zeta. split; [apply ref_pair_valid |].
  destruct (fst (encryptMessage (str "hello") Ref.bob_key Ref.world0))
    as [b | e] eqn:Hb; [| vm_compute in Hb; discriminate Hb].
  exists b. split; [reflexivity |].
  destruct (C9_tampering Ref.platform ref_laws (str "hello") Ref.bob_key
              Ref.bob_key Ref.world0 Ref.world0 b (ref_pair_valid _) Hb)
    as (_ & Hd & Hnonce & _).
  split; [apply Hd; reflexivity |].
  intros nonce Hn. apply (Hnonce nonce 0%nat 0 Hn); lia.
Defined.

End C9_witness.

(** C10: in backup decode, once the outer document has parsed and its
    magic matches, the outcome is a payload or the one wrong-password
    error: invalid base64 in salt, iv or ciphertext, a ciphertext AES-GCM
    rejects, and decrypted bytes that are not JSON all end in it; and an
    invalid-format error comes only from a document that does not parse
    or whose magic does not match. *)
Theorem C10_one_error_after_magic (P : Platform)
  (content pw : jsstring) (w : world) :
  (forall pkg,
     JSON_parse content = Some pkg ->
     field pkg (str "magic") = Some (JStr BACKUP_MAGIC) ->
     ((exists v, fst (decryptBackup content pw w) = Ok v)
      \/ fst (decryptBackup content pw w) = Throw (Error msg_wrong_password))
     /\ (unb64 (ToString (field pkg (str "salt"))) = None
         \/ unb64 (ToString (field pkg (str "iv"))) = None
         \/ unb64 (ToString (field pkg (str "ciphertext"))) = None
         \/ (exists salt iv ct,
               unb64 (ToString (field pkg (str "salt"))) = Some salt
               /\ unb64 (ToString (field pkg (str "iv"))) = Some iv
               /\ unb64 (ToString (field pkg (str "ciphertext"))) = Some ct
               /\ (aes_gcm_open (backup_key pw salt) iv ct = None
                   \/ exists plain,
                        aes_gcm_open (backup_key pw salt) iv ct = Some plain
                        /\ JSON_parse (Utf8.decode plain) = None)) ->
         fst (decryptBackup content pw w) = Throw (Error msg_wrong_password)))
  /\ (forall e,
        fst (decryptBackup content pw w) = Throw e -> invalid_format e ->
        JSON_parse content = None
        \/ exists pkg, JSON_parse content = Some pkg
                       /\ field pkg (str "magic") <> Some (JStr BACKUP_MAGIC)).
Proof.
  rewrite decryptBackup_outcome. split.
  - intros pkg Hparse Hmagic. rewrite Hparse.
    assert (Hnn : pkg <> JNull) by (intros ->; discriminate).
    rewrite (not_null_match _ _ _ Hnn).
    replace (strict_neq_string (field pkg (str "magic")) BACKUP_MAGIC)
      with false by (symmetry; apply strict_neq_string_false; exact Hmagic).
    destruct (unb64 (ToString (field pkg (str "salt")))) as [salt |].
    2:{ split; [right; reflexivity | reflexivity]. }
    destruct (unb64 (ToString (field pkg (str "iv")))) as [iv |].
    2:{ split; [right; reflexivity | reflexivity]. }
    destruct (unb64 (ToString (field pkg (str "ciphertext")))) as [ct |].
    2:{ split; [right; reflexivity | reflexivity]. }
    destruct (aes_gcm_open (backup_key pw salt) iv ct) as [plain |] eqn:Hopen.
    2:{ split; [right; reflexivity | reflexivity]. }
    destruct (JSON_parse (Utf8.decode plain)) as [v |] eqn:Hjson.
    2:{ split; [right; reflexivity | reflexivity]. }
    split; [left; exists v; reflexivity |].
    intros [H | [H | [H | (s & i & c & Hs & Hi & Hc & H)]]];
      try discriminate.
    assert (s = salt) by congruence. assert (i = iv) by congruence.
    assert (c = ct) by congruence. subst s i c.
    destruct H as [H | (plain' & Hp & Hj)]; [congruence |].
    assert (plain' = plain) by congruence. subst plain'. congruence.
  - intros e.
    destruct (JSON_parse content) as [pkg |]; [| intros _ _; left; reflexivity].
    destruct (strict_neq_string (field pkg (str "magic")) BACKUP_MAGIC) eqn:E.
    + intros _ _. right. exists pkg. split; [reflexivity |].
      intros Hm. apply strict_neq_string_false in Hm. congruence.
    + intros He Hinv. exfalso.
      assert (Hwrong : e = TypeError \/ e = Error msg_wrong_password).
      { revert He. destruct pkg; cbn [fst];
          repeat match goal with
          | |- context [match ?x with _ => _ end] => destruct x
          end; cbn [fst]; intros [= <-]; auto. }
      destruct Hinv as [-> | ->], Hwrong as [Hw | Hw]; discriminate.
Qed.

Section C10_witness.
#[local] Existing Instance Ref.platform.

Lemma C10_one_error_after_magic_witness :
  let pkg := JObj [(str "magic", JStr BACKUP_MAGIC)] in
  let content := JSON_stringify 2 pkg in
  JSON_parse content = Some pkg
  /\ field pkg (str "magic") = Some (JStr BACKUP_MAGIC)
  /\ unb64 (ToString (field pkg (str "salt"))) = None
  /\ fst (decryptBackup content (str "backup123") Ref.world0)
     = Throw (Error msg_wrong_password).
Proof.
  cbv zeta.
  assert (Hparse : JSON_parse (JSON_stringify 2
                     (JObj [(str "magic", JStr BACKUP_MAGIC)]))
                   = Some (JObj [(str "magic", JStr BACKUP_MAGIC)]))
    by (apply (JSON_round_trip ref_laws); reflexivity).
  split; [exact Hparse |]. split; [reflexivity |]. split; [reflexivity |].
  apply (proj2 (proj1 (C10_one_error_after_magic Ref.platform
                         (JSON_stringify 2
                            (JObj [(str "magic", JStr BACKUP_MAGIC)]))
                         (str "backup123") Ref.world0)
                  (JObj [(str "magic", JStr BACKUP_MAGIC)])
                  Hparse eq_refl)).
  left. reflexivity.
Defined.

End C10_witness.

(* ================================================================== *)
(** * Facts: byte sizes and PEM *)
(* ================================================================== *)

Lemma encode_scalar_length c :
  (1 <= length (Utf8.encode_scalar c) <= 4)%nat
  /\ (c < 0x10000 -> (length (Utf8.encode_scalar c) <= 3)%nat)
  /\ (c < 0x80 -> length (Utf8.encode_scalar c) = 1%nat)
  /\ (0x10000 <= c -> length (Utf8.encode_scalar c) = 4%nat).
Proof.
  unfold Utf8.encode_scalar.
  destruct (N.ltb_spec c 0x80); [cbn; lia |].
  destruct (N.ltb_spec c 0x800); [cbn; lia |].
  destruct (N.ltb_spec c 0x10000); cbn; lia.
Qed.

Lemma encode_length_aux n : forall s,
  (length s <= n)%nat -> Forall (fun u => u < 0x10000) s ->
  (length s <= length (flat_map Utf8.encode_scalar (Utf8.to_scalars s))
   <= 3 * length s)%nat.
Proof.
  induction n as [| n IH]; intros s Hn Hs.
  - destruct s; [cbn; lia | cbn in Hn; lia].
  - destruct s as [| u rest]; [cbn; lia |].
    inversion Hs as [| ? ? Hu Hrest]; subst.
    cbn [Utf8.to_scalars].
    destruct (Utf8.is_lead u) eqn:Hl.
    + destruct rest as [| v rest']; [cbn; lia |].
      destruct (Utf8.is_trail v) eqn:Ht.
      * inversion Hrest as [| ? ? Hv Hrest']; subst.
        cbn [flat_map]. rewrite length_app.
        specialize (IH rest' ltac:(cbn in Hn; lia) Hrest').
        unfold Utf8.is_lead, Utf8.is_trail in *.
        apply andb_true_iff in Hl as [Hl1 Hl2], Ht as [Ht1 Ht2].
        apply N.leb_le in Hl1, Hl2, Ht1, Ht2.
        match goal with
        | |- context [length (Utf8.encode_scalar ?c)] =>
            destruct (encode_scalar_length c) as (_ & _ & _ & H4);
            rewrite H4 by lia
        end.
        cbn [length] in *. lia.
      * cbn [flat_map]. rewrite length_app.
        specialize (IH (v :: rest') ltac:(cbn in Hn |- *; lia) Hrest).
        change (Utf8.encode_scalar 65533) with [239; 191; 189].
        cbn [length] in *. lia.
    + destruct (Utf8.is_trail u) eqn:Ht.
      * cbn [flat_map]. rewrite length_app.
        specialize (IH rest ltac:(cbn in Hn; lia) Hrest).
        change (Utf8.encode_scalar 65533) with [239; 191; 189].
        cbn [length] in *. lia.
      * cbn [flat_map]. rewrite length_app.
        specialize (IH rest ltac:(cbn in Hn; lia) Hrest).
        destruct (encode_scalar_length u) as (H1 & H2 & _ & _).
        specialize (H2 Hu). cbn [length] in *. lia.
Qed.

Lemma encode_ascii s :
  Forall (fun u => u < 0x80) s ->
  flat_map Utf8.encode_scalar (Utf8.to_scalars s) = s.
Proof.
  induction 1 as [| u rest Hu _ IH]; [reflexivity |].
  cbn [Utf8.to_scalars].
  unfold Utf8.is_lead, Utf8.is_trail.
  replace (55296 <=? u) with false by (symmetry; apply N.leb_gt; lia).
  replace (56320 <=? u) with false by (symmetry; apply N.leb_gt; lia).
  cbn [andb flat_map]. rewrite IH. unfold Utf8.encode_scalar.
  replace (u <? 128) with true by (symmetry; apply N.ltb_lt; lia).
  reflexivity.
Qed.

(** X1: getByteSize counts between one and three bytes for each code
    unit of the string (a code unit is below 2^16), and exactly one each
    when the text is ASCII. *)
Theorem getByteSize_bounds (s : jsstring) :
  Forall (fun u => u < 0x10000) s ->
  N.of_nat (length s) <= getByteSize s <= 3 * N.of_nat (length s)
  /\ (Forall (fun u => u < 0x80) s -> getByteSize s = N.of_nat (length s)).
Proof.
  intros Hs. unfold getByteSize, Utf8.encode. rewrite length_map.
  pose proof (encode_length_aux (length s) s (le_n _) Hs) as H.
  split; [lia |].
  intros Ha. rewrite encode_ascii by exact Ha. reflexivity.
Qed.

Lemma getByteSize_bounds_witness :
  Forall (fun u => u < 0x10000) (str "abc")
  /\ N.of_nat (length (str "abc")) <= getByteSize (str "abc")
     <= 3 * N.of_nat (length (str "abc")).
Proof.
  assert (H : Forall (fun u => u < 0x10000) (str "abc")).
  { repeat constructor. }
  split; [exact H |]. exact (proj1 (getByteSize_bounds (str "abc") H)).
Defined.

(** X2: formatBytes writes a count below 1024 as it is; from 1024 up to
    2^20 it writes the tenths of a kilobyte nearest to the count (the
    larger of two equally near), which for the last 51 counts below 2^20
    reads "1024.0 KB"; from 2^20 on, the nearest tenths of a
    megabyte. *)
Theorem formatBytes_rounding (bytes : N) :
  (bytes < 1024 -> formatBytes bytes = decimal bytes ++ str " B")
  /\ (1024 <= bytes < 1048576 ->
      exists n,
        formatBytes bytes
        = decimal (n / 10) ++ str "." ++ decimal (n mod 10) ++ str " KB"
        /\ 10 <= n <= 10240
        /\ 1024 * n <= 10 * bytes + 512 < 1024 * (n + 1)
        /\ (1048525 <= bytes -> formatBytes bytes = str "1024.0 KB"))
  /\ (1048576 <= bytes ->
      exists n,
        formatBytes bytes
        = decimal (n / 10) ++ str "." ++ decimal (n mod 10) ++ str " MB"
        /\ 10 <= n
        /\ 1048576 * n <= 10 * bytes + 524288 < 1048576 * (n + 1)).
Proof.
  unfold formatBytes. split; [| split].
  - intros H. apply N.ltb_lt in H. rewrite H. reflexivity.
  - intros [H1 H2].
    replace (bytes <? 1024) with false by (symmetry; apply N.ltb_ge; lia).
    replace (bytes <? 1024 * 1024) with true
      by (symmetry; apply N.ltb_lt; lia).
    unfold toFixed1.
    set (n := (20 * bytes + 1024) / (2 * 1024)).
    assert (Hn : 1024 * n <= 10 * bytes + 512 < 1024 * (n + 1))
      by (subst n; lia).
    exists n. split; [rewrite <- !app_assoc; reflexivity |].
    split; [lia |]. split; [exact Hn |].
    intros H3. assert (n = 10240) as -> by lia. reflexivity.
  - intros H.
    replace (bytes <? 1024) with false by (symmetry; apply N.ltb_ge; lia).
    replace (bytes <? 1024 * 1024) with false
      by (symmetry; apply N.ltb_ge; lia).
    unfold toFixed1.
    set (n := (20 * bytes + 1024 * 1024) / (2 * (1024 * 1024))).
    assert (Hn : 1048576 * n <= 10 * bytes + 524288 < 1048576 * (n + 1))
      by (subst n; lia).
    exists n. split; [rewrite <- !app_assoc; reflexivity |].
    split; [lia | exact Hn].
Qed.

Lemma formatBytes_rounding_witness :
  formatBytes 1280 = str "1.3 KB"
  /\ formatBytes 1048575 = str "1024.0 KB".
Proof.
  split.
  - destruct (proj1 (proj2 (formatBytes_rounding 1280)))
      as (n & Hf & Hn & Hb & _); [lia |].
    assert (n = 13) as -> by lia. exact Hf.
  - destruct (proj1 (proj2 (formatBytes_rounding 1048575)))
      as (n & _ & _ & _ & Hf); [lia |]. apply Hf. lia.
Defined.

Lemma match_dot_1_64_from_spec s : forall cur,
  (length cur <= 64)%nat ->
  Forall (fun c => is_line_terminator c = false) s ->
  let lines := match_dot_1_64_from cur s in
  concat lines = cur ++ s
  /\ Forall (fun l => (1 <= length l <= 64)%nat) lines
  /\ (forall i, (S i < length lines)%nat ->
        length (nth i lines []) = 64%nat).
Proof.
  induction s as [| c rest IH]; intros cur Hcur Hs; cbn zeta.
  - cbn [match_dot_1_64_from]. destruct cur as [| x cur'].
    + repeat split; [constructor | cbn; intros; lia].
    + cbn [concat]. rewrite !app_nil_r. repeat split.
      * constructor; [cbn [length] in *; lia | constructor].
      * cbn [length]. intros; lia.
  - inversion Hs as [| ? ? Hc Hrest]; subst.
    cbn [match_dot_1_64_from]. rewrite Hc.
    destruct (Nat.eqb_spec (length cur) 64) as [E | E].
    + destruct (IH [c] ltac:(cbn; lia) Hrest) as (H1 & H2 & H3).
      cbn zeta in *. cbn [concat]. rewrite H1. repeat split.
      * constructor; [lia | exact H2].
      * intros [| i] Hi; cbn [nth]; [exact E |].
        apply H3. cbn [length] in Hi. lia.
    + destruct (IH (cur ++ [c])) as (H1 & H2 & H3);
        [rewrite length_app; cbn; lia | exact Hrest |].
      cbn zeta in *. rewrite H1, <- app_assoc. repeat split; assumption.
Qed.

Lemma match_dot_1_64_nonempty s :
  s <> [] -> Forall (fun c => is_line_terminator c = false) s ->
  match_dot_1_64 s <> [].
Proof.
  intros Hne Hs E.
  destruct (match_dot_1_64_from_spec s [] ltac:(cbn; lia) Hs) as (H1 & _).
  cbn zeta in H1. unfold match_dot_1_64 in E. rewrite E in H1.
  cbn in H1. congruence.
Qed.

Lemma toPEM_body b64 :
  b64 <> [] -> Forall (fun c => is_line_terminator c = false) b64 ->
  toPEM b64
  = PEM_BEGIN ++ [10] ++ join [10] (match_dot_1_64 b64) ++ [10] ++ PEM_END.
Proof.
  intros Hne Hs. pose proof (match_dot_1_64_nonempty b64 Hne Hs) as Hl.
  unfold toPEM. destruct (match_dot_1_64 b64); [congruence | reflexivity].
Qed.

(** X3: toPEM puts a key that is not empty and holds no line terminator
    between the two marker lines, cut in lines of 64 characters, the
    last one of 1 to 64. *)
Theorem toPEM_lines (b64 : jsstring) :
  b64 <> [] -> Forall (fun c => is_line_terminator c = false) b64 ->
  exists lines,
    toPEM b64 = PEM_BEGIN ++ [10] ++ join [10] lines ++ [10] ++ PEM_END
    /\ concat lines = b64
    /\ lines <> []
    /\ Forall (fun l => (1 <= length l <= 64)%nat) lines
    /\ (forall i, (S i < length lines)%nat ->
          length (nth i lines []) = 64%nat).
Proof.
  intros Hne Hs. exists (match_dot_1_64 b64).
  destruct (match_dot_1_64_from_spec b64 [] ltac:(cbn; lia) Hs)
    as (H1 & H2 & H3).
  cbn zeta in *. fold (match_dot_1_64 b64) in *.
  repeat split.
  - apply toPEM_body; assumption.
  - exact H1.
  - apply match_dot_1_64_nonempty; assumption.
  - exact H2.
  - exact H3.
Qed.

Lemma toPEM_lines_witness :
  exists lines,
    toPEM (repeat 65 70)
    = PEM_BEGIN ++ [10] ++ join [10] lines ++ [10] ++ PEM_END
    /\ concat lines = repeat 65 70
    /\ lines <> []
    /\ Forall (fun l => (1 <= length l <= 64)%nat) lines
    /\ (forall i, (S i < length lines)%nat ->
          length (nth i lines []) = 64%nat).
Proof.
  apply (toPEM_lines (repeat 65 70)).
  - discriminate.
  - apply Forall_forall. intros c Hc. apply repeat_spec in Hc. subst c.
    reflexivity.
Defined.

Lemma remove_markers_skip p : forall r,
  remove_markers (length p) (p ++ r) = remove_markers 0 r.
Proof.
  induction p as [| x p IH]; intros r; [reflexivity |].
  cbn [length app remove_markers]. apply IH.
Qed.

Lemma starts_with_other p c s :
  match p with x :: _ => x <> c | [] => False end ->
  starts_with p (c :: s) = false.
Proof.
  destruct p as [| x p']; [intros [] |]. intros Hx. cbn [starts_with].
  replace (x =? c) with false by (symmetry; apply N.eqb_neq; exact Hx).
  reflexivity.
Qed.

Lemma remove_markers_step c s :
  c <> 45 ->
  remove_markers 0 (c :: s)
  = if (c =? 10) || (c =? 13) then remove_markers 0 s
    else c :: remove_markers 0 s.
Proof.
  intros Hc. cbn [remove_markers].
  rewrite !starts_with_other by (cbn; congruence). reflexivity.
Qed.

Lemma remove_markers_kept l : forall r,
  Forall pem_char l ->
  remove_markers 0 (l ++ r) = l ++ remove_markers 0 r.
Proof.
  induction l as [| c l IH]; intros r Hl; [reflexivity |].
  inversion Hl as [| ? ? [Hc Ht] Hl']; subst.
  cbn [app]. rewrite remove_markers_step by exact Hc.
  unfold is_line_terminator in Ht.
  apply orb_false_iff in Ht as [Ht _].
  apply orb_false_iff in Ht as [Ht _].
  rewrite Ht. rewrite IH by exact Hl'. reflexivity.
Qed.

Lemma starts_with_app p : forall s, starts_with p (p ++ s) = true.
Proof.
  induction p as [| x p IH]; intros s; [reflexivity |].
  cbn [app starts_with]. rewrite N.eqb_refl. apply IH.
Qed.

Lemma remove_markers_unfold c rest :
  remove_markers 0 (c :: rest)
  = if starts_with PEM_BEGIN (c :: rest)
    then remove_markers (length PEM_BEGIN - 1) rest
    else if starts_with PEM_END (c :: rest)
    then remove_markers (length PEM_END - 1) rest
    else if (c =? 10) || (c =? 13) then remove_markers 0 rest
    else c :: remove_markers 0 rest.
Proof. reflexivity. Qed.

Lemma remove_markers_marker p r :
  PEM_BEGIN = p -> remove_markers 0 (p ++ r) = remove_markers 0 r.
Proof.
  destruct p as [| x p']; intros E; [discriminate E |].
  cbn [app]. rewrite remove_markers_unfold, E.
  pose proof (starts_with_app (x :: p') r) as H. cbn [app] in H.
  rewrite H. cbn [length]. rewrite Nat.sub_1_r. cbn [Nat.pred].
  apply remove_markers_skip.
Qed.

Lemma remove_markers_begin r :
  remove_markers 0 (PEM_BEGIN ++ r) = remove_markers 0 r.
Proof. apply remove_markers_marker. reflexivity. Qed.

Lemma remove_markers_end : remove_markers 0 PEM_END = [].
Proof. reflexivity. Qed.

Lemma remove_markers_lines lines :
  Forall (Forall pem_char) lines ->
  remove_markers 0 (join [10] lines ++ 10 :: PEM_END) = concat lines.
Proof.
  assert (Hnl : forall r, remove_markers 0 (10 :: r) = remove_markers 0 r).
  { intros r. rewrite remove_markers_step by discriminate. reflexivity. }
  induction lines as [| l rest IH]; intros Hl.
  - cbn [join concat app]. rewrite Hnl. apply remove_markers_end.
  - inversion Hl as [| ? ? Hl1 Hrest]; subst.
    destruct rest as [| l' rest'].
    + cbn [join concat]. rewrite app_nil_r.
      rewrite remove_markers_kept by exact Hl1.
      rewrite Hnl, remove_markers_end, app_nil_r. reflexivity.
    + change (join [10] (l :: l' :: rest'))
        with (l ++ [10] ++ join [10] (l' :: rest')).
      rewrite <- !app_assoc.
      rewrite remove_markers_kept by exact Hl1.
      cbn [app]. rewrite Hnl. cbn [concat]. f_equal.
      apply IH. exact Hrest.
Qed.

Lemma Forall_concat_inv {A} (Q : A -> Prop) (ls : list (list A)) :
  Forall Q (concat ls) -> Forall (Forall Q) ls.
Proof.
  induction ls as [| l ls IH]; intros H; [constructor |].
  cbn [concat] in H. apply Forall_app in H as [H1 H2].
  constructor; [exact H1 | apply IH; exact H2].
Qed.

Lemma fromPEM_toPEM_key b64 :
  b64 <> [] -> Forall pem_char b64 -> fromPEM (toPEM b64) = b64.
Proof.
  intros Hne Hs.
  assert (Hs' : Forall (fun c => is_line_terminator c = false) b64).
  { eapply Forall_impl; [| exact Hs]. intros c [_ H]. exact H. }
  destruct (match_dot_1_64_from_spec b64 [] ltac:(cbn; lia) Hs')
    as (Hc & _).
  cbn zeta in Hc. fold (match_dot_1_64 b64) in Hc. cbn [app] in Hc.
  unfold fromPEM. rewrite (toPEM_body b64 Hne Hs'), remove_markers_begin.
  cbn [app]. rewrite remove_markers_step by discriminate.
  change ((10 =? 10) || (10 =? 13)) with true. cbv iota.
  rewrite (remove_markers_lines (match_dot_1_64 b64)); [exact Hc |].
  apply Forall_concat_inv. rewrite Hc. exact Hs.
Qed.

(** X4: fromPEM gives back the key toPEM was given, when the key is not
    empty and holds no hyphen and no line terminator (a base64 text
    holds neither).  Of an empty key toPEM makes the body "undefined",
    and that is what fromPEM returns.  Whatever it is given, fromPEM
    leaves no line feed and no carriage return. *)
Theorem fromPEM_toPEM :
  (forall b64, b64 <> [] -> Forall pem_char b64 ->
     fromPEM (toPEM b64) = b64)
  /\ fromPEM (toPEM []) = str "undefined"
  /\ (forall pem, Forall (fun c => c <> 10 /\ c <> 13) (fromPEM pem)).
Proof.
  split; [| split].
  - exact fromPEM_toPEM_key.
  - reflexivity.
  - intros pem. unfold fromPEM. generalize 0%nat.
    induction pem as [| c rest IH]; intros skip; [constructor |].
    cbn [remove_markers]. destruct skip as [| k]; [| apply IH].
    destruct (starts_with PEM_BEGIN (c :: rest)); [apply IH |].
    destruct (starts_with PEM_END (c :: rest)); [apply IH |].
    destruct (N.eqb_spec c 10) as [| H10]; [apply IH |].
    destruct (N.eqb_spec c 13) as [| H13]; [apply IH |].
    cbn [orb]. constructor; [split; assumption | apply IH].
Qed.

Lemma fromPEM_toPEM_witness :
  fromPEM (toPEM (str "MIIBIjANBgkq")) = str "MIIBIjANBgkq".
Proof.
  apply (proj1 fromPEM_toPEM).
  - discriminate.
  - repeat (constructor; [split; [discriminate | reflexivity] |]).
    constructor.
Defined.

(* ================================================================== *)
(** * Facts: the base64 helpers *)
(* ================================================================== *)

Lemma alphabet_base64_char i : i < 64 -> base64_char (Base64.alphabet i).
Proof.
  intros Hi. left. rewrite value_alphabet by exact Hi. discriminate.
Qed.

Lemma encode_units_shape l :
  Base64.small l ->
  length (Base64.encode_units l) = (4 * ((length l + 2) / 3))%nat
  /\ Forall base64_char (Base64.encode_units l).
Proof.
  assert (Hp : base64_char Base64.pad) by (right; reflexivity).
  induction l as [| a | a b | a b c rest IH] using list_ind3; intros Hl;
    unfold Base64.small in *.
  - split; [reflexivity | constructor].
  - inversion Hl; subst. cbn [Base64.encode_units]. split; [reflexivity |].
    repeat (constructor;
            [first [exact Hp | apply alphabet_base64_char; lia] |]).
    constructor.
  - inversion Hl as [| ? ? Ha Hl']; subst. inversion Hl'; subst.
    cbn [Base64.encode_units]. split; [reflexivity |].
    repeat (constructor;
            [first [exact Hp | apply alphabet_base64_char; lia] |]).
    constructor.
  - inversion Hl as [| ? ? Ha Hl1]; subst.
    inversion Hl1 as [| ? ? Hb Hl2]; subst.
    inversion Hl2 as [| ? ? Hc Hl3]; subst.
    destruct (IH Hl3) as [IH1 IH2].
    cbn [Base64.encode_units length]. rewrite IH1. split.
    + replace (S (S (S (length rest))) + 2)%nat
        with (3 + (length rest + 2))%nat by lia.
      pose proof (Nat.div_mod_eq (length rest + 2) 3).
      pose proof (Nat.div_mod_eq (3 + (length rest + 2)) 3).
      pose proof (Nat.mod_upper_bound (length rest + 2) 3).
      pose proof (Nat.mod_upper_bound (3 + (length rest + 2)) 3).
      lia.
    + repeat (constructor; [apply alphabet_base64_char; lia |]).
      exact IH2.
Qed.

(** X5: arrayToBase64 writes a buffer that fits the arguments of one
    call as a text of four characters for every three bytes begun, each
    a base64 digit or [=], and base64ToArray reads the buffer back from
    it; neither call throws.  For a buffer that does not fit,
    arrayToBase64 throws a RangeError. *)
Theorem base64_round_trip (P : Platform) (buffer : bytes) (w : world) :
  (fits (length buffer) ->
   exists text,
     arrayToBase64 buffer w = (Ok text, w)
     /\ base64ToArray text w = (Ok buffer, w)
     /\ length text = (4 * ((length buffer + 2) / 3))%nat
     /\ Forall base64_char text)
  /\ (~ fits (length buffer) ->
      arrayToBase64 buffer w = (Throw RangeError, w)).
Proof.
  split; [| apply arrayToBase64_too_long].
  intros Hfits. exists (b64 buffer).
  split; [apply arrayToBase64_run; exact Hfits |].
  split; [apply base64ToArray_b64 |].
  destruct (encode_units_shape (byte_string buffer)
              (byte_string_small buffer)) as [H1 H2].
  unfold b64. split; [| exact H2].
  rewrite H1. unfold byte_string. rewrite length_map. reflexivity.
Qed.

Lemma strip_padding_keeps c d :
  c <> Base64.pad -> In c d -> In c (Base64.strip_padding d).
Proof.
  intros Hc. induction d as [| x rest IH]; intros Hin; [exact Hin |].
  cbn [Base64.strip_padding].
  destruct rest as [| y rest'].
  - destruct Hin as [-> | []].
    replace (c =? Base64.pad) with false
      by (symmetry; apply N.eqb_neq; exact Hc).
    left. reflexivity.
  - destruct rest' as [| z rest''].
    + destruct (N.eqb_spec x Base64.pad) as [Ex | Ex].
      * destruct (N.eqb_spec y Base64.pad) as [Ey | Ey]; cbn [andb].
        -- destruct Hin as [-> | [-> | []]]; congruence.
        -- destruct Hin as [-> | Hin]; [left; reflexivity |].
           right. apply IH. exact Hin.
      * cbn [andb]. destruct Hin as [-> | Hin]; [left; reflexivity |].
        right. apply IH. exact Hin.
    + destruct Hin as [-> | Hin]; [left; reflexivity |].
      right. apply IH. exact Hin.
Qed.

Lemma values_none c d :
  In c d -> Base64.value c = None -> Base64.values d = None.
Proof.
  intros Hin Hv. induction d as [| x rest IH]; [destruct Hin |].
  cbn [Base64.values]. destruct Hin as [-> | Hin].
  - rewrite Hv. reflexivity.
  - rewrite (IH Hin). destruct (Base64.value x); reflexivity.
Qed.

(** X6: base64ToArray refuses a text that holds a character other than a
    base64 digit, [=] and ASCII white space: it throws
    InvalidCharacterError and leaves everything as it was. *)
Theorem base64ToArray_rejects (text : jsstring) (c : N) (w : world) :
  In c text -> Base64.value c = None -> c <> 61 ->
  Base64.is_ascii_whitespace c = false ->
  base64ToArray text w = (Throw InvalidCharacterError, w).
Proof.
  intros Hin Hv Hp Hw. rewrite base64ToArray_run.
  replace (unb64 text) with (@None bytes); [reflexivity |].
  symmetry. unfold unb64, Base64.decode_units.
  set (d := filter _ text).
  assert (Hd : In c d).
  { apply filter_In. split; [exact Hin | rewrite Hw; reflexivity]. }
  set (d' := if _ =? 0 then Base64.strip_padding d else d).
  assert (Hd' : In c d').
  { subst d'. destruct (_ =? 0); [| exact Hd].
    apply strip_padding_keeps; [exact Hp | exact Hd]. }
  destruct (_ =? 1); [reflexivity |].
  rewrite (values_none c d' Hd' Hv). reflexivity.
Qed.

Lemma base64ToArray_rejects_witness :
  base64ToArray (toPEM (str "QUJD")) Ref.world0
  = (Throw InvalidCharacterError, Ref.world0).
Proof.
  apply (base64ToArray_rejects (toPEM (str "QUJD")) 45 Ref.world0).
  - left. reflexivity.
  - reflexivity.
  - discriminate.
  - reflexivity.
Defined.

(* ================================================================== *)
(** * Facts: trim, KeysModal and AuthPage *)
(* ================================================================== *)

Lemma trim_space_plain c :
  is_trim_space c = true ->
  Utf8.is_lead c = false /\ Utf8.is_trail c = false /\ c < 0x10000.
Proof.
  unfold is_trim_space, Utf8.is_lead, Utf8.is_trail. intros H.
  repeat match type of H with
         | (_ || _) = true => apply orb_true_iff in H as [H | H]
         end.
  all: try (apply andb_true_iff in H as [H H']; apply N.leb_le in H, H').
  all: try apply N.eqb_eq in H.
  all: repeat split;
       first [ apply andb_false_iff; rewrite !N.leb_gt; lia | lia ].
Qed.

Lemma trimStart_split s :
  exists sp,
    s = sp ++ trimStart s /\ Forall (fun c => is_trim_space c = true) sp.
Proof.
  induction s as [| c rest (sp & IH1 & IH2)].
  - exists []. split; [reflexivity | constructor].
  - cbn [trimStart]. destruct (is_trim_space c) eqn:Hc.
    + exists (c :: sp). split; [cbn [app]; f_equal; exact IH1 |].
      constructor; assumption.
    + exists []. split; [reflexivity | constructor].
Qed.

Lemma trimStart_head s c r :
  trimStart s = c :: r -> is_trim_space c = false.
Proof.
  induction s as [| x rest IH]; cbn [trimStart]; [discriminate |].
  destruct (is_trim_space x) eqn:Hx; [exact IH |].
  intros [= <- _]. exact Hx.
Qed.

(** What [trim] leaves is the string without a run of white space at
    each end. *)
Lemma trim_split s :
  exists before after,
    s = before ++ trim s ++ after
    /\ Forall (fun c => is_trim_space c = true) before
    /\ Forall (fun c => is_trim_space c = true) after.
Proof.
  destruct (trimStart_split s) as (sp & H1 & H2).
  destruct (trimStart_split (rev (trimStart s))) as (sp' & H3 & H4).
  exists sp, (rev sp'). split; [| split].
  - unfold trim. rewrite <- rev_app_distr, <- H3, rev_involutive. exact H1.
  - exact H2.
  - apply Forall_rev. exact H4.
Qed.

Lemma trim_head s c r : trim s = c :: r -> is_trim_space c = false.
Proof.
  intros H.
  destruct (trimStart_split (rev (trimStart s))) as (sp' & H3 & _).
  apply (f_equal (@rev N)) in H3.
  rewrite rev_involutive, rev_app_distr in H3. fold (trim s) in H3.
  rewrite H in H3. cbn [app] in H3.
  apply (trimStart_head s c (r ++ rev sp')). exact H3.
Qed.

Lemma well_formed_after sp : forall s,
  Forall (fun c => is_trim_space c = true) sp ->
  Utf8.well_formed (sp ++ s) = true -> Utf8.well_formed s = true.
Proof.
  induction sp as [| c sp IH]; intros s Hsp H; [exact H |].
  inversion Hsp as [| ? ? Hc Hsp']; subst.
  destruct (trim_space_plain c Hc) as (Hl & _ & _).
  cbn [app Utf8.well_formed] in H. rewrite Hl in H.
  apply andb_true_iff in H as [_ H]. apply IH; assumption.
Qed.

Lemma well_formed_before_aux n : forall p sp,
  (length p <= n)%nat ->
  Forall (fun c => is_trim_space c = true) sp ->
  Utf8.well_formed (p ++ sp) = true -> Utf8.well_formed p = true.
Proof.
  induction n as [| n IH]; intros p sp Hn Hsp H.
  - destruct p; [reflexivity | cbn in Hn; lia].
  - destruct p as [| u p']; [reflexivity |].
    cbn [app Utf8.well_formed] in *.
    destruct (Utf8.is_lead u) eqn:Hl.
    + destruct p' as [| v p''].
      * cbn [app] in H. destruct sp as [| x sp']; [discriminate |].
        inversion Hsp as [| ? ? Hx _]; subst.
        destruct (trim_space_plain x Hx) as (_ & Ht & _).
        rewrite Ht in H. discriminate.
      * cbn [app] in H. apply andb_true_iff in H as [Hv H].
        rewrite Hv. cbn [andb].
        apply (IH p'' sp); [cbn in Hn; lia | exact Hsp | exact H].
    + apply andb_true_iff in H as [Hu H]. rewrite Hu. cbn [andb].
      apply (IH p' sp); [cbn in Hn; lia | exact Hsp | exact H].
Qed.

(** Trimming a well-formed text leaves a text that the encoder and the
    decoder carry unchanged: no lone surrogate, and no byte order mark
    in front, which [trim] counts as white space. *)
Lemma trim_clean_text s :
  Utf8.well_formed s = true -> Utf8.clean_text (trim s) = true.
Proof.
  intros Hwf. destruct (trim_split s) as (before & after & Hs & Hb & Ha).
  unfold Utf8.clean_text. apply andb_true_iff. split.
  - rewrite Hs in Hwf. apply well_formed_after in Hwf; [| exact Hb].
    apply (well_formed_before_aux (length (trim s)) (trim s) after);
      [lia | exact Ha | exact Hwf].
  - apply negb_true_iff. destruct (trim s) as [| c r] eqn:Ht; [reflexivity |].
    cbn [Utf8.starts_with_bom].
    pose proof (trim_head s c r Ht) as Hc.
    destruct (N.eqb_spec c 0xFEFF) as [-> |]; [discriminate | reflexivity].
Qed.





Section Register.
Context {P : Platform} (L : PlatformLaws P).





(** X9: handleRegister, form not in order: the first check that fails
    writes its line, and nothing else happens: no key is made, no
    random byte is drawn, and the server is not asked. *)
Theorem handleRegister_refuses {R} (post post' : register_request -> outcome R)
  (form : AuthPage.Form) (w : world) :
  ~ valid_form form ->
  AuthPage.handleRegister post form w
  = (Ok (Some (Text
       (if (length (trim (AuthPage.username form)) <? 3)%nat
        then "Username must be 3+ characters"
        else if (length (AuthPage.password form) <? 8)%nat
        then "Passphrase must be 8+ characters"
        else "Passphrases do not match"))), w)
  /\ AuthPage.handleRegister post' form w
     = AuthPage.handleRegister post form w.
Proof.
  intros Hv. unfold AuthPage.handleRegister.
  destruct (Nat.ltb_spec (length (trim (AuthPage.username form))) 3);
    [split; reflexivity |].
  destruct (Nat.ltb_spec (length (AuthPage.password form)) 8);
    [split; reflexivity |].
  destruct (jsstring_eqb (AuthPage.password form) (AuthPage.confirm form))
    eqn:E; [| split; reflexivity].
  apply jsstring_eqb_eq in E. exfalso. apply Hv. repeat split; assumption.
Qed.

End Register.

(* ================================================================== *)
(** * Facts: ChatWindow *)
(* ================================================================== *)

Lemma same_eq a b : same a b = true <-> a = b.
Proof.
  destruct a as [x |], b as [y |]; cbn [same].
  - rewrite jsstring_eqb_eq. split; congruence.
  - split; discriminate.
  - split; discriminate.
  - split; reflexivity.
Qed.

Lemma same_refl a : same a a = true.
Proof. apply same_eq. reflexivity. Qed.

Section Chat.
Context {P : Platform}.

Lemma decryptOne_run currentUser privateKey msg w :
  exists w',
    ChatWindow.decryptOne currentUser privateKey msg w
    = (Ok match fst (decryptMessage (bundle_for currentUser msg)
                                    (or_null privateKey) w) with
          | Ok text =>
              {| shown := msg; plaintext := text; decryptFailed := false |}
          | Throw _ =>
              {| shown := msg; plaintext := ChatWindow.UNABLE;
                 decryptFailed := true |}
          end, w').
Proof.
  unfold ChatWindow.decryptOne, try_catch, bind, ret, bundle_for.
  destruct (decryptMessage _ _ w) as [[text | e] w']; cbn [fst];
    eexists; reflexivity.
Qed.

Lemma decryptAll_run currentUser privateKey rawMsgs : forall w,
  exists w',
    ChatWindow.decryptAll currentUser privateKey rawMsgs w
    = (Ok (map (fun msg =>
                  match fst (decryptMessage (bundle_for currentUser msg)
                                            (or_null privateKey) w) with
                  | Ok text =>
                      {| shown := msg; plaintext := text;
                         decryptFailed := false |}
                  | Throw _ =>
                      {| shown := msg; plaintext := ChatWindow.UNABLE;
                         decryptFailed := true |}
                  end) rawMsgs), w').
Proof.
  unfold ChatWindow.decryptAll.
  induction rawMsgs as [| msg rest IH]; intros w.
  - exists w. reflexivity.
  - cbn [ChatWindow.all map].
    destruct (decryptOne_run currentUser privateKey msg w) as (w1 & H1).
    rewrite (bind_ok _ _ _ _ _ H1).
    destruct (IH w1) as (w2 & H2).
    rewrite (bind_ok _ _ _ _ _ H2).
    exists w2. unfold ret. f_equal. f_equal. f_equal.
    apply map_ext. intros m.
    rewrite (decryptMessage_any_world _ _ w1 w). reflexivity.
Qed.

(** X10: decryptAll never fails: it gives one entry for each message,
    in the order of the messages, and an entry either shows what
    decryptMessage returns for the bundle read with the session's key,
    or, when decryptMessage throws, is marked as failed and shows
    "[Unable to decrypt]". *)
Theorem decryptAll_marks (currentUser : User) (privateKey : option jsstring)
  (rawMsgs : list Message) (w : world) :
  exists entries,
    fst (ChatWindow.decryptAll currentUser privateKey rawMsgs w) = Ok entries
    /\ map shown entries = rawMsgs
    /\ Forall
         (fun e =>
            (decryptFailed e = false
             /\ forall w',
                  fst (decryptMessage (bundle_for currentUser (shown e))
                                      (or_null privateKey) w')
                  = Ok (plaintext e))
            \/ (decryptFailed e = true
                /\ plaintext e = ChatWindow.UNABLE
                /\ forall w', exists err,
                     fst (decryptMessage (bundle_for currentUser (shown e))
                                         (or_null privateKey) w')
                     = Throw err))
         entries.
Proof.
  destruct (decryptAll_run currentUser privateKey rawMsgs w) as (w' & H).
  rewrite H. cbn [fst]. eexists. split; [reflexivity |]. split.
  - rewrite map_map. erewrite map_ext; [apply map_id |].
    intros m. cbv beta.
    destruct (fst (decryptMessage _ _ w)); reflexivity.
  - apply Forall_map, Forall_forall. intros m _.
    destruct (fst (decryptMessage (bundle_for currentUser m)
                                  (or_null privateKey) w)) as [text | e] eqn:E;
      cbn [shown plaintext decryptFailed].
    + left. split; [reflexivity |]. intros w2.
      rewrite (decryptMessage_any_world _ _ w2 w). exact E.
    + right. split; [reflexivity |]. split; [reflexivity |].
      intros w2. exists e.
      rewrite (decryptMessage_any_world _ _ w2 w). exact E.
Qed.

Lemma known_app id prev e :
  ChatWindow.known id (prev ++ [e])
  = ChatWindow.known id prev || same (m_id (shown e)) id.
Proof.
  unfold ChatWindow.known. rewrite existsb_app. cbn [existsb].
  rewrite orb_false_r. reflexivity.
Qed.

Lemma add_unless_known_known e prev :
  ChatWindow.known (m_id (shown e)) (ChatWindow.add_unless_known e prev)
  = true.
Proof.
  unfold ChatWindow.add_unless_known.
  destruct (ChatWindow.known (m_id (shown e)) prev) eqn:E; [exact E |].
  rewrite known_app, same_refl. apply orb_true_r.
Qed.

Lemma handleIncoming_run contact privateKey msg prev w :
  exists e w',
    shown e = msg
    /\ ChatWindow.handleIncoming contact privateKey (Some msg) prev w
       = (Ok match contact with
             | Some c =>
                 if ChatWindow.from_contact msg c
                 then ChatWindow.add_unless_known e prev
                 else prev
             | None => prev
             end, w').
Proof.
  set (dflt := {| shown := msg; plaintext := []; decryptFailed := false |}).
  unfold ChatWindow.handleIncoming.
  destruct contact as [c |]; [| exists dflt, w; split; reflexivity].
  destruct (ChatWindow.from_contact msg c);
    [| exists dflt, w; split; reflexivity].
  unfold try_catch, bind, ret.
  destruct (decryptMessage _ _ w) as [[text | err] w'];
    eexists; exists w'; (split; [| reflexivity]); reflexivity.
Qed.

(** X11: the effect on an incoming message never fails, and the list
    afterwards is determined.  When a contact is open, the message comes
    from that contact and the list holds no message of its id, the list
    afterwards is the list before with one entry more, at the end: the
    message with the text decryptMessage returns for its recipient
    bundle and the session's key, or, when decryptMessage throws,
    with "[Unable to decrypt]" and the mark of failure.  In every other
    case the list stays as it was.  The same message coming again
    changes nothing more. *)
Theorem handleIncoming_once (contact : option User)
  (privateKey : option jsstring) (msg : Message) (prev : list Shown)
  (w : world) :
  exists next,
    fst (ChatWindow.handleIncoming contact privateKey (Some msg) prev w)
    = Ok next
    /\ next
       = (if match contact with
             | Some c =>
                 ChatWindow.from_contact msg c
                 && negb (ChatWindow.known (m_id msg) prev)
             | None => false
             end
          then
            prev
            ++ [match fst (decryptMessage (encryptedForRecipient msg)
                                          (or_null privateKey) w) with
                | Ok text =>
                    {| shown := msg; plaintext := text;
                       decryptFailed := false |}
                | Throw _ =>
                    {| shown := msg; plaintext := ChatWindow.UNABLE;
                       decryptFailed := true |}
                end]
          else prev)
    /\ (forall w',
          fst (ChatWindow.handleIncoming contact privateKey (Some msg)
                                         next w') = Ok next).
Proof.
  destruct (handleIncoming_run contact privateKey msg prev w)
    as (e & w1 & He & Hrun).
  rewrite Hrun. cbn [fst]. eexists. split; [reflexivity |].
  destruct contact as [c |].
  2: { split; [reflexivity |]. intros w'.
       destruct (handleIncoming_run None privateKey msg prev w')
         as (e' & w2 & _ & Hrun').
       rewrite Hrun'. reflexivity. }
  destruct (ChatWindow.from_contact msg c) eqn:Hc.
  2: { split; [reflexivity |]. intros w'.
       destruct (handleIncoming_run (Some c) privateKey msg prev w')
         as (e' & w2 & _ & Hrun').
       rewrite Hrun', Hc. reflexivity. }
  split.
  - cbn [andb].
    assert (Hnext : fst (ChatWindow.handleIncoming (Some c) privateKey
                           (Some msg) prev w)
                    = Ok (ChatWindow.add_unless_known e prev))
      by (rewrite Hrun; reflexivity).
    unfold ChatWindow.handleIncoming in Hnext. rewrite Hc in Hnext.
    unfold try_catch, bind, ret in Hnext.
    unfold ChatWindow.add_unless_known in *.
    destruct (decryptMessage (encryptedForRecipient msg)
                (or_null privateKey) w) as [[text | err] w2];
      cbn [fst shown] in *; rewrite He in *;
      destruct (ChatWindow.known (m_id msg) prev); cbn [negb];
      congruence.
  - intros w'.
    destruct (handleIncoming_run (Some c) privateKey msg
                (ChatWindow.add_unless_known e prev) w')
      as (e' & w2 & He' & Hrun').
    rewrite Hrun', Hc. cbn [fst]. f_equal.
    unfold ChatWindow.add_unless_known at 1.
    rewrite He', <- He, add_unless_known_known. reflexivity.
Qed.

End Chat.

Section ChatRoundTrip.
Context {P : Platform} (L : PlatformLaws P).

Lemma decryptAll_one currentUser privateKey msg text w :
  (forall w', fst (decryptMessage (bundle_for currentUser msg)
                                  (or_null privateKey) w') = Ok text) ->
  fst (ChatWindow.decryptAll currentUser privateKey [msg] w)
  = Ok [{| shown := msg; plaintext := text; decryptFailed := false |}].
Proof.
  intros H.
  destruct (decryptAll_run currentUser privateKey [msg] w) as (w' & Hrun).
  rewrite Hrun. cbn [fst map]. rewrite H. reflexivity.
Qed.

(** X12: sendMessage, with something to send, whatever the order in
    which the operations of its two encryptions run.  When the
    ciphertext of the trimmed input is within the engine's argument
    limit, the trimmed input is encrypted for the contact and for the
    sender and posted; when the server accepts, the window shows the
    trimmed input and the input box is emptied.  The posted bundles read
    back as that same text: by the sender through decryptAll with the
    sender's key, and by the contact, whose id and name differ from the
    sender's, through decryptAll and through the effect on an incoming
    message, with the contact's key.  A well-formed input is all it
    takes: what [trim] leaves starts with no byte order mark.  When the
    ciphertext is beyond the limit nothing is posted: the messages and
    the input stay as they were and the alert is Failed to send
    message. *)
Theorem send_then_read (sched : list bool)
  (post : ChatWindow.SendRequest -> outcome Message)
  (contact me : User) (contactPub contactPriv ownPub ownPriv : jsstring)
  (st : ChatWindow.State) (w : world) :
  Utf8.well_formed (ChatWindow.input st) = true ->
  trim (ChatWindow.input st) <> [] ->
  ChatWindow.sending st = false ->
  u_publicKey contact = Some contactPub -> u_publicKey me = Some ownPub ->
  valid_keypair contactPub contactPriv -> valid_keypair ownPub ownPriv ->
  (fits (length (Utf8.encode (trim (ChatWindow.input st))) + 16) ->
   exists req,
     fst (ChatWindow.sendMessage sched post (Some contact) me st w)
     = Ok match post req with
          | Ok data =>
              ({| ChatWindow.messages :=
                    ChatWindow.messages st
                    ++ [{| shown := data;
                           plaintext := trim (ChatWindow.input st);
                           decryptFailed := false |}];
                  ChatWindow.input := [];
                  ChatWindow.sending := false |}, None)
          | Throw err =>
              ({| ChatWindow.messages := ChatWindow.messages st;
                  ChatWindow.input := ChatWindow.input st;
                  ChatWindow.sending := false |},
               Some (response_message err "Failed to send message"))
          end
     /\ ChatWindow.recipientUsername req = u_username contact
     /\ forall id w',
          let msg := {| m_id := id; m_sender := SenderObject me;
                        encryptedForRecipient := ChatWindow.forRecipient req;
                        encryptedForSender := ChatWindow.forSender req |} in
          let entry := {| shown := msg;
                          plaintext := trim (ChatWindow.input st);
                          decryptFailed := false |} in
          fst (ChatWindow.decryptAll me (Some ownPriv) [msg] w') = Ok [entry]
          /\ (same (u_id me) (u_id contact) = false ->
              same (u_username me) (u_username contact) = false ->
              fst (ChatWindow.decryptAll contact (Some contactPriv) [msg] w')
              = Ok [entry]
              /\ (truthy (u_username me) = true ->
                  forall prev,
                    fst (ChatWindow.handleIncoming (Some me)
                           (Some contactPriv) (Some msg) prev w')
                    = Ok (ChatWindow.add_unless_known entry prev))))
  /\ (~ fits (length (Utf8.encode (trim (ChatWindow.input st))) + 16) ->
      fst (ChatWindow.sendMessage sched post (Some contact) me st w)
      = Ok ({| ChatWindow.messages := ChatWindow.messages st;
               ChatWindow.input := ChatWindow.input st;
               ChatWindow.sending := false |},
            Some "Failed to send message"%string)).
Proof.
  intros Hwf Hne Hs Hcp Hmp Hc Hm.
  destruct (@sendMessage_run P L sched (trim (ChatWindow.input st))
              contactPub contactPriv ownPub ownPriv w w w Hc Hm)
    as (_ & _ & _ & _ & _ & Hin & Hout).
  split.
  2: { intros Hno. specialize (Hout Hno).
       unfold ChatWindow.sendMessage. cbv zeta.
       destruct (trim (ChatWindow.input st)) as [| c r] eqn:Ht;
         [congruence |].
       rewrite Hs, Hcp, Hmp. cbn [or_undefined]. unfold try_catch.
       destruct (sendMessage sched (c :: r) contactPub ownPub w)
         as [o w1] eqn:E.
       cbn [fst] in Hout. subst o.
       unfold bind at 1. rewrite E. reflexivity. }
  intros Hfit.
  destruct (Hin Hfit) as (b1 & b2 & Hrun & _ & _ & Hd1 & Hd2).
  rewrite decode_encode in Hd1, Hd2 by (apply trim_clean_text; exact Hwf).
  exists {| ChatWindow.recipientUsername := u_username contact;
            ChatWindow.forRecipient := b1; ChatWindow.forSender := b2 |}.
  split; [| split; [reflexivity |]].
  - unfold ChatWindow.sendMessage. cbv zeta.
    destruct (trim (ChatWindow.input st)) as [| c r] eqn:Ht; [congruence |].
    rewrite Hs, Hcp, Hmp. cbn [or_undefined]. unfold try_catch.
    destruct (sendMessage sched (c :: r) contactPub ownPub w)
      as [o w1] eqn:E.
    cbn [fst] in Hrun. subst o.
    rewrite (bind_ok _ _ _ _ _ E). cbn [fst snd].
    unfold bind, lift, ret. destruct (post _); reflexivity.
  - intros id w'. cbv zeta.
    cbn [ChatWindow.forRecipient ChatWindow.forSender].
    split; [| intros Hid Hname; split].
    + apply decryptAll_one. intros w2.
      unfold bundle_for, ChatWindow.isSender.
      cbn [m_sender sender_id]. rewrite same_refl.
      cbn [orb encryptedForSender or_null].
      rewrite (decryptMessage_any_world _ _ w2 w). exact Hd2.
    + apply decryptAll_one. intros w2.
      unfold bundle_for, ChatWindow.isSender.
      cbn [m_sender sender_id sender_username sender_is].
      rewrite Hid, Hname.
      cbn [orb encryptedForRecipient or_null].
      rewrite (decryptMessage_any_world _ _ w2 w). exact Hd1.
    + intros Ht prev. unfold ChatWindow.handleIncoming, ChatWindow.from_contact.
      cbn [m_sender]. rewrite Ht, same_refl.
      unfold try_catch, bind, ret. cbn [encryptedForRecipient or_null].
      pose proof (decryptMessage_any_world b1 contactPriv w' w) as Hw.
      rewrite Hd1 in Hw.
      destruct (decryptMessage b1 contactPriv w') as [o w2].
      cbn [fst] in Hw. subst o. reflexivity.
Qed.

End ChatRoundTrip.

Section ChatOutcome.
Context {P : Platform}.

(** X13: sendMessage never fails, and does one of three things,
    whatever the order in which the operations of its two encryptions
    run.  With a blank input, while another send is under way, or with
    no contact open, nothing: the state and the world stay as they
    were.  When encryption or the server fails, an alert, with the
    messages and the input left as they were.  Otherwise one entry
    more, showing the trimmed input, and an empty input box.  Which of
    the last two it is follows the two encryptions and the server: the
    alert is there exactly when one of them fails, and carries the
    server's message when the failure has one; the entry shows the
    server's answer to the request holding the two bundles. *)
Theorem sendMessage_outcome (sched : list bool)
  (post : ChatWindow.SendRequest -> outcome Message)
  (contact : option User) (me : User) (st : ChatWindow.State) (w : world) :
  exists st' alert,
    fst (ChatWindow.sendMessage sched post contact me st w)
    = Ok (st', alert)
    /\ ((ChatWindow.sendMessage sched post contact me st w
         = (Ok (st, None), w)
         /\ (trim (ChatWindow.input st) = []
             \/ ChatWindow.sending st = true \/ contact = None))
        \/ (trim (ChatWindow.input st) <> []
            /\ ChatWindow.sending st = false /\ contact <> None
            /\ ChatWindow.sending st' = false
            /\ ((ChatWindow.messages st' = ChatWindow.messages st
                 /\ ChatWindow.input st' = ChatWindow.input st
                 /\ alert <> None)
                \/ (exists data,
                      ChatWindow.messages st'
                      = ChatWindow.messages st
                        ++ [{| shown := data;
                               plaintext := trim (ChatWindow.input st);
                               decryptFailed := false |}]
                      /\ ChatWindow.input st' = []
                      /\ alert = None))))
    /\ (forall c,
          contact = Some c -> trim (ChatWindow.input st) <> [] ->
          ChatWindow.sending st = false ->
          let failed err :=
            (st', alert)
            = ({| ChatWindow.messages := ChatWindow.messages st;
                  ChatWindow.input := ChatWindow.input st;
                  ChatWindow.sending := false |},
               Some (response_message err "Failed to send message")) in
          match fst (sendMessage sched (trim (ChatWindow.input st))
                       (or_undefined (u_publicKey c))
                       (or_undefined (u_publicKey me)) w) with
          | Ok bundles =>
              match post {| ChatWindow.recipientUsername := u_username c;
                            ChatWindow.forRecipient := fst bundles;
                            ChatWindow.forSender := snd bundles |} with
              | Ok data =>
                  (st', alert)
                  = ({| ChatWindow.messages :=
                          ChatWindow.messages st
                          ++ [{| shown := data;
                                 plaintext := trim (ChatWindow.input st);
                                 decryptFailed := false |}];
                        ChatWindow.input := [];
                        ChatWindow.sending := false |}, None)
              | Throw err => failed err
              end
          | Throw err => failed err
          end).
Proof.
  unfold ChatWindow.sendMessage. cbv zeta.
  destruct (trim (ChatWindow.input st)) as [| c r] eqn:Ht.
  { exists st, None. split; [reflexivity |]. split; [| congruence]. left.
    split; [reflexivity | left; reflexivity]. }
  destruct (ChatWindow.sending st) eqn:Hs.
  { exists st, None. split; [reflexivity |]. split; [| congruence]. left.
    split; [reflexivity | right; left; reflexivity]. }
  destruct contact as [ct |].
  2: { exists st, None. split; [reflexivity |]. split; [| congruence]. left.
       split; [reflexivity | right; right; reflexivity]. }
  unfold try_catch, bind, lift, ret.
  destruct (sendMessage sched (c :: r) _ _ w) as [[pair | err] w1] eqn:E.
  - destruct (post _) as [data | err] eqn:Hpost; cbn [fst].
    + eexists _, _. split; [reflexivity |]. split.
      * right.
        repeat (split; [first [discriminate | reflexivity] |]).
        right. exists data. repeat split.
      * intros c' [= <-] _ _. rewrite E. cbn [fst]. rewrite Hpost.
        reflexivity.
    + eexists _, _. split; [reflexivity |]. split.
      * right.
        repeat (split; [first [discriminate | reflexivity] |]).
        left. repeat split. discriminate.
      * intros c' [= <-] _ _. rewrite E. cbn [fst]. rewrite Hpost.
        reflexivity.
  - cbn [fst]. eexists _, _. split; [reflexivity |]. split.
    + right.
      repeat (split; [first [discriminate | reflexivity] |]).
      left. repeat split. discriminate.
    + intros c' [= <-] _ _. rewrite E. reflexivity.
Qed.

End ChatOutcome.

(* ================================================================== *)
(** * Facts: Sidebar *)
(* ================================================================== *)

Section SidebarFacts.
Import Sidebar.

Lemma findIndex_some {A} (f : A -> bool) l : forall i,
  findIndex f l = Some i ->
  exists l1 x l2,
    l = l1 ++ x :: l2 /\ f x = true
    /\ Forall (fun y => f y = false) l1
    /\ nth_error l i = Some x /\ splice1 i l = l1 ++ l2.
Proof.
  induction l as [| y rest IH]; intros i; cbn [findIndex]; [discriminate |].
  destruct (f y) eqn:Hy.
  - intros [= <-]. exists [], y, rest. repeat split; [exact Hy | constructor].
  - destruct (findIndex f rest) as [j |]; [| discriminate].
    cbn [option_map]. intros [= <-].
    destruct (IH j eq_refl) as (l1 & x & l2 & -> & Hx & Hl1 & Hn & Hs).
    exists (y :: l1), x, l2. cbn [app nth_error splice1]. rewrite Hs.
    repeat split; [exact Hx | constructor; assumption | exact Hn].
Qed.

Lemma findIndex_none {A} (f : A -> bool) l :
  findIndex f l = None -> Forall (fun y => f y = false) l.
Proof.
  induction l as [| y rest IH]; cbn [findIndex]; [constructor |].
  destruct (f y) eqn:Hy; [discriminate |].
  destruct (findIndex f rest); [discriminate |].
  intros _. constructor; [exact Hy | apply IH; reflexivity].
Qed.

Lemma not_same_iff a b : same a b = false <-> a <> b.
Proof.
  split.
  - intros H E. apply same_eq in E. congruence.
  - intros H. destruct (same a b) eqn:E; [| reflexivity].
    apply same_eq in E. contradiction.
Qed.

Lemma truthy_some a : truthy a = true -> exists c r, a = Some (c :: r).
Proof.
  destruct a as [[| c r] |]; cbn; try discriminate.
  intros _. exists c, r. reflexivity.
Qed.

Lemma onIncomingMessage_run now activeContact msg prev :
  truthy (sender_username (m_sender msg)) = true ->
  let u := sender_username (m_sender msg) in
  let opened := same (active_username activeContact) u in
  exists row,
    c_username row = u /\ c_lastMessageAt row = Some now
    /\ c_isOnline row = Some true
    /\ ((exists l1 old l2,
           prev = l1 ++ old :: l2 /\ c_username old = u
           /\ Forall (fun c => c_username c <> u) l1
           /\ c_unreadCount row
              = (if opened then 0 else c_unreadCount old + 1)
           /\ onIncomingMessage now activeContact (Some msg) prev
              = row :: l1 ++ l2)
        \/ (Forall (fun c => c_username c <> u) prev
            /\ c_unreadCount row = (if opened then 0 else 1)
            /\ onIncomingMessage now activeContact (Some msg) prev
               = row :: prev)).
Proof.
  intros Ht. cbv zeta. unfold onIncomingMessage. rewrite Ht. cbn [negb].
  destruct (findIndex _ prev) as [i |] eqn:Hi.
  - destruct (findIndex_some _ _ _ Hi)
      as (l1 & old & l2 & Hp & Hold & Hl1 & Hn & Hs).
    rewrite Hn, Hs. eexists (Build_Conversation _ _ _ _ _ _ _).
    cbn [c_username c_lastMessageAt c_isOnline c_unreadCount].
    split; [reflexivity |].
    split; [reflexivity |]. split; [reflexivity |]. left.
    exists l1, old, l2. repeat split.
    + exact Hp.
    + apply same_eq. exact Hold.
    + eapply Forall_impl; [| exact Hl1]. intros c Hc.
      apply not_same_iff. exact Hc.
  - pose proof (findIndex_none _ _ Hi) as Hall.
    eexists (Build_Conversation _ _ _ _ _ _ _).
    cbn [c_username c_lastMessageAt c_isOnline c_unreadCount].
    split; [reflexivity |].
    split; [reflexivity |]. split; [reflexivity |]. right.
    repeat split.
    eapply Forall_impl; [| exact Hall]. intros c Hc.
    apply not_same_iff. exact Hc.
Qed.

(** X14: a message from a sender with a name puts the sender's row on
    top of the conversation list, online and stamped with the time: the
    first row of that name is taken out of its place, or a new row is made.
    The other rows stay as they were and in their order.  The new row
    counts one unread message more than the old one (one, if new), or
    none when that conversation is the open one.  A message whose
    sender has no name changes nothing. *)
Theorem onIncomingMessage_moves_to_top (now : jsstring)
  (activeContact : option User) (msg : Message)
  (prev : list Conversation) :
  let u := sender_username (m_sender msg) in
  let opened := same (active_username activeContact) u in
  (truthy u = false ->
   onIncomingMessage now activeContact (Some msg) prev = prev)
  /\ (truthy u = true ->
      exists row,
        c_username row = u /\ c_lastMessageAt row = Some now
        /\ c_isOnline row = Some true
        /\ ((exists l1 old l2,
               prev = l1 ++ old :: l2 /\ c_username old = u
               /\ Forall (fun c => c_username c <> u) l1
               /\ c_unreadCount row
                  = (if opened then 0 else c_unreadCount old + 1)
               /\ onIncomingMessage now activeContact (Some msg) prev
                  = row :: l1 ++ l2)
            \/ (Forall (fun c => c_username c <> u) prev
                /\ c_unreadCount row = (if opened then 0 else 1)
                /\ onIncomingMessage now activeContact (Some msg) prev
                   = row :: prev))).
Proof.
  cbv zeta. split.
  - intros Ht. unfold onIncomingMessage. rewrite Ht. reflexivity.
  - apply onIncomingMessage_run.
Qed.

Lemma totalUnread_from l : forall a,
  fold_left (fun sum c => sum + c_unreadCount c) l a = a + totalUnread l.
Proof.
  unfold totalUnread. induction l as [| c rest IH]; intros a; cbn [fold_left].
  - lia.
  - rewrite IH, (IH (0 + c_unreadCount c)). lia.
Qed.

Lemma totalUnread_cons c l :
  totalUnread (c :: l) = c_unreadCount c + totalUnread l.
Proof.
  unfold totalUnread at 1. cbn [fold_left]. rewrite totalUnread_from. lia.
Qed.

Lemma totalUnread_app l1 l2 :
  totalUnread (l1 ++ l2) = totalUnread l1 + totalUnread l2.
Proof.
  induction l1 as [| c l1 IH]; [reflexivity |].
  cbn [app]. rewrite !totalUnread_cons, IH. lia.
Qed.

Lemma totalUnread_cleared u l :
  totalUnread (map (fun c => if same (c_username c) u
                             then with_unreadCount 0 c else c) l)
  = totalUnread (filter (fun c => negb (same (c_username c) u)) l).
Proof.
  induction l as [| c l IH]; [reflexivity |].
  cbn [map filter]. destruct (same (c_username c) u); cbn [negb].
  - rewrite totalUnread_cons, IH. reflexivity.
  - rewrite !totalUnread_cons, IH. reflexivity.
Qed.

Lemma totalUnread_online u b l :
  totalUnread (map (fun c => if same (c_username c) u
                             then with_isOnline b c else c) l)
  = totalUnread l.
Proof.
  induction l as [| c l IH]; [reflexivity |].
  cbn [map]. rewrite !totalUnread_cons, IH.
  destruct (same (c_username c) u); reflexivity.
Qed.

Lemma totalUnread_filter_le f l :
  totalUnread (filter f l) <= totalUnread l.
Proof.
  induction l as [| c l IH]; [reflexivity |].
  cbn [filter]. destruct (f c); rewrite ?totalUnread_cons; lia.
Qed.

(** X15: the badge of the side bar, the sum of the unread counts.  A
    message from a named sender whose conversation is not the open one
    raises it by exactly one; when that conversation is the open one
    the badge does not rise.  Selecting a conversation leaves the sum
    of the rows of other names, and the effect on the open contact does
    not raise it.  A presence event leaves it as it is. *)
Theorem totalUnread_accounting (now : jsstring)
  (activeContact : option User) (msg : Message) (conv : Conversation)
  (username : option jsstring) (prev : list Conversation) :
  let u := sender_username (m_sender msg) in
  (truthy u = true -> same (active_username activeContact) u = false ->
   totalUnread (onIncomingMessage now activeContact (Some msg) prev)
   = totalUnread prev + 1)
  /\ (truthy u = true -> same (active_username activeContact) u = true ->
      totalUnread (onIncomingMessage now activeContact (Some msg) prev)
      <= totalUnread prev)
  /\ totalUnread (fst (handleSelectContact conv prev))
     = totalUnread
         (filter (fun c => negb (same (c_username c) (c_username conv)))
                 prev)
  /\ totalUnread (onActiveContact activeContact prev) <= totalUnread prev
  /\ totalUnread (handleOnline username prev) = totalUnread prev
  /\ totalUnread (handleOffline username prev) = totalUnread prev.
Proof.
  cbv zeta. split; [| split; [| split; [| split; [| split]]]].
  - intros Ht Ho.
    destruct (onIncomingMessage_run now activeContact msg prev Ht)
      as (row & _ & _ & _ & H).
    cbv zeta in H. rewrite Ho in H.
    destruct H as [(l1 & old & l2 & -> & _ & _ & Hn & ->) | (_ & Hn & ->)].
    + rewrite totalUnread_cons, !totalUnread_app, totalUnread_cons. lia.
    + rewrite totalUnread_cons. lia.
  - intros Ht Ho.
    destruct (onIncomingMessage_run now activeContact msg prev Ht)
      as (row & _ & _ & _ & H).
    cbv zeta in H. rewrite Ho in H.
    destruct H as [(l1 & old & l2 & -> & _ & _ & Hn & ->) | (_ & Hn & ->)].
    + rewrite totalUnread_cons, !totalUnread_app, totalUnread_cons. lia.
    + rewrite totalUnread_cons. lia.
  - unfold handleSelectContact. cbn [fst]. apply totalUnread_cleared.
  - unfold onActiveContact.
    destruct (truthy (active_username activeContact)); [| reflexivity].
    rewrite totalUnread_cleared. apply totalUnread_filter_le.
  - apply totalUnread_online.
  - apply totalUnread_online.
Qed.

(* fetchConversations *)

Lemma existsb_same_in u l :
  existsb (fun m => same (c_username m) u) l = true
  <-> In u (map c_username l).
Proof.
  rewrite existsb_exists, in_map_iff. split.
  - intros (m & Hm & Hs). exists m. split; [apply same_eq; exact Hs | exact Hm].
  - intros (m & Hs & Hm). exists m. split; [exact Hm | apply same_eq; exact Hs].
Qed.

Lemma merge_spec prev : forall mapped,
  exists extra,
    fold_left unshift_missing prev mapped = extra ++ mapped
    /\ (forall c, In c extra ->
          In c prev /\ ~ In (c_username c) (map c_username mapped))
    /\ (forall c, In c prev ->
          In (c_username c)
             (map c_username (fold_left unshift_missing prev mapped)))
    /\ (NoDup (map c_username mapped) ->
        NoDup (map c_username (fold_left unshift_missing prev mapped))).
Proof.
  induction prev as [| p rest IH]; intros mapped.
  - exists []. cbn [fold_left app]. repeat split; try contradiction.
    intros H. exact H.
  - cbn [fold_left].
    destruct (existsb (fun m => same (c_username m) (c_username p)) mapped)
      eqn:He.
    + assert (E : unshift_missing mapped p = mapped)
        by (unfold unshift_missing; rewrite He; reflexivity).
      rewrite E.
      destruct (IH mapped) as (extra & H1 & H2 & H3 & H4).
      exists extra. split; [exact H1 |]. split; [| split; [| exact H4]].
      * intros c Hc. destruct (H2 c Hc) as [Ha Hb].
        split; [right; exact Ha | exact Hb].
      * intros c [<- | Hc]; [| apply H3; exact Hc].
        rewrite H1, map_app. apply in_or_app. right.
        apply existsb_same_in. exact He.
    + assert (E : unshift_missing mapped p = p :: mapped)
        by (unfold unshift_missing; rewrite He; reflexivity).
      rewrite E.
      destruct (IH (p :: mapped)) as (extra & H1 & H2 & H3 & H4).
      assert (Hp : ~ In (c_username p) (map c_username mapped)).
      { intros Hin. apply existsb_same_in in Hin. congruence. }
      exists (extra ++ [p]).
      split; [rewrite H1, <- app_assoc; reflexivity |].
      split; [| split].
      * intros c Hc. apply in_app_or in Hc as [Hc | [<- | []]].
        -- destruct (H2 c Hc) as [Ha Hb]. split; [right; exact Ha |].
           intros Hin. apply Hb. right. exact Hin.
        -- split; [left; reflexivity | exact Hp].
      * intros c [<- | Hc]; [| apply H3; exact Hc].
        rewrite H1, map_app. apply in_or_app. right. left. reflexivity.
      * intros Hnd. apply H4. cbn [map]. constructor; assumption.
Qed.

(** X16: fetchConversations: the rows of the server come last, as the
    server ordered them; before them come rows the list held whose names the
    server did not send, and no others.  So for a name the server
    sent, the row afterwards is the server's, with the server's unread
    count.  No name the list held is lost, and names that were
    different in the server's rows are different afterwards.  When the
    request fails, the list stays as it was. *)
Theorem fetchConversations_merge (data : list ServerConversation)
  (err : js_error) (prev : list Conversation) :
  fetchConversations (Throw err) prev = prev
  /\ exists extra,
       let mapped := map mapConversation data in
       let next := fetchConversations (Ok data) prev in
       next = extra ++ mapped
       /\ (forall c, In c extra ->
             In c prev /\ ~ In (c_username c) (map c_username mapped))
       /\ (forall c, In c prev -> In (c_username c) (map c_username next))
       /\ (NoDup (map c_username mapped) -> NoDup (map c_username next)).
Proof.
  split; [reflexivity |]. cbv zeta. unfold fetchConversations.
  apply merge_spec.
Qed.

(* the invariant *)

Lemma map_username_cleared u l :
  map c_username (map (fun c => if same (c_username c) u
                                then with_unreadCount 0 c else c) l)
  = map c_username l.
Proof.
  rewrite map_map. apply map_ext. intros c.
  destruct (same (c_username c) u); reflexivity.
Qed.

Lemma map_username_online u b l :
  map c_username (map (fun c => if same (c_username c) u
                                then with_isOnline b c else c) l)
  = map c_username l.
Proof.
  rewrite map_map. apply map_ext. intros c.
  destruct (same (c_username c) u); reflexivity.
Qed.

Lemma sidebar_step_distinct prev next :
  sidebar_step prev next ->
  NoDup (map c_username prev) -> NoDup (map c_username next).
Proof.
  intros Hstep Hnd.
  destruct Hstep as [clock activeContact incomingMessage prev
                    | activeContact prev | username prev | username prev
                    | get prev H | user prev | conv prev].
  - destruct incomingMessage as [msg |]; [| exact Hnd].
    destruct (truthy (sender_username (m_sender msg))) eqn:Ht.
    2: { unfold onIncomingMessage. rewrite Ht. exact Hnd. }
    destruct (onIncomingMessage_run clock activeContact msg prev Ht)
      as (row & Hu & _ & _ & H). cbv zeta in H.
    destruct H as [(l1 & old & l2 & -> & Hold & Hl1 & _ & ->)
                  | (Hall & _ & ->)].
    + rewrite map_app in Hnd. cbn [map] in Hnd.
      pose proof (NoDup_remove_1 _ _ _ Hnd) as Hnd'.
      pose proof (NoDup_remove_2 _ _ _ Hnd) as Hnot.
      cbn [map]. rewrite map_app. constructor; [| exact Hnd'].
      rewrite Hu, <- Hold. exact Hnot.
    + cbn [map]. constructor; [| exact Hnd].
      rewrite Hu. intros Hin. apply in_map_iff in Hin as (c & Hc & Hin).
      rewrite Forall_forall in Hall. exact (Hall c Hin Hc).
  - unfold onActiveContact.
    destruct (truthy _); [rewrite map_username_cleared |]; exact Hnd.
  - unfold handleOnline. rewrite map_username_online. exact Hnd.
  - unfold handleOffline. rewrite map_username_online. exact Hnd.
  - destruct get as [data | err]; [| exact Hnd].
    unfold fetchConversations.
    destruct (merge_spec prev (map mapConversation data))
      as (extra & _ & _ & _ & H4).
    apply H4. rewrite map_map. apply H. reflexivity.
  - unfold startChat. cbn [fst].
    destruct (existsb _ prev) eqn:He; [exact Hnd |].
    cbn [map c_username u_username]. constructor; [| exact Hnd].
    intros Hin. apply existsb_same_in in Hin.
    rewrite Hin in He. discriminate He.
  - unfold handleSelectContact. cbn [fst].
    rewrite map_username_cleared. exact Hnd.
Qed.

(** X17: the conversation list never holds two rows of one name.
    Whatever messages, presence events, polls, new chats and selections
    have come since the side bar was mounted, the names of its rows are
    all different, as long as the rows of each answer of the server
    are. *)
Theorem conversations_distinct (conversations : list Conversation) :
  sidebar_reachable conversations ->
  NoDup (map c_username conversations).
Proof.
  induction 1 as [| prev next _ IH Hstep]; [constructor |].
  exact (sidebar_step_distinct prev next Hstep IH).
Qed.

End SidebarFacts.

(* ================================================================== *)
(** * Facts: BackupModal *)
(* ================================================================== *)

Section BackupTab.
Import BackupModal.
Context {P : Platform}.

Lemma message_or_some err fallback : Some (message_or err fallback) <> None.
Proof. discriminate. Qed.

Ltac nothing_saved :=
  eexists; split; [reflexivity |];
  cbn [b_saved b_error b_password b_confirm]; repeat split; congruence.

Ltac file_saved :=
  eexists; split; [reflexivity |];
  cbn [b_saved b_error b_password b_confirm];
  split; [assumption |];
  split; [intros H; first [congruence | split; reflexivity]
         | intros H; first [congruence | split; reflexivity]].

(** X18: doBackup never fails.  It hands the browser a file only for a
    local backup, under a password of six characters or more that was
    typed the same twice, and the file is what encryptBackup makes of
    the data the server sent.  The two password boxes are emptied when
    no error is shown, and keep what was typed when one is. *)
Theorem doBackup_saves (env : Env) (user : User) (type : backup_type)
  (password confirm : jsstring) (w : world) :
  exists res,
    fst (doBackup env user type password confirm w) = Ok res
    /\ (forall f,
          b_saved res = Some f ->
          type = local /\ (6 <= length password)%nat /\ password = confirm
          /\ exists data,
               generate env = Ok data
               /\ fst (encryptBackup (backupData data) password w) = Ok f)
    /\ (b_error res = None -> b_password res = [] /\ b_confirm res = [])
    /\ (b_error res <> None ->
        b_password res = password /\ b_confirm res = confirm).
Proof.
  unfold doBackup.
  destruct password as [| c0 r0] eqn:Hpw; [nothing_saved |].
  rewrite <- Hpw.
  destruct (Nat.ltb_spec (length password) 6) as [Hlen | Hlen];
    [nothing_saved |].
  destruct (jsstring_eqb password confirm) eqn:Heq; cbn [negb];
    [| nothing_saved].
  apply jsstring_eqb_eq in Heq.
  unfold try_catch at 1. unfold bind at 1, lift at 1.
  destruct (generate env) as [data | err] eqn:Hgen; [| nothing_saved].
  unfold bind at 1.
  destruct (encryptBackup (backupData data) password w)
    as [[f | err] w1] eqn:He; [| nothing_saved].
  assert (Hsaved :
    type = local ->
    forall f',
      Some f = Some f' ->
      local = local /\ (6 <= length password)%nat /\ password = confirm
      /\ exists data',
           Ok data = Ok data'
           /\ fst (encryptBackup (backupData data') password w) = Ok f').
  { intros _ f' [= <-]. repeat split; try assumption.
    exists data. split; [reflexivity | rewrite He; reflexivity]. }
  destruct type.
  - specialize (Hsaved eq_refl).
    unfold try_catch, bind, lift, ret.
    destruct (get_prop (stats data) (str "totalMessages") w1)
      as [[mc | err] w2]; [| file_saved].
    destruct (get_prop (stats data) (str "totalContacts") w2)
      as [[cc | err] w3]; [| file_saved].
    destruct (record env _) as [[] | err]; file_saved.
  - clear Hsaved. unfold bind, lift, ret.
    destruct (isAuthenticated env).
    + destruct (uploadToDrive env f (u_username user)) as [id | err];
        [| nothing_saved].
      destruct (get_prop (stats data) (str "totalMessages") w1)
        as [[mc | err] w2]; [| nothing_saved].
      destruct (get_prop (stats data) (str "totalContacts") w2)
        as [[cc | err] w3]; [| nothing_saved].
      destruct (record env _) as [[] | err]; nothing_saved.
    + destruct (authenticateGoogle env) as [[] | err]; [| nothing_saved].
      destruct (uploadToDrive env f (u_username user)) as [id | err];
        [| nothing_saved].
      destruct (get_prop (stats data) (str "totalMessages") w1)
        as [[mc | err] w2]; [| nothing_saved].
      destruct (get_prop (stats data) (str "totalContacts") w2)
        as [[cc | err] w3]; [| nothing_saved].
      destruct (record env _) as [[] | err]; nothing_saved.
Qed.

End BackupTab.

Section RestoreTab.
Import BackupModal.
Context {P : Platform}.

Lemma strict_eq_string_same name s :
  strict_eq_string (Some (JStr name)) s = same (Some name) s.
Proof. destruct s; reflexivity. Qed.

(** What the decoding part of doRestore comes to, once the content is
    there. *)
Lemma doRestore_decode env user st content w :
  r_password st <> [] -> content <> [] -> restore_content env st content ->
  let failed n :=
    {| r_error := Some n; r_result := None;
       r_password' := r_password st; r_fileContent' := fileContent st |} in
  fst (doRestore env user st w)
  = Ok match fst (decryptBackup content (r_password st) w) with
       | Throw err => failed (message_or err "Restore failed")
       | Ok data =>
           match data with
           | JNull => failed (message_or TypeError "Restore failed")
           | _ =>
               match field data (str "owner") with
               | None | Some JNull =>
                   failed (message_or TypeError "Restore failed")
               | Some owner =>
                   if strict_eq_string (field owner (str "username"))
                                       (u_username user)
                   then
                     match restore env data with
                     | Ok d =>
                         {| r_error := None; r_result := Some d;
                            r_password' := []; r_fileContent' := None |}
                     | Throw err =>
                         failed (message_or err "Restore failed")
                     end
                   else
                     failed (Belongs
                               (ToString (field owner (str "username")))
                               (or_undefined (u_username user)))
               end
           end
       end.
Proof.
  intros Hpw Hc Hcontent. cbv zeta. unfold doRestore.
  destruct (r_password st) as [| p0 pr] eqn:Epw; [congruence |].
  rewrite <- Epw.
  assert (Hdecode :
    forall fc,
      fst (match content with
           | [] =>
               ret {| r_error := Some (Text "No backup file selected");
                      r_result := None; r_password' := r_password st;
                      r_fileContent' := fc |}
           | _ :: _ =>
               try_catch
                 (backupData <- decryptBackup content (r_password st) ;;
                  owner <- get_prop (Some backupData) (str "owner") ;;
                  username <- get_prop owner (str "username") ;;
                  if negb (strict_eq_string username (u_username user))
                  then ret {| r_error :=
                                Some (Belongs (ToString username)
                                        (or_undefined (u_username user)));
                              r_result := None;
                              r_password' := r_password st;
                              r_fileContent' := fc |}
                  else
                    data <- lift (restore env backupData) ;;
                    ret {| r_error := None; r_result := Some data;
                           r_password' := []; r_fileContent' := None |})
                 (fun err =>
                    ret {| r_error := Some (message_or err "Restore failed");
                           r_result := None; r_password' := r_password st;
                           r_fileContent' := fc |})
           end w)
      = Ok match fst (decryptBackup content (r_password st) w) with
           | Throw err =>
               {| r_error := Some (message_or err "Restore failed");
                  r_result := None; r_password' := r_password st;
                  r_fileContent' := fc |}
           | Ok data =>
               match data with
               | JNull =>
                   {| r_error :=
                        Some (message_or TypeError "Restore failed");
                      r_result := None; r_password' := r_password st;
                      r_fileContent' := fc |}
               | _ =>
                   match field data (str "owner") with
                   | None | Some JNull =>
                       {| r_error :=
                            Some (message_or TypeError "Restore failed");
                          r_result := None; r_password' := r_password st;
                          r_fileContent' := fc |}
                   | Some owner =>
                       if strict_eq_string (field owner (str "username"))
                                           (u_username user)
                       then
                         match restore env data with
                         | Ok d =>
                             {| r_error := None; r_result := Some d;
                                r_password' := []; r_fileContent' := None |}
                         | Throw err =>
                             {| r_error :=
                                  Some (message_or err "Restore failed");
                                r_result := None;
                                r_password' := r_password st;
                                r_fileContent' := fc |}
                         end
                       else
                         {| r_error :=
                              Some (Belongs
                                      (ToString
                                         (field owner (str "username")))
                                      (or_undefined (u_username user)));
                            r_result := None; r_password' := r_password st;
                            r_fileContent' := fc |}
                   end
               end
           end).
  { intros fc. destruct content as [| c0 cr] eqn:Ec; [congruence |].
    rewrite <- Ec. unfold try_catch, bind at 1.
    destruct (decryptBackup content (r_password st) w) as [[data | err] w1];
      cbn [fst]; [| reflexivity].
    destruct data; try reflexivity;
      unfold bind at 1; cbn [get_prop ret];
      (destruct (field _ (str "owner")) as [owner |]; [| reflexivity]);
      (destruct owner; try reflexivity);
      unfold bind at 1; cbn [get_prop ret];
      (destruct (strict_eq_string _ (u_username user)); cbn [negb];
         [| reflexivity]);
      unfold bind, lift, ret; destruct (restore env _); reflexivity. }
  unfold restore_content in Hcontent.
  destruct (restoreMethod st).
  - rewrite Hcontent. rewrite Epw in *. apply Hdecode.
  - destruct Hcontent as (id & Hsel & Hdl). rewrite Hsel, Hdl.
    rewrite Epw in *. apply Hdecode.
Qed.


Lemma doRestore_cases env user st w :
  (exists n,
     fst (doRestore env user st w)
     = Ok {| r_error := Some n; r_result := None;
             r_password' := r_password st;
             r_fileContent' := fileContent st |})
  \/ (exists content,
        r_password st <> [] /\ content <> []
        /\ restore_content env st content).
Proof.
  unfold doRestore, restore_content. destruct st as [m pw fc sel].
  cbn [restoreMethod r_password fileContent selectedDriveFile].
  destruct pw as [| p0 pr]; [left; eexists; reflexivity |].
  destruct m.
  - destruct fc as [[| c0 cr] |]; try (left; eexists; reflexivity).
    right. exists (c0 :: cr). repeat split; discriminate.
  - destruct sel as [id |]; [| left; eexists; reflexivity].
    destruct (downloadFromDrive env id) as [[| c0 cr] | err] eqn:Hdl;
      try (left; eexists; reflexivity).
    right. exists (c0 :: cr). split; [discriminate |].
    split; [discriminate |]. exists id. split; [reflexivity | exact Hdl].
Qed.

(** X19: doRestore never fails.  It sends the server a backup only when
    the content it was given (the file read, or the one downloaded from
    Drive) decodes under the password and names as its owner the user
    who restores; only then are the password and the file dropped.  In
    every other case it shows an error and keeps both. *)
Theorem doRestore_own_backup_only (env : Env) (user : User)
  (st : RestoreState) (w : world) :
  exists res,
    fst (doRestore env user st w) = Ok res
    /\ (forall d,
          r_result res = Some d ->
          r_error res = None /\ r_password' res = []
          /\ r_fileContent' res = None
          /\ exists content data owner,
               restore_content env st content
               /\ fst (decryptBackup content (r_password st) w) = Ok data
               /\ field data (str "owner") = Some owner
               /\ strict_eq_string (field owner (str "username"))
                                   (u_username user) = true
               /\ restore env data = Ok d)
    /\ (r_result res = None ->
        r_error res <> None /\ r_password' res = r_password st
        /\ r_fileContent' res = fileContent st).
Proof.
  assert (Hfail : forall n,
    exists res,
      Ok {| r_error := Some n; r_result := None;
            r_password' := r_password st;
            r_fileContent' := fileContent st |} = Ok res
      /\ (forall d,
            r_result res = Some d ->
            r_error res = None /\ r_password' res = []
            /\ r_fileContent' res = None
            /\ exists content data owner,
                 restore_content env st content
                 /\ fst (decryptBackup content (r_password st) w) = Ok data
                 /\ field data (str "owner") = Some owner
                 /\ strict_eq_string (field owner (str "username"))
                                     (u_username user) = true
                 /\ restore env data = Ok d)
      /\ (r_result res = None ->
          r_error res <> None /\ r_password' res = r_password st
          /\ r_fileContent' res = fileContent st)).
  { intros n. eexists. split; [reflexivity |].
    cbn [r_error r_result r_password' r_fileContent']. split.
    - intros d Hd. discriminate Hd.
    - intros _. repeat split. discriminate. }
  assert (Hdec : forall content,
    r_password st <> [] -> content <> [] -> restore_content env st content ->
    exists res,
      fst (doRestore env user st w) = Ok res
      /\ (forall d,
            r_result res = Some d ->
            r_error res = None /\ r_password' res = []
            /\ r_fileContent' res = None
            /\ exists content data owner,
                 restore_content env st content
                 /\ fst (decryptBackup content (r_password st) w) = Ok data
                 /\ field data (str "owner") = Some owner
                 /\ strict_eq_string (field owner (str "username"))
                                     (u_username user) = true
                 /\ restore env data = Ok d)
      /\ (r_result res = None ->
          r_error res <> None /\ r_password' res = r_password st
          /\ r_fileContent' res = fileContent st)).
  { intros content Hpw Hne Hcontent.
    rewrite (doRestore_decode env user st content w Hpw Hne Hcontent).
    destruct (fst (decryptBackup content (r_password st) w))
      as [data | err] eqn:Hd; [| apply Hfail].
    destruct (field data (str "owner")) as [owner |] eqn:Ho.
    2: { destruct data; apply Hfail. }
    destruct (strict_eq_string (field owner (str "username"))
                               (u_username user)) eqn:Hs.
    2: { destruct data; try apply Hfail; destruct owner; apply Hfail. }
    destruct (restore env data) as [d |] eqn:Hr.
    2: { destruct data; try apply Hfail; destruct owner; apply Hfail. }
    assert (Hok :
      exists res,
        Ok {| r_error := None; r_result := Some d;
              r_password' := []; r_fileContent' := None |} = Ok res
        /\ (forall d,
              r_result res = Some d ->
              r_error res = None /\ r_password' res = []
              /\ r_fileContent' res = None
              /\ exists content data owner,
                   restore_content env st content
                   /\ fst (decryptBackup content (r_password st) w) = Ok data
                   /\ field data (str "owner") = Some owner
                   /\ strict_eq_string (field owner (str "username"))
                                       (u_username user) = true
                   /\ restore env data = Ok d)
        /\ (r_result res = None ->
            r_error res <> None /\ r_password' res = r_password st
            /\ r_fileContent' res = fileContent st)).
    { eexists. split; [reflexivity |].
      cbn [r_error r_result r_password' r_fileContent']. split.
      - intros d' [= <-]. repeat split.
        exists content, data, owner. repeat split; assumption.
      - intros Hd'. discriminate Hd'. }
    destruct data; try apply Hfail; destruct owner; try apply Hfail;
      exact Hok. }
  destruct (doRestore_cases env user st w)
    as [(n & Hn) | (content & Hpw & Hne & Hcontent)].
  - rewrite Hn. apply Hfail.
  - exact (Hdec content Hpw Hne Hcontent).
Qed.


Lemma doBackup_local_saved env user pw w data f :
  (6 <= length pw)%nat -> generate env = Ok data ->
  fst (encryptBackup (backupData data) pw w) = Ok f ->
  exists res,
    fst (doBackup env user local pw pw w) = Ok res /\ b_saved res = Some f.
Proof.
  intros Hlen Hgen He. unfold doBackup.
  destruct pw as [| c0 r0] eqn:Hpw; [cbn in Hlen; lia |]. rewrite <- Hpw in *.
  replace (length pw <? 6)%nat with false
    by (symmetry; apply Nat.ltb_ge; exact Hlen).
  replace (jsstring_eqb pw pw) with true
    by (symmetry; apply jsstring_eqb_eq; reflexivity).
  cbn [negb]. unfold try_catch at 1. unfold bind at 1, lift at 1.
  rewrite Hgen. unfold bind at 1.
  destruct (encryptBackup (backupData data) pw w) as [o w1].
  cbn [fst] in He. subst o.
  unfold try_catch, bind, lift, ret.
  destruct (get_prop (stats data) (str "totalMessages") w1)
    as [[mc | err] w2]; [| eexists; split; reflexivity].
  destruct (get_prop (stats data) (str "totalContacts") w2)
    as [[cc | err] w3]; [| eexists; split; reflexivity].
  destruct (record env _) as [[] | err]; eexists; split; reflexivity.
Qed.

End RestoreTab.

Section BackupRestore.
Import BackupModal.
Context {P : Platform} (L : PlatformLaws P).

(** X20: a local backup and its restore.  When the ciphertext of the
    data is within the engine's argument limit, doBackup hands the
    browser a file whatever becomes of the record request; doRestore,
    given that file and the same password, decodes the data that was
    backed up.  A user who bears the name of the backup's owner has it
    sent to the server, and the password and file are dropped when the
    server accepts; any other user is told whose backup it is, and
    nothing is sent.  When the ciphertext is beyond the limit doBackup
    hands over no file and shows the engine's range error. *)
Theorem backup_then_restore (env env' : Env) (user reader : User)
  (data owner : json number) (stats : option (json number))
  (name pw : jsstring) (sel : option jsstring) (w w' : world) :
  generate env = Ok {| backupData := data; BackupModal.stats := stats |} ->
  (6 <= length pw)%nat ->
  canonical data = true -> valid_units (now w) = true ->
  data <> JNull -> field data (str "owner") = Some owner ->
  field owner (str "username") = Some (JStr name) ->
  JSON_stringify 2 (envelope_of data pw w (str "1.0")) <> [] ->
  (fits (length (Utf8.encode (JSON_stringify 0 data)) + 16) ->
   exists res f,
     fst (doBackup env user local pw pw w) = Ok res
     /\ b_saved res = Some f
     /\ fst (doRestore env' reader
               {| restoreMethod := file; r_password := pw;
                  fileContent := Some f; selectedDriveFile := sel |} w')
        = Ok (if same (Some name) (u_username reader)
              then
                match restore env' data with
                | Ok d =>
                    {| r_error := None; r_result := Some d;
                       r_password' := []; r_fileContent' := None |}
                | Throw err =>
                    {| r_error := Some (message_or err "Restore failed");
                       r_result := None; r_password' := pw;
                       r_fileContent' := Some f |}
                end
              else
                {| r_error :=
                     Some (Belongs name (or_undefined (u_username reader)));
                   r_result := None; r_password' := pw;
                   r_fileContent' := Some f |}))
  /\ (~ fits (length (Utf8.encode (JSON_stringify 0 data)) + 16) ->
      fst (doBackup env user local pw pw w)
      = Ok {| b_error := Some (MessageOf "" RangeError); b_saved := None;
              b_password := pw; b_confirm := pw |}).
Proof.
  intros Hgen Hlen Hcan Hnow Hnn Ho Hname Hfile.
  assert (Hown : has_owner data).
  { split; [exact Hnn |]. exists owner. split; [exact Ho |].
    intros ->. discriminate Hname. }
  split.
  2: { intros Hlong.
       pose proof (encryptBackup_too_long L data pw w Hlong) as He.
       unfold doBackup.
       destruct pw as [| c0 r0] eqn:Hpw; [cbn in Hlen; lia |].
       rewrite <- Hpw in *.
       replace (length pw <? 6)%nat with false
         by (symmetry; apply Nat.ltb_ge; exact Hlen).
       replace (jsstring_eqb pw pw) with true
         by (symmetry; apply jsstring_eqb_eq; reflexivity).
       cbn [negb]. unfold try_catch at 1. unfold bind at 1, lift at 1.
       rewrite Hgen. unfold bind at 1. cbn [backupData].
       destruct (encryptBackup data pw w) as [o w1].
       cbn [fst] in He. subst o. reflexivity. }
  intros Hfits.
  pose proof (encryptBackup_run L data pw w Hown Hfits) as He.
  destruct (doBackup_local_saved env user pw w
              {| backupData := data; BackupModal.stats := stats |}
              _ Hlen Hgen He) as (res & Hres & Hsaved).
  exists res, (JSON_stringify 2 (envelope_of data pw w (str "1.0"))).
  split; [exact Hres |]. split; [exact Hsaved |].
  rewrite (doRestore_decode env' reader _
             (JSON_stringify 2 (envelope_of data pw w (str "1.0"))) w').
  - cbn [r_password fileContent].
    rewrite (decryptBackup_envelope L data pw pw w w' (str "1.0")
               Hcan Hnow eq_refl eq_refl).
    cbn [fst]. rewrite (not_null_match _ _ _ Hnn), Ho.
    assert (Hon : owner <> JNull) by (intros ->; discriminate Hname).
    rewrite (not_null_match _ _ _ Hon), Hname, strict_eq_string_same.
    cbn [ToString to_string]. reflexivity.
  - cbn [r_password]. intros ->. cbn in Hlen. lia.
  - exact Hfile.
  - reflexivity.
Qed.

End BackupRestore.

(* ================================================================== *)
(** * The further properties on the reference platform *)
(* ================================================================== *)

Section Witnesses.
#[local] Existing Instance Ref.platform.



Lemma handleRegister_refuses_witness :
  AuthPage.handleRegister Sample.accept Sample.form1 Ref.world0
  = (Ok (Some (Text "Passphrase must be 8+ characters")), Ref.world0).
Proof.
  apply (handleRegister_refuses Sample.accept Sample.accept Sample.form1
           Ref.world0).
  intros (_ & H & _). cbn in H. lia.
Defined.

Lemma send_then_read_witness :
  exists req,
    fst (ChatWindow.sendMessage in_turn Sample.store (Some Sample.bob)
           Sample.alice Sample.typing Ref.world0)
    = Ok match Sample.store req with
         | Ok data =>
             ({| ChatWindow.messages :=
                   [{| shown := data; plaintext := str "hello";
                       decryptFailed := false |}];
                 ChatWindow.input := [];
                 ChatWindow.sending := false |}, None)
         | Throw err =>
             (Sample.typing,
              Some (response_message err "Failed to send message"))
         end
    /\ forall prev,
         fst (ChatWindow.handleIncoming (Some Sample.alice)
                (Some Ref.bob_key)
                (Some {| m_id := Some (str "m1");
                         m_sender := SenderObject Sample.alice;
                         encryptedForRecipient := ChatWindow.forRecipient req;
                         encryptedForSender := ChatWindow.forSender req |})
                prev Ref.world0)
         = Ok (ChatWindow.add_unless_known
                 {| shown :=
                      {| m_id := Some (str "m1");
                         m_sender := SenderObject Sample.alice;
                         encryptedForRecipient := ChatWindow.forRecipient req;
                         encryptedForSender := ChatWindow.forSender req |};
                    plaintext := str "hello"; decryptFailed := false |}
                 prev).
Proof.
  destruct (send_then_read ref_laws in_turn Sample.store
              Sample.bob Sample.alice
              Ref.bob_key Ref.bob_key Ref.alice_key Ref.alice_key
              Sample.typing Ref.world0)
    as [Hin _].
  - reflexivity.
  - discriminate.
  - reflexivity.
  - reflexivity.
  - reflexivity.
  - apply ref_pair_valid.
  - apply ref_pair_valid.
  - destruct Hin as (req & Hrun & _ & Hread);
      [vm_compute; discriminate |].
    exists req. split.
    + rewrite Hrun. destruct (Sample.store req); reflexivity.
    + intros prev.
      destruct (Hread (Some (str "m1")) Ref.world0) as (_ & Hother).
      destruct (Hother eq_refl eq_refl) as (_ & Hinc).
      apply (Hinc eq_refl).
Defined.

Lemma onIncomingMessage_moves_to_top_witness :
  map Sidebar.c_username
      (Sidebar.onIncomingMessage (str "2024-01-01T00:00:00.000Z") None
         (Some Sample.from_bob) Sample.rows)
  = [Some (str "bob"); Some (str "carol"); Some (str "dave")].
Proof.
  destruct (proj2 (onIncomingMessage_moves_to_top
                     (str "2024-01-01T00:00:00.000Z") None Sample.from_bob
                     Sample.rows) eq_refl)
    as (row & Hu & _ & _ & [(l1 & old & l2 & _ & _ & _ & _ & H)
                           | (_ & _ & H)]);
    reflexivity.
Defined.

Lemma totalUnread_accounting_witness :
  Sidebar.totalUnread
    (Sidebar.onIncomingMessage (str "2024-01-01T00:00:00.000Z") None
       (Some Sample.from_bob) Sample.rows)
  = Sidebar.totalUnread Sample.rows + 1.
Proof.
  apply (proj1 (totalUnread_accounting (str "2024-01-01T00:00:00.000Z")
                  None Sample.from_bob (Sample.row "bob" 2) None
                  Sample.rows)); reflexivity.
Defined.

Lemma conversations_distinct_witness :
  NoDup (map Sidebar.c_username
           (Sidebar.onIncomingMessage (str "2024-01-01T00:00:00.000Z") None
              (Some Sample.from_bob)
              (fst (Sidebar.startChat Sample.bob [])))).
Proof.
  apply conversations_distinct.
  eapply reach_step; [| apply step_incoming].
  eapply reach_step; [| apply step_start].
  apply reach_start.
Defined.

Lemma backup_then_restore_witness :
  exists res f,
    fst (BackupModal.doBackup Sample.backup_env Sample.alice
           BackupModal.local (str "backup123") (str "backup123")
           Ref.world0) = Ok res
    /\ BackupModal.b_saved res = Some f
    /\ fst (BackupModal.doRestore Sample.backup_env Sample.alice
              {| BackupModal.restoreMethod := BackupModal.file;
                 BackupModal.r_password := str "backup123";
                 BackupModal.fileContent := Some f;
                 BackupModal.selectedDriveFile := None |} Ref.world0)
       = Ok {| BackupModal.r_error := None;
               BackupModal.r_result := Some JNull;
               BackupModal.r_password' := [];
               BackupModal.r_fileContent' := None |}
    /\ fst (BackupModal.doRestore Sample.backup_env Sample.bob
              {| BackupModal.restoreMethod := BackupModal.file;
                 BackupModal.r_password := str "backup123";
                 BackupModal.fileContent := Some f;
                 BackupModal.selectedDriveFile := None |} Ref.world0)
       = Ok {| BackupModal.r_error :=
                 Some (Belongs (str "alice") (str "bob"));
               BackupModal.r_result := None;
               BackupModal.r_password' := str "backup123";
               BackupModal.r_fileContent' := Some f |}.
Proof.
  assert (Hfile :
    JSON_stringify 2 (envelope_of Ref.payload0 (str "backup123") Ref.world0
                        (str "1.0")) <> []).
  { unfold envelope_of, object_literal. intros H. discriminate H. }
  destruct (@backup_then_restore Ref.platform ref_laws
              Sample.backup_env Sample.backup_env
              Sample.alice Sample.alice Ref.payload0
              (JObj [(str "username", JStr (str "alice"));
                     (str "publicKey", JStr Ref.alice_key)])
              (@field Ref.platform Ref.payload0 (str "stats"))
              (str "alice") (str "backup123") None Ref.world0 Ref.world0
              eq_refl ltac:(cbn; lia) payload0_canonical world0_clock
              ltac:(discriminate) eq_refl eq_refl Hfile)
    as [Hin _].
  destruct (Hin payload0_fits) as (res & f & Hres & Hsaved & Hown).
  clear Hin.
  destruct (@backup_then_restore Ref.platform ref_laws
              Sample.backup_env Sample.backup_env
              Sample.alice Sample.bob Ref.payload0
              (JObj [(str "username", JStr (str "alice"));
                     (str "publicKey", JStr Ref.alice_key)])
              (@field Ref.platform Ref.payload0 (str "stats"))
              (str "alice") (str "backup123") None Ref.world0 Ref.world0
              eq_refl ltac:(cbn; lia) payload0_canonical world0_clock
              ltac:(discriminate) eq_refl eq_refl Hfile)
    as [Hin _].
  destruct (Hin payload0_fits) as (res' & f' & Hres' & Hsaved' & Hother).
  clear Hin.
  rewrite Hres in Hres'. injection Hres' as <-.
  rewrite Hsaved in Hsaved'. injection Hsaved' as <-.
  exists res, f. split; [exact Hres |]. split; [exact Hsaved |].
  split; [exact Hown | exact Hother].
Defined.

End Witnesses.
